(** * Compact letter display of Tukey groupings ([cld_from_tukey])

    A shallow embedding of the function [cld_from_tukey] of
    [statistical_analysis_reproducible_from_csv.py] and the properties of
    the letter assignment it computes; with it, [sig_code] and the part
    of [main] that calls [cld_from_tukey] (the pairs it records from the
    Tukey test and the rows it makes of the letters).

    Data, as the script has it:
    - a level (rate) is a Python [int]: [Z];
    - [means_dict] is a [dict] from levels to floats, used only as the sort
      key.  Every finite float is a rational and floats compare as the
      rationals they denote, so the values are [Q] (NaN is not modelled);
    - [reject_pairs] is a [dict] from pairs of levels to [bool];
    - [letter_sets] is a list of Python sets of levels: [list (gset Z)];
    - [letters_map] is a [dict] from levels to strings: the strings are
      lists of characters, since they only grow at the end by [+=];
    - a raised exception is a value of [error]; every function that can
      raise returns a [result]. *)

From Stdlib Require Import QArith Lqa Ascii.
From stdpp Require Import gmap list sorting.

Open Scope Z_scope.
Open Scope nat_scope.

(** ** Exceptions *)

Inductive error : Type :=
  | KeyError     (* [d[k]] on a key the dict does not hold *)
  | IndexError   (* [ascii_lowercase[i]] out of range *)
  | ValueError.  (* [ascii_lowercase.index(x)] on a character not in it *)

Inductive result (A : Type) : Type :=
  | Ok (a : A)
  | Err (e : error).
Arguments Ok {A} a.
Arguments Err {A} e.

#[global] Instance result_ret : MRet result := λ A a, Ok a.
#[global] Instance result_bind : MBind result := λ A B f r,
  match r with
  | Ok a => f a
  | Err e => Err e
  end.

(** A loop [for x in l: st = body(st, x)] whose body may raise. *)
Fixpoint for_each {A S : Type} (body : S → A → result S) (st : S) (l : list A)
  : result S :=
  match l with
  | [] => Ok st
  | x :: l' => st' ← body st x; for_each body st' l'
  end.

(** ** [ascii_lowercase], indexing and [str.index] *)

Definition ascii_lowercase : list ascii :=
  ["a"; "b"; "c"; "d"; "e"; "f"; "g"; "h"; "i"; "j"; "k"; "l"; "m";
   "n"; "o"; "p"; "q"; "r"; "s"; "t"; "u"; "v"; "w"; "x"; "y"; "z"]%char.

(** [ascii_lowercase[i]] for [i >= 0]. *)
Definition getitem (i : nat) : result ascii :=
  match ascii_lowercase !! i with
  | Some c => Ok c
  | None => Err IndexError
  end.

(** Position of the first occurrence of [x] in [l]. *)
Fixpoint find_index (x : ascii) (l : list ascii) : option nat :=
  match l with
  | [] => None
  | y :: l' => if decide (x = y) then Some 0 else S <$> find_index x l'
  end.

(** [ascii_lowercase.index(x)]. *)
Definition index (x : ascii) : result nat :=
  match find_index x ascii_lowercase with
  | Some i => Ok i
  | None => Err ValueError
  end.

(** ** [sorted(l, key=..., reverse=...)]

    Python computes the key of every element first (so a raising key
    function aborts the call) and then sorts stably.  [leb k1 k2] says that
    an element of key [k1] may stand before one of key [k2]: [<=] on the
    keys, or [>=] under [reverse=True], which keeps elements of equal keys
    in their input order as well. *)

Section Sorted.
Context {K A : Type} (leb : K → K → bool).

Fixpoint insert_by (x : K * A) (l : list (K * A)) : list (K * A) :=
  match l with
  | [] => [x]
  | y :: l' => if leb x.1 y.1 then x :: y :: l' else y :: insert_by x l'
  end.

Definition sort_pairs (l : list (K * A)) : list (K * A) :=
  foldr insert_by [] l.

Fixpoint with_keys (key : A → result K) (l : list A) : result (list (K * A)) :=
  match l with
  | [] => Ok []
  | x :: l' => k ← key x; kl ← with_keys key l'; Ok ((k, x) :: kl)
  end.

Definition py_sorted (key : A → result K) (l : list A) : result (list A) :=
  kl ← with_keys key l; Ok ((sort_pairs kl).*2).
End Sorted.

(** ** Dictionaries *)

(** [d[k]]. *)
Definition dict_get {K V : Type} `{Countable K} (d : gmap K V) (k : K) : result V :=
  match d !! k with
  | Some v => Ok v
  | None => Err KeyError
  end.

(** [letters_map[r] += c], for a character [c] at hand. *)
Definition append_letter (letters_map : gmap Z (list ascii)) (r : Z) (c : ascii)
  : result (gmap Z (list ascii)) :=
  cur ← dict_get letters_map r; Ok (<[r := cur ++ [c]]> letters_map).

(** [letters_map[r] += ascii_lowercase[i]]: an augmented assignment reads
    its target before it evaluates the right-hand side. *)
Definition append_letter_at (letters_map : gmap Z (list ascii)) (r : Z) (i : nat)
  : result (gmap Z (list ascii)) :=
  cur ← dict_get letters_map r;
  c ← getitem i;
  Ok (<[r := cur ++ [c]]> letters_map).

(** ** The significance lookup (lines 55-56 and 75-76)

    [key = (r, rr) if (r, rr) in reject_pairs else (rr, r)] and then
    [reject_pairs.get(key, False)]. *)

Definition pair_key (reject_pairs : gmap (Z * Z) bool) (r rr : Z) : Z * Z :=
  if decide (is_Some (reject_pairs !! (r, rr))) then (r, rr) else (rr, r).

Definition significant (reject_pairs : gmap (Z * Z) bool) (r rr : Z) : bool :=
  default false (reject_pairs !! pair_key reject_pairs r rr).

(** The loop [ok = True; for rr in s: if significant: ok = False; break],
    over the members in the order the iteration yields them. *)
Fixpoint ok_loop (reject_pairs : gmap (Z * Z) bool) (r : Z) (members : list Z) : bool :=
  match members with
  | [] => true
  | rr :: rest => if significant reject_pairs r rr then false
                  else ok_loop reject_pairs r rest
  end.

(** ** The algorithm

    Python fixes no order for the iteration over a set: [iter_levels s] is
    the order in which [for rr in s] yields the members of [s], and
    [iter_chars str] the order in which [set(str)] yields the distinct
    characters of [str]. *)

Record state : Type := State {
  letter_sets : list (gset Z);
  letters_map : gmap Z (list ascii)
}.

Section Algorithm.
Variable iter_levels : gset Z → list Z.
Variable iter_chars : list ascii → list ascii.
Variable reject_pairs : gmap (Z * Z) bool.

Definition compatible (r : Z) (s : gset Z) : bool :=
  ok_loop reject_pairs r (iter_levels s).

(** Lines 52-62: [for i, s in enumerate(letter_sets)], from index [i] on.
    The result holds the groups as the loop leaves them, the map and the
    flag [placed].  There is no [break] after [placed = True]: the scan
    goes on to the next group.  When the loop raises, the call raises and
    what it has changed so far is lost with it. *)
Fixpoint scan_groups (r : Z) (i : nat) (sets : list (gset Z))
    (lm : gmap Z (list ascii)) (placed : bool)
  : result (list (gset Z) * gmap Z (list ascii) * bool) :=
  match sets with
  | [] => Ok ([], lm, placed)
  | s :: rest =>
      if compatible r s then
        lm' ← append_letter_at lm r i;
        '(rest', lm'', placed') ← scan_groups r (S i) rest lm' true;
        Ok ((s ∪ {[r]}) :: rest', lm'', placed')
      else
        '(rest', lm'', placed') ← scan_groups r (S i) rest lm placed;
        Ok (s :: rest', lm'', placed')
  end.

(** Lines 51-65: the body of the first loop for one level [r]. *)
Definition place (st : state) (r : Z) : result state :=
  '(sets, lm, placed) ← scan_groups r 0 (letter_sets st) (letters_map st) false;
  if placed : bool then Ok (State sets lm)
  else
    let sets' := sets ++ [{[r]}] in
    lm' ← append_letter_at lm r (length sets' - 1);
    Ok (State sets' lm').

(** Lines 50-65. *)
Definition pass1 (st : state) (sorted_rates : list Z) : result state :=
  for_each place st sorted_rates.

(** Lines 70-80: the body of the inner loop of the second pass. *)
Definition backfill (s : gset Z) (letter : ascii)
    (lm : gmap Z (list ascii)) (r : Z) : result (gmap Z (list ascii)) :=
  cur ← dict_get lm r;
  if bool_decide (letter ∈ cur) then Ok lm
  else if compatible r s then append_letter lm r letter
  else Ok lm.

(** Lines 68-80: [for i, s in enumerate(letter_sets)], from index [i] on. *)
Fixpoint pass2 (rate_levels : list Z) (i : nat) (sets : list (gset Z))
    (lm : gmap Z (list ascii)) : result (gmap Z (list ascii)) :=
  match sets with
  | [] => Ok lm
  | s :: rest =>
      letter ← getitem i;
      lm' ← for_each (backfill s letter) lm rate_levels;
      pass2 rate_levels (S i) rest lm'
  end.

(** Line 83: ["".join(sorted(set(str), key=ascii_lowercase.index))]. *)
Definition normalize (str : list ascii) : result (list ascii) :=
  py_sorted Nat.leb index (iter_chars str).

(** Lines 82-83. *)
Definition normalize_level (lm : gmap Z (list ascii)) (r : Z)
  : result (gmap Z (list ascii)) :=
  cur ← dict_get lm r; str ← normalize cur; Ok (<[r := str]> lm).

(** Line 48: [{r: "" for r in rate_levels}]. *)
Definition empty_letters (rate_levels : list Z) : gmap Z (list ascii) :=
  list_to_map ((λ r, (r, [])) <$> rate_levels).

(** Line 46: [sorted(rate_levels, key=lambda r: means_dict[r], reverse=True)]. *)
Definition sort_rates (means_dict : gmap Z Q) (rate_levels : list Z) : result (list Z) :=
  py_sorted (λ k1 k2, Qle_bool k2 k1) (dict_get means_dict) rate_levels.

Definition cld_from_tukey_iter (rate_levels : list Z) (means_dict : gmap Z Q)
  : result (gmap Z (list ascii)) :=
  sorted_rates ← sort_rates means_dict rate_levels;
  st ← pass1 (State [] (empty_letters rate_levels)) sorted_rates;
  lm ← pass2 rate_levels 0 (letter_sets st) (letters_map st);
  for_each normalize_level lm rate_levels.
End Algorithm.

(** The function with the iteration orders fixed: the members of a set in
    the order of [elements], the characters of a string in the order of
    their first occurrence. *)
Definition cld_from_tukey (rate_levels : list Z) (means_dict : gmap Z Q)
    (reject_pairs : gmap (Z * Z) bool) : result (gmap Z (list ascii)) :=
  cld_from_tukey_iter elements remove_dups reject_pairs rate_levels means_dict.


(** ** [sig_code] (lines 37-42) *)

(** A Python float: a finite value (every finite double is a rational),
    an infinity or NaN. *)
Inductive pyfloat : Type :=
  | Finite (q : Q)
  | PosInf
  | NegInf
  | NaN.

(** [x <= y] on floats: false as soon as one side is NaN. *)
Definition float_le (x y : pyfloat) : bool :=
  match x, y with
  | NaN, _ => false
  | _, NaN => false
  | NegInf, _ => true
  | _, PosInf => true
  | PosInf, _ => false
  | Finite _, NegInf => false
  | Finite a, Finite b => Qle_bool a b
  end.

(** The literals [0.01] and [0.05]: the doubles nearest to them, which
    are 5764607523034235 / 2^59 and 3602879701896397 / 2^56. *)
Definition lit_0_01 : pyfloat :=
  Finite (5764607523034235 # 576460752303423488).

Definition lit_0_05 : pyfloat :=
  Finite (3602879701896397 # 72057594037927936).

Definition sig_code (p : pyfloat) : list ascii :=
  if float_le p lit_0_01 then ["*"; "*"]%char
  else if float_le p lit_0_05 then ["*"]%char
  else ["n"; "s"]%char.

(** ** The letters of [main] (lines 140-156)

    What [main] computes for one indicator and one source once the
    Tukey test is made.  The results of the statistics library are the
    inputs: [groupsunique], the two arrays of [pairindices] and the
    array [reject]; the means of the rates are a function [mean_of], of
    finite values. *)

(** [zip(a, b, c)]: it stops with the shortest. *)
Fixpoint zip3 {A B C : Type} (a : list A) (b : list B) (c : list C)
  : list (A * B * C) :=
  match a, b, c with
  | x :: a', y :: b', z :: c' => (x, y, z) :: zip3 a' b' c'
  | _, _, _ => []
  end.

(** [int(tuk.groupsunique[i])], for an index [i >= 0]. *)
Definition group_at (groupsunique : list Z) (i : nat) : result Z :=
  match groupsunique !! i with
  | Some g => Ok g
  | None => Err IndexError
  end.

(** Lines 143-145: the body of the loop. *)
Definition record_pair (groupsunique : list Z)
    (reject_pairs : gmap (Z * Z) bool) (t : nat * nat * bool)
  : result (gmap (Z * Z) bool) :=
  g1 ← group_at groupsunique t.1.1;
  g2 ← group_at groupsunique t.1.2;
  Ok (<[(g1, g2) := t.2]> reject_pairs).

(** Lines 141-145. *)
Definition build_reject_pairs (groupsunique : list Z)
    (pairindices0 pairindices1 : list nat) (reject : list bool)
  : result (gmap (Z * Z) bool) :=
  for_each (record_pair groupsunique) ∅ (zip3 pairindices0 pairindices1 reject).

(** The rates, written out three times in lines 147-150. *)
Definition rates : list Z := [2; 4; 6; 8]%Z.

(** Line 147: [{r: float(...mean()) for r in [2, 4, 6, 8]}]. *)
Definition build_means (mean_of : Z → Q) : gmap Z Q :=
  list_to_map ((λ r, (r, mean_of r)) <$> rates).

(** A row of [tukey_letters]: indicator, rate, source and letters. *)
Record letter_row (I S : Type) : Type := LetterRow {
  row_indicator : I;
  row_rate : Z;
  row_source : S;
  row_letter : list ascii
}.
Arguments LetterRow {I S} _ _ _ _.
Arguments row_indicator {I S} _.
Arguments row_rate {I S} _.
Arguments row_source {I S} _.
Arguments row_letter {I S} _.

(** Lines 150-156: the rows appended for one indicator and one source. *)
Definition append_rows {I S : Type} (var : I) (src : S)
    (letters : gmap Z (list ascii)) (tukey_letters : list (letter_row I S))
  : result (list (letter_row I S)) :=
  for_each (λ rows r, letter ← dict_get letters r;
                      Ok (rows ++ [LetterRow var r src letter]))
    tukey_letters rates.

(** Lines 141-156. *)
Definition letters_step {I S : Type} (var : I) (src : S)
    (groupsunique : list Z) (pairindices0 pairindices1 : list nat)
    (reject : list bool) (mean_of : Z → Q)
    (tukey_letters : list (letter_row I S))
  : result (list (letter_row I S)) :=
  reject_pairs ← build_reject_pairs groupsunique pairindices0 pairindices1 reject;
  letters ← cld_from_tukey rates (build_means mean_of) reject_pairs;
  append_rows var src letters tukey_letters.

(** * The notions the properties are stated with *)

(** ** Sorting and the alphabet *)

(** Order of the pairs by their keys. *)
Definition key_le {K A : Type} (leb : K → K → bool) (p q : K * A) : Prop :=
  leb p.1 q.1 = true.

(** A lowercase letter: a character of [ascii_lowercase]. *)
Definition lowercase (c : ascii) : Prop := c ∈ ascii_lowercase.

(** [a] stands before [b] in the alphabet. *)
Definition alpha_lt (a b : ascii) : Prop :=
  ∃ i j, index a = Ok i ∧ index b = Ok j ∧ i < j.

(** A string of distinct lowercase letters in the order of the alphabet. *)
Definition normal (str : list ascii) : Prop :=
  Forall lowercase str ∧ StronglySorted alpha_lt str.

(** The letter of index [i] as a string, empty when there is none. *)
Definition letter_at (i : nat) : list ascii :=
  match ascii_lowercase !! i with
  | Some c => [c]
  | None => []
  end.

(** [a] has a mean at least as large as that of [b]. *)
Definition mean_ge (means_dict : gmap Z Q) (a b : Z) : Prop :=
  ∃ ka kb, means_dict !! a = Some ka ∧ means_dict !! b = Some kb ∧ (kb <= ka)%Q.

(** The mean of [r] equals [q]. *)
Definition same_mean (means_dict : gmap Z Q) (q : Q) (r : Z) : bool :=
  match means_dict !! r with
  | Some k => Qeq_bool k q
  | None => false
  end.

(** ** The recorded pairs *)

(** No result is recorded for the pair, under either order. *)
Definition unrecorded (reject_pairs : gmap (Z * Z) bool) (a b : Z) : Prop :=
  reject_pairs !! (a, b) = None ∧ reject_pairs !! (b, a) = None.

(** Whenever both orders of a pair are recorded, they hold the same flag:
    the recorded relation is one over unordered pairs. *)
Definition consistent (reject_pairs : gmap (Z * Z) bool) : Prop :=
  map_Forall (λ k v, default v (reject_pairs !! (k.2, k.1)) = v) reject_pairs.

#[global] Instance consistent_dec reject_pairs : Decision (consistent reject_pairs).
Proof. unfold consistent. apply _. Defined.

(** [R] holds of every two distinct members of [s]. *)
Definition pairwise (R : Z → Z → Prop) (s : gset Z) : Prop :=
  ∀ a b, a ∈ s → b ∈ s → a ≠ b → R a b.

(** The lookup says "not significant" for the pair, asked in one order
    at least: this is the check the loops make, of the level that joins
    against the members. *)
Definition checked (reject_pairs : gmap (Z * Z) bool) (a b : Z) : Prop :=
  significant reject_pairs a b = false ∨ significant reject_pairs b a = false.

(** The lookup says "not significant" for the pair as given. *)
Definition nonsig (reject_pairs : gmap (Z * Z) bool) (a b : Z) : Prop :=
  significant reject_pairs a b = false.

(** [a] and [b] are two of the levels: two entries of the input, equal
    only when the level stands twice in it. *)
Definition two_levels (levels : list Z) (a b : Z) : Prop := [a; b] ⊆+ levels.

(** ** The iteration orders *)

(** An iteration over a set yields its members, each once. *)
Definition iterates_levels (iter_levels : gset Z → list Z) : Prop :=
  ∀ s, iter_levels s ≡ₚ elements s.

(** [set(str)] yields the distinct characters of [str], each once. *)
Definition iterates_chars (iter_chars : list ascii → list ascii) : Prop :=
  ∀ str, iter_chars str ≡ₚ remove_dups str.

(** ** The first pass in closed form *)

Section FirstPassClosedForm.
Variable iter_levels : gset Z → list Z.
Variable reject_pairs : gmap (Z * Z) bool.

(** What the scan does to one group. *)
Definition join (r : Z) (s : gset Z) : gset Z :=
  if compatible iter_levels reject_pairs r s then s ∪ {[r]} else s.

(** Some group accepts [r]. *)
Definition accepts (r : Z) (sets : list (gset Z)) : bool :=
  existsb (compatible iter_levels reject_pairs r) sets.

(** The letters of the groups that accept [r], the first group having
    index [i]. *)
Fixpoint accepted (r : Z) (i : nat) (sets : list (gset Z)) : list ascii :=
  match sets with
  | [] => []
  | s :: rest =>
      (if compatible iter_levels reject_pairs r s then letter_at i else [])
      ++ accepted r (S i) rest
  end.

(** The groups and the new letters of [r] when the body of the first
    loop has run for [r]. *)
Definition placed_sets (r : Z) (sets : list (gset Z)) : list (gset Z) :=
  (join r <$> sets) ++ (if accepts r sets then [] else [{[r]}]).

Definition placed_letters (r : Z) (sets : list (gset Z)) : list ascii :=
  if accepts r sets then accepted r 0 sets else letter_at (length sets).

End FirstPassClosedForm.

(** ** Invariants *)

(** The invariant of the first loop: [levels] are the input levels and
    [seen] the levels the loop has run for, in order.  The keys of the
    map are the levels; there are no more groups than levels seen, and 26
    at most; the members of the groups are levels seen; every letter of a
    string is that of a group; and every level seen has a letter. *)
Record pass1_inv (levels seen : list Z) (st : state) : Prop := {
  inv_keys : ∀ r, is_Some (letters_map st !! r) ↔ r ∈ levels;
  inv_count : length (letter_sets st) ≤ length seen;
  inv_bound : length (letter_sets st) ≤ 26;
  inv_members : ∀ s r, s ∈ letter_sets st → r ∈ s → r ∈ seen;
  inv_letters : ∀ r str c, letters_map st !! r = Some str → c ∈ str →
    ∃ i, i < length (letter_sets st) ∧ getitem i = Ok c;
  inv_placed : ∀ r, r ∈ seen →
    ∃ str, letters_map st !! r = Some str ∧ str ≠ []
}.

(** What the second pass and the final loop keep of the map: its keys
    are the levels, every letter is that of one of the [n] groups, and
    no string is empty. *)
Record letters_inv (levels : list Z) (n : nat) (lm : gmap Z (list ascii)) : Prop := {
  li_keys : ∀ r, is_Some (lm !! r) ↔ r ∈ levels;
  li_letters : ∀ r str c, lm !! r = Some str → c ∈ str →
    ∃ i, i < n ∧ getitem i = Ok c;
  li_nonempty : ∀ r str, lm !! r = Some str → str ≠ []
}.

(** The final loop has run for [seen]: the strings of these levels are
    normal. *)
Definition final_inv (levels : list Z) (n : nat) (seen : list Z)
    (lm : gmap Z (list ascii)) : Prop :=
  letters_inv levels n lm
  ∧ ∀ r, r ∈ seen → ∃ str, lm !! r = Some str ∧ normal str.

(** Every level that holds the letter of a group is a member of it. *)
Definition members_hold (sets : list (gset Z)) (lm : gmap Z (list ascii)) : Prop :=
  ∀ i s c r str, sets !! i = Some s → getitem i = Ok c →
    lm !! r = Some str → c ∈ str → r ∈ s.

(** Every level that holds the letter of a group is a member of it or
    passes the check against its members. *)
Definition holders_checked (reject_pairs : gmap (Z * Z) bool)
    (sets : list (gset Z)) (lm : gmap Z (list ascii)) : Prop :=
  ∀ i s c r str, sets !! i = Some s → getitem i = Ok c →
    lm !! r = Some str → c ∈ str →
    r ∈ s ∨ compatible elements reject_pairs r s = true.

(** Every member of a group holds the letter of the group. *)
Definition members_have (sets : list (gset Z)) (lm : gmap Z (list ascii)) : Prop :=
  ∀ i s c r, sets !! i = Some s → getitem i = Ok c → r ∈ s →
    ∃ str, lm !! r = Some str ∧ c ∈ str.

(** The letters of [lm] are letters of [lm']: no level has lost one. *)
Definition grows (lm lm' : gmap Z (list ascii)) : Prop :=
  ∀ r str c, lm !! r = Some str → c ∈ str →
    ∃ str', lm' !! r = Some str' ∧ c ∈ str'.

(** No group is empty, and the first level seen is in the first group. *)
Definition founded (seen : list Z) (sets : list (gset Z)) : Prop :=
  Forall (λ s : gset Z, s ≠ ∅) sets
  ∧ ∀ x, head seen = Some x → ∃ s0, sets !! 0 = Some s0 ∧ x ∈ s0.

(** [a] stands before [b] in the list [l]. *)
Definition before (l : list Z) (a b : Z) : Prop :=
  ∃ i j, i < j ∧ l !! i = Some a ∧ l !! j = Some b.

(** A level seen that is not a member of a group was refused by a
    member, or was seen before every member. *)
Definition refused_or_earlier (reject_pairs : gmap (Z * Z) bool)
    (sorted seen : list Z) (sets : list (gset Z)) : Prop :=
  ∀ s r, s ∈ sets → r ∈ seen → r ∉ s →
    (∃ rr, rr ∈ s ∧ significant reject_pairs r rr = true)
    ∨ (∀ rr, rr ∈ s → before sorted r rr).

(** ** Inputs of the examples *)

(** Four levels of decreasing means; only the pairs (2, 4) and (6, 8)
    are significantly different. *)
Definition ex_levels : list Z := [2; 4; 6; 8]%Z.

Definition ex_means : gmap Z Q :=
  list_to_map [(2%Z, 10%Q); (4%Z, 9%Q); (6%Z, 8%Q); (8%Z, 7%Q)].

Definition ex_reject : gmap (Z * Z) bool :=
  list_to_map [((2, 4)%Z, true); ((2, 6)%Z, false); ((2, 8)%Z, false);
               ((4, 6)%Z, false); ((4, 8)%Z, false); ((6, 8)%Z, true)].

(** The same with the pairs that are not significant left out. *)
Definition ex_reject_sparse : gmap (Z * Z) bool :=
  list_to_map [((2, 4)%Z, true); ((6, 8)%Z, true)].

(** The letters the function returns on the example. *)
Definition ex_letters : gmap Z (list ascii) :=
  list_to_map [(2%Z, ["a"; "c"]%char); (4%Z, ["b"; "c"]%char);
               (6%Z, ["a"; "b"]%char); (8%Z, ["c"]%char)].

(** Means 10, 8, 6, 4 and the pairs whose means differ by more than 3
    significantly different. *)
Definition gap_means : gmap Z Q :=
  list_to_map [(2%Z, 10%Q); (4%Z, 8%Q); (6%Z, 6%Q); (8%Z, 4%Q)].

Definition gap_reject : gmap (Z * Z) bool :=
  list_to_map [((2, 4)%Z, false); ((2, 6)%Z, true); ((2, 8)%Z, true);
               ((4, 6)%Z, false); ((4, 8)%Z, true); ((6, 8)%Z, false)].

Definition gap_letters : gmap Z (list ascii) :=
  list_to_map [(2%Z, ["a"]%char); (4%Z, ["a"]%char);
               (6%Z, ["b"]%char); (8%Z, ["b"]%char)].

(** The first pass has run for 2 and 4, each alone in its group. *)
Definition ex_state_2_4 : state :=
  State [{[2%Z]}; {[4%Z]}]
    (list_to_map [(2%Z, ["a"]%char); (4%Z, ["b"]%char); (6%Z, []); (8%Z, [])]).

(** Twenty-seven levels, 0 to 26, of equal means; every two of them are
    significantly different. *)
Definition many_levels : list Z := Z.of_nat <$> seq 0 27.

Definition many_means : gmap Z Q := list_to_map ((λ r, (r, 1%Q)) <$> many_levels).

(** The pairs of a list, each once, the earlier element first. *)
Fixpoint pairs_of (l : list Z) : list (Z * Z) :=
  match l with
  | [] => []
  | x :: l' => ((λ y, (x, y)) <$> l') ++ pairs_of l'
  end.

Definition many_reject : gmap (Z * Z) bool :=
  list_to_map ((λ p, (p, true)) <$> pairs_of many_levels).

(** * Properties *)

(** ** The error monad *)

Lemma bind_Ok {A B : Type} (f : A → result B) (m : result A) (b : B) :
  m ≫= f = Ok b ↔ ∃ a, m = Ok a ∧ f a = Ok b.
Proof.
  destruct m as [a|e]; simpl; split.
  - intros Hf. by exists a.
  - by intros (a' & [= <-] & Hf).
  - done.
  - by intros (a' & [=] & _).
Qed.

Ltac inv_bind H :=
  repeat match type of H with
  | _ ≫= _ = Ok _ =>
      let x := fresh "x" in
      let Hx := fresh "Hx" in
      apply bind_Ok in H as (x & Hx & H)
  end.

Section ForEach.
Context {A S : Type} (body : S → A → result S).

(** A property that every iteration keeps holds when the loop ends. *)
Lemma for_each_inv (P : S → Prop) (l : list A) (st st' : S) :
  (∀ s x s', x ∈ l → P s → body s x = Ok s' → P s') →
  P st → for_each body st l = Ok st' → P st'.
Proof.
  revert st. induction l as [|x l IH]; intros st Hstep HP Hrun; simpl in Hrun.
  - by simplify_eq.
  - inv_bind Hrun. apply (IH x0).
    + intros s y s' Hy. apply Hstep. by right.
    + apply (Hstep st x); [by left | done | done].
    + done.
Qed.

(** A loop whose body returns under an invariant returns. *)
Lemma for_each_total (P : S → Prop) (l : list A) (st : S) :
  (∀ s x, x ∈ l → P s → ∃ s', body s x = Ok s' ∧ P s') →
  P st → ∃ st', for_each body st l = Ok st' ∧ P st'.
Proof.
  revert st. induction l as [|x l IH]; intros st Hstep HP; simpl.
  - by exists st.
  - destruct (Hstep st x) as (s' & -> & HP'); [by left | done |]. simpl.
    apply IH; [|done]. intros s y Hy. apply Hstep. by right.
Qed.

(** The same with the position in the list: [P seen s] speaks of the
    state [s] reached when the loop has run for the elements [seen]. *)
Lemma for_each_inv_from (P : list A → S → Prop) (l seen : list A) (st st' : S) :
  (∀ l1 x l2 s s', l = l1 ++ x :: l2 →
     P (seen ++ l1) s → body s x = Ok s' → P (seen ++ l1 ++ [x]) s') →
  P seen st → for_each body st l = Ok st' → P (seen ++ l) st'.
Proof.
  revert seen st. induction l as [|x l IH]; intros seen st Hstep HP Hrun;
    simpl in Hrun.
  - simplify_eq. by rewrite app_nil_r.
  - inv_bind Hrun. rewrite (cons_middle x), app_assoc. apply (IH _ x0).
    + intros l1 y l2 s s' -> Hs Hy. rewrite <- !app_assoc in *.
      by apply (Hstep ([x] ++ l1) y l2 s s').
    + apply (Hstep [] x l st x0); [done | by rewrite app_nil_r | done].
    + done.
Qed.

Lemma for_each_inv_seen (P : list A → S → Prop) (l : list A) (st st' : S) :
  (∀ l1 x l2 s s', l = l1 ++ x :: l2 →
     P l1 s → body s x = Ok s' → P (l1 ++ [x]) s') →
  P [] st → for_each body st l = Ok st' → P l st'.
Proof. intros Hstep. by apply (for_each_inv_from P l []). Qed.

Lemma for_each_total_from (P : list A → S → Prop) (l seen : list A) (st : S) :
  (∀ l1 x l2 s, l = l1 ++ x :: l2 →
     P (seen ++ l1) s → ∃ s', body s x = Ok s' ∧ P (seen ++ l1 ++ [x]) s') →
  P seen st → ∃ st', for_each body st l = Ok st' ∧ P (seen ++ l) st'.
Proof.
  revert seen st. induction l as [|x l IH]; intros seen st Hstep HP; simpl.
  - exists st. by rewrite app_nil_r.
  - destruct (Hstep [] x l st) as (s' & -> & HP');
      [done | by rewrite app_nil_r |]. simpl.
    rewrite (cons_middle x), app_assoc. apply IH; [|done].
    intros l1 y l2 s -> Hs. rewrite <- !app_assoc in *.
    by apply (Hstep ([x] ++ l1) y l2 s).
Qed.

Lemma for_each_total_seen (P : list A → S → Prop) (l : list A) (st : S) :
  (∀ l1 x l2 s, l = l1 ++ x :: l2 →
     P l1 s → ∃ s', body s x = Ok s' ∧ P (l1 ++ [x]) s') →
  P [] st → ∃ st', for_each body st l = Ok st' ∧ P l st'.
Proof. intros Hstep. by apply (for_each_total_from P l []). Qed.
End ForEach.

(** ** [ascii_lowercase] *)

Lemma ascii_lowercase_length : length ascii_lowercase = 26.
Proof. reflexivity. Qed.

Lemma ascii_lowercase_NoDup : NoDup ascii_lowercase.
Proof. by apply (bool_decide_unpack _); vm_compute. Qed.

Lemma getitem_Ok (i : nat) (c : ascii) :
  getitem i = Ok c ↔ ascii_lowercase !! i = Some c.
Proof. unfold getitem. destruct (ascii_lowercase !! i); naive_solver. Qed.

Lemma getitem_lt (i : nat) : i < 26 → ∃ c, getitem i = Ok c.
Proof.
  intros Hi. destruct (lookup_lt_is_Some_2 ascii_lowercase i) as [c Hc].
  - by rewrite ascii_lowercase_length.
  - exists c. by apply getitem_Ok.
Qed.

Lemma getitem_bound (i : nat) (c : ascii) : getitem i = Ok c → i < 26.
Proof.
  intros Hc%getitem_Ok. apply lookup_lt_Some in Hc.
  by rewrite ascii_lowercase_length in Hc.
Qed.

Lemma find_index_lookup (x : ascii) (l : list ascii) (i : nat) :
  find_index x l = Some i → l !! i = Some x.
Proof.
  revert i. induction l as [|y l IH]; intros i; simpl; [done|].
  case_decide as Hxy.
  - by intros [= <-]; subst.
  - destruct (find_index x l) as [j|]; simpl; [|done].
    intros [= <-]. by apply IH.
Qed.

Lemma find_index_NoDup (l : list ascii) (i : nat) (x : ascii) :
  NoDup l → l !! i = Some x → find_index x l = Some i.
Proof.
  intros Hnd. revert i. induction Hnd as [|y l Hy Hnd IH]; intros i; [done|].
  destruct i as [|i]; simpl.
  - intros [= ->]. by rewrite decide_True.
  - intros Hi. rewrite decide_False.
    + by rewrite (IH i Hi).
    + intros ->. apply Hy. by eapply list_elem_of_lookup_2.
Qed.

Lemma index_Ok (x : ascii) (i : nat) :
  index x = Ok i ↔ ascii_lowercase !! i = Some x.
Proof.
  unfold index. split.
  - destruct (find_index x ascii_lowercase) as [j|] eqn:Hj; [|done].
    intros [= <-]. by apply find_index_lookup.
  - intros Hi. by rewrite (find_index_NoDup _ i x ascii_lowercase_NoDup Hi).
Qed.

(** [index] inverts [getitem]. *)
Lemma index_getitem (x : ascii) (i : nat) : index x = Ok i ↔ getitem i = Ok x.
Proof. by rewrite index_Ok, getitem_Ok. Qed.

(** [index] only raises [ValueError]. *)
Lemma index_Err (x : ascii) (e : error) : index x = Err e → e = ValueError.
Proof. unfold index. destruct (find_index x ascii_lowercase); naive_solver. Qed.

Lemma index_inj (x y : ascii) (i : nat) : index x = Ok i → index y = Ok i → x = y.
Proof. rewrite !index_Ok. congruence. Qed.

Lemma lowercase_index (c : ascii) : lowercase c ↔ ∃ i, index c = Ok i.
Proof.
  unfold lowercase. rewrite list_elem_of_lookup.
  split; intros [i Hi]; exists i; by apply index_Ok.
Qed.

(** ** [sorted]: a stable sort *)

Section SortedFacts.
Context {K A : Type} (leb : K → K → bool).
Hypothesis leb_total : ∀ k1 k2, leb k1 k2 = true ∨ leb k2 k1 = true.
Hypothesis leb_trans : ∀ k1 k2 k3,
  leb k1 k2 = true → leb k2 k3 = true → leb k1 k3 = true.

Lemma insert_by_perm (x : K * A) (l : list (K * A)) :
  insert_by leb x l ≡ₚ x :: l.
Proof.
  induction l as [|y l IH]; simpl; [done|].
  destruct (leb x.1 y.1); [done|]. rewrite IH. apply Permutation_swap.
Qed.

Lemma sort_pairs_perm (l : list (K * A)) : sort_pairs leb l ≡ₚ l.
Proof.
  induction l as [|x l IH]; simpl; [done|].
  by rewrite insert_by_perm, IH.
Qed.

Lemma insert_by_sorted (x : K * A) (l : list (K * A)) :
  StronglySorted (key_le leb) l → StronglySorted (key_le leb) (insert_by leb x l).
Proof.
  induction 1 as [|y l Hl IH Hy]; simpl.
  - repeat constructor.
  - destruct (leb x.1 y.1) eqn:Hxy.
    + constructor; [by constructor|]. constructor; [done|].
      eapply Forall_impl; [exact Hy|]. intros z Hz. by eapply leb_trans.
    + constructor; [done|]. rewrite insert_by_perm. constructor; [|done].
      destruct (leb_total x.1 y.1); [congruence | done].
Qed.

Lemma sort_pairs_sorted (l : list (K * A)) :
  StronglySorted (key_le leb) (sort_pairs leb l).
Proof.
  induction l as [|x l IH]; simpl; [constructor | by apply insert_by_sorted].
Qed.

(** Stability: pairs whose keys are equivalent keep their input order. *)
Lemma insert_by_stable (same : K * A → bool) (x : K * A) (l : list (K * A)) :
  (∀ p q, same p = true → same q = true → leb p.1 q.1 = true) →
  filter (λ p, same p = true) (insert_by leb x l)
  = filter (λ p, same p = true) (x :: l).
Proof.
  intros Hsame. induction l as [|y l IH]; simpl; [done|].
  destruct (leb x.1 y.1) eqn:Hxy; [done|].
  rewrite (filter_cons _ y (insert_by _ _ _)), IH, !(filter_cons _ x), !(filter_cons _ y).
  destruct (decide (same x = true)) as [Hx|Hx],
    (decide (same y = true)) as [Hy|Hy]; try done.
  specialize (Hsame x y Hx Hy). congruence.
Qed.

Lemma sort_pairs_stable (same : K * A → bool) (l : list (K * A)) :
  (∀ p q, same p = true → same q = true → leb p.1 q.1 = true) →
  filter (λ p, same p = true) (sort_pairs leb l) = filter (λ p, same p = true) l.
Proof.
  intros Hsame. induction l as [|x l IH]; simpl; [done|].
  rewrite insert_by_stable by done. by rewrite !filter_cons, IH.
Qed.

(** The keys are those of the key function. *)
Lemma with_keys_Ok (key : A → result K) (l : list A) (kl : list (K * A)) :
  with_keys key l = Ok kl ↔ Forall2 (λ x p, key x = Ok p.1 ∧ p.2 = x) l kl.
Proof.
  revert kl. induction l as [|x l IH]; intros kl; simpl.
  - split; [intros [= <-]; constructor | by inversion 1].
  - split.
    + intros H. inv_bind H. simplify_eq. constructor; [done|]. by apply IH.
    + inversion 1 as [|? p ? kl' [Hk Hp] Hrest]; simplify_eq.
      rewrite Hk. simpl. apply IH in Hrest. rewrite Hrest. simpl.
      by destruct p.
Qed.

Lemma with_keys_snd (key : A → result K) (l : list A) (kl : list (K * A)) :
  with_keys key l = Ok kl → kl.*2 = l.
Proof.
  rewrite with_keys_Ok. induction 1 as [|x p l kl [_ Hp] _ IH]; [done|].
  rewrite fmap_cons. congruence.
Qed.

Lemma with_keys_total (key : A → result K) (l : list A) :
  (∀ x, x ∈ l → ∃ k, key x = Ok k) → ∃ kl, with_keys key l = Ok kl.
Proof.
  induction l as [|x l IH]; intros Hl; simpl; [by eexists|].
  destruct (Hl x) as [k ->]; [by left|].
  destruct IH as [kl ->]; [|by eexists].
  intros y Hy. apply Hl. by right.
Qed.

(** When the key function raises one exception only, this is what a
    call raises as soon as the key of some element does. *)
Lemma with_keys_Err (key : A → result K) (e0 : error) (l : list A) (x : A) :
  (∀ y e, key y = Err e → e = e0) →
  x ∈ l → key x = Err e0 → with_keys key l = Err e0.
Proof.
  intros Hone Hx Hkey. induction l as [|y l IH]; [by inversion Hx|]. simpl.
  destruct (key y) as [k|e] eqn:Hy; simpl.
  - apply elem_of_cons in Hx as [->|Hx]; [congruence|].
    by rewrite (IH Hx).
  - f_equal. by eapply Hone.
Qed.

Lemma py_sorted_Ok (key : A → result K) (l l' : list A) :
  py_sorted leb key l = Ok l' ↔
  ∃ kl, with_keys key l = Ok kl ∧ l' = (sort_pairs leb kl).*2.
Proof.
  unfold py_sorted. rewrite bind_Ok.
  split; intros (kl & Hkl & Heq); exists kl; (split; [done|]);
    [by injection Heq | by rewrite Heq].
Qed.

Lemma py_sorted_perm (key : A → result K) (l l' : list A) :
  py_sorted leb key l = Ok l' → l' ≡ₚ l.
Proof.
  intros (kl & Hkl & ->)%py_sorted_Ok.
  by rewrite sort_pairs_perm, (with_keys_snd _ _ _ Hkl).
Qed.

Lemma py_sorted_total (key : A → result K) (l : list A) :
  (∀ x, x ∈ l → ∃ k, key x = Ok k) → ∃ l', py_sorted leb key l = Ok l'.
Proof.
  intros [kl Hkl]%with_keys_total. unfold py_sorted. rewrite Hkl. by eexists.
Qed.
End SortedFacts.

(** ** The significance lookup *)

Lemma significant_recorded reject_pairs (a b : Z) (v : bool) :
  reject_pairs !! (a, b) = Some v → significant reject_pairs a b = v.
Proof.
  intros Hab. unfold significant, pair_key.
  rewrite decide_True by (by rewrite Hab). by rewrite Hab.
Qed.

Lemma significant_reverse reject_pairs (a b : Z) :
  reject_pairs !! (a, b) = None →
  significant reject_pairs a b = default false (reject_pairs !! (b, a)).
Proof.
  intros Hab. unfold significant, pair_key.
  rewrite decide_False; [done|]. rewrite Hab. by intros [? [=]].
Qed.

Lemma significant_unrecorded reject_pairs (a b : Z) :
  unrecorded reject_pairs a b → significant reject_pairs a b = false.
Proof. intros [Hab Hba]. by rewrite significant_reverse, Hba. Qed.

Lemma unrecorded_sym reject_pairs (a b : Z) :
  unrecorded reject_pairs a b → unrecorded reject_pairs b a.
Proof. by intros [? ?]. Qed.

(** Over a consistent record the lookup is symmetric. *)
Lemma significant_sym reject_pairs (a b : Z) :
  consistent reject_pairs →
  significant reject_pairs a b = significant reject_pairs b a.
Proof.
  intros Hc.
  destruct (reject_pairs !! (a, b)) as [v|] eqn:Hab,
           (reject_pairs !! (b, a)) as [w|] eqn:Hba.
  - rewrite (significant_recorded _ _ _ _ Hab), (significant_recorded _ _ _ _ Hba).
    specialize (Hc (a, b) v Hab). simpl in Hc. by rewrite Hba in Hc.
  - rewrite (significant_recorded _ _ _ _ Hab).
    by rewrite (significant_reverse _ _ _ Hba), Hab.
  - rewrite (significant_recorded _ _ _ _ Hba).
    by rewrite (significant_reverse _ _ _ Hab), Hba.
  - by rewrite !significant_unrecorded.
Qed.

(** A record that holds each pair under one order at most is consistent;
    this is how [main] fills [reject_pairs]. *)
Lemma one_order_consistent reject_pairs :
  (∀ a b, is_Some (reject_pairs !! (a, b)) → a ≠ b ∧ reject_pairs !! (b, a) = None) →
  consistent reject_pairs.
Proof.
  intros Hone [a b] v Hab. simpl.
  destruct (Hone a b) as [_ ->]; by rewrite ?Hab.
Qed.

(** Recording a pair under [(a, b)] or under [(b, a)] is the same to the
    lookup, whatever the order of its arguments. *)
Lemma significant_insert_swap reject_pairs (a b : Z) (v : bool) (x y : Z) :
  unrecorded reject_pairs a b →
  significant (<[(a, b) := v]> reject_pairs) x y
  = significant (<[(b, a) := v]> reject_pairs) x y.
Proof.
  intros [Hab Hba].
  destruct (decide ((x, y) = (a, b))) as [[= -> ->]|Hxy1].
  { rewrite (significant_recorded _ a b v) by apply lookup_insert_eq.
    destruct (decide (a = b)) as [->|Hne].
    - by rewrite (significant_recorded _ b b v) by apply lookup_insert_eq.
    - rewrite significant_reverse, lookup_insert_eq; [done|].
      rewrite lookup_insert_ne; [done | congruence]. }
  destruct (decide ((x, y) = (b, a))) as [[= -> ->]|Hxy2].
  { rewrite (significant_recorded _ b a v (lookup_insert_eq _ _ _)).
    rewrite significant_reverse, lookup_insert_eq; [done|].
    by rewrite lookup_insert_ne. }
  destruct (reject_pairs !! (x, y)) as [w|] eqn:Hw.
  { rewrite !(significant_recorded _ x y w); [done| |];
      by rewrite lookup_insert_ne. }
  rewrite !significant_reverse by (by rewrite lookup_insert_ne).
  rewrite !lookup_insert_ne; [done| |]; congruence.
Qed.

Lemma ok_loop_true reject_pairs (r : Z) (members : list Z) :
  ok_loop reject_pairs r members = true ↔
  ∀ rr, rr ∈ members → significant reject_pairs r rr = false.
Proof.
  induction members as [|rr l IH]; simpl.
  - split; [by intros _ ? ?%elem_of_nil | done].
  - destruct (significant reject_pairs r rr) eqn:Hs.
    + split; [done|]. intros H. rewrite <- Hs. symmetry. apply H. by left.
    + rewrite IH. split.
      * intros H x [->|Hx]%elem_of_cons; auto.
      * intros H x Hx. apply H. by right.
Qed.

(** The outcome of the check does not depend on the iteration order. *)
Lemma ok_loop_perm reject_pairs (r : Z) (l1 l2 : list Z) :
  l1 ≡ₚ l2 → ok_loop reject_pairs r l1 = ok_loop reject_pairs r l2.
Proof.
  intros Hp. apply eq_true_iff_eq. rewrite !ok_loop_true.
  by setoid_rewrite Hp.
Qed.

(** ** The first pass in closed form *)

Lemma letter_at_getitem (i : nat) (c : ascii) : getitem i = Ok c → letter_at i = [c].
Proof. intros Hc%getitem_Ok. unfold letter_at. by rewrite Hc. Qed.

Lemma append_letter_Ok (lm : gmap Z (list ascii)) (r : Z) (c : ascii) (cur : list ascii) :
  lm !! r = Some cur → append_letter lm r c = Ok (<[r := cur ++ [c]]> lm).
Proof. intros Hr. unfold append_letter, dict_get. by rewrite Hr. Qed.

Lemma append_letter_at_Ok (lm : gmap Z (list ascii)) (r : Z) (i : nat)
    (c : ascii) (cur : list ascii) :
  lm !! r = Some cur → getitem i = Ok c →
  append_letter_at lm r i = Ok (<[r := cur ++ [c]]> lm).
Proof. intros Hr Hi. unfold append_letter_at, dict_get. by rewrite Hr, Hi. Qed.

Lemma elements_iterates : iterates_levels elements.
Proof. by intros s. Qed.

Lemma remove_dups_iterates : iterates_chars remove_dups.
Proof. by intros s. Qed.

Section FirstPass.
Variable iter_levels : gset Z → list Z.
Variable reject_pairs : gmap (Z * Z) bool.
Hypothesis iter_levels_ok : iterates_levels iter_levels.

Lemma compatible_true (r : Z) (s : gset Z) :
  compatible iter_levels reject_pairs r s = true ↔
  ∀ rr, rr ∈ s → significant reject_pairs r rr = false.
Proof.
  unfold compatible. rewrite ok_loop_true.
  setoid_rewrite (iter_levels_ok s). by setoid_rewrite elem_of_elements.
Qed.

Lemma accepted_none (r : Z) (sets : list (gset Z)) (i : nat) :
  accepts iter_levels reject_pairs r sets = false →
  accepted iter_levels reject_pairs r i sets = [].
Proof.
  revert i. induction sets as [|s rest IH]; intros i; simpl; [done|].
  intros [-> Hrest]%orb_false_iff. by rewrite (IH _ Hrest).
Qed.

Lemma scan_groups_eq (r : Z) (sets : list (gset Z)) :
  ∀ (i : nat) (lm : gmap Z (list ascii)) (placed : bool) (cur : list ascii),
  lm !! r = Some cur → i + length sets ≤ 26 →
  scan_groups iter_levels reject_pairs r i sets lm placed
  = Ok (join iter_levels reject_pairs r <$> sets,
        <[r := cur ++ accepted iter_levels reject_pairs r i sets]> lm,
        placed || accepts iter_levels reject_pairs r sets).
Proof.
  induction sets as [|s rest IH]; intros i lm placed cur Hr Hlen; simpl.
  - by rewrite app_nil_r, insert_id, orb_false_r.
  - simpl in Hlen. unfold join at 1.
    destruct (compatible iter_levels reject_pairs r s) eqn:Hc.
    + destruct (getitem_lt i) as [c Hi]; [lia|].
      rewrite (letter_at_getitem _ _ Hi).
      rewrite (append_letter_at_Ok _ _ _ _ _ Hr Hi). simpl.
      rewrite (IH (S i) _ true (cur ++ [c])); [|apply lookup_insert_eq | lia].
      simpl. by rewrite insert_insert_eq, <- app_assoc, orb_true_r.
    + rewrite (IH (S i) lm placed cur Hr); [|lia]. by simpl.
Qed.

Lemma placed_sets_length (r : Z) (sets : list (gset Z)) :
  length (placed_sets iter_levels reject_pairs r sets)
  = length sets + (if accepts iter_levels reject_pairs r sets then 0 else 1).
Proof.
  unfold placed_sets. rewrite length_app, length_fmap.
  by destruct (accepts iter_levels reject_pairs r sets).
Qed.

Lemma place_eq (r : Z) (sets : list (gset Z)) (lm : gmap Z (list ascii))
    (cur : list ascii) :
  lm !! r = Some cur → length (placed_sets iter_levels reject_pairs r sets) ≤ 26 →
  place iter_levels reject_pairs (State sets lm) r
  = Ok (State (placed_sets iter_levels reject_pairs r sets)
          (<[r := cur ++ placed_letters iter_levels reject_pairs r sets]> lm)).
Proof.
  rewrite placed_sets_length. intros Hr Hlen.
  unfold place, placed_sets, placed_letters. simpl.
  rewrite (scan_groups_eq r sets 0 lm false cur Hr) by lia. simpl.
  destruct (accepts iter_levels reject_pairs r sets) eqn:Hacc; [by rewrite app_nil_r|].
  rewrite length_app, length_fmap. simpl.
  replace (length sets + 1 - 1) with (length sets) by lia.
  destruct (getitem_lt (length sets)) as [c Hc]; [lia|].
  rewrite (letter_at_getitem _ _ Hc).
  rewrite (accepted_none _ _ _ Hacc), app_nil_r, insert_id by done.
  by rewrite (append_letter_at_Ok _ _ _ _ _ Hr Hc).
Qed.

(** A step that returns leaves at most 26 groups. *)
Lemma place_Ok_bound (r : Z) (sets : list (gset Z)) (lm : gmap Z (list ascii))
    (cur : list ascii) (st' : state) :
  lm !! r = Some cur → length sets ≤ 26 →
  place iter_levels reject_pairs (State sets lm) r = Ok st' →
  length (placed_sets iter_levels reject_pairs r sets) ≤ 26.
Proof.
  intros Hr Hlen. rewrite placed_sets_length. unfold place. simpl.
  rewrite (scan_groups_eq r sets 0 lm false cur Hr) by lia. simpl.
  destruct (accepts iter_levels reject_pairs r sets); [lia|].
  rewrite length_app, length_fmap. simpl.
  replace (length sets + 1 - 1) with (length sets) by lia.
  destruct (getitem (length sets)) as [c|e] eqn:Hc;
    [apply getitem_bound in Hc; lia|].
  unfold append_letter_at, dict_get. rewrite lookup_insert_eq. simpl.
  by rewrite Hc.
Qed.

Lemma elem_of_placed_sets (r : Z) (sets : list (gset Z)) (s' : gset Z) :
  s' ∈ placed_sets iter_levels reject_pairs r sets →
  (∃ s, s ∈ sets ∧ s' = join iter_levels reject_pairs r s) ∨ s' = {[r]}.
Proof.
  unfold placed_sets. rewrite elem_of_app, list_elem_of_fmap.
  intros [(s & -> & Hs)|Hnew]; [left; by exists s|].
  destruct (accepts iter_levels reject_pairs r sets); [by apply elem_of_nil in Hnew|].
  right. by apply list_elem_of_singleton in Hnew.
Qed.

Lemma elem_of_accepted (r : Z) (sets : list (gset Z)) (c : ascii) :
  ∀ i, c ∈ accepted iter_levels reject_pairs r i sets ↔
    ∃ j s, sets !! j = Some s
      ∧ compatible iter_levels reject_pairs r s = true
      ∧ getitem (i + j) = Ok c.
Proof.
  induction sets as [|s rest IH]; intros i; simpl.
  - split; [by intros ?%elem_of_nil | by intros (j & s & [=] & _)].
  - rewrite elem_of_app, (IH (S i)). split.
    + intros [Hc|(j & s' & Hj & Hs' & Hget)].
      * destruct (compatible iter_levels reject_pairs r s) eqn:Hs;
          [|by apply elem_of_nil in Hc].
        exists 0, s. rewrite Nat.add_0_r. split_and!; [done..|].
        apply getitem_Ok. unfold letter_at in Hc.
        destruct (ascii_lowercase !! i); [|by apply elem_of_nil in Hc].
        by apply list_elem_of_singleton in Hc as ->.
      * exists (S j), s'. by rewrite Nat.add_succ_r.
    + intros ([|j] & s' & Hj & Hs' & Hget); simpl in Hj.
      * left. simplify_eq. rewrite Hs'. rewrite Nat.add_0_r in Hget.
        rewrite (letter_at_getitem _ _ Hget). by apply list_elem_of_singleton.
      * right. exists j, s'. by rewrite Nat.add_succ_r in Hget.
Qed.

(** The new letters are letters of the groups the step leaves. *)
Lemma placed_letters_bound (r : Z) (sets : list (gset Z)) (c : ascii) :
  c ∈ placed_letters iter_levels reject_pairs r sets →
  ∃ i, i < length (placed_sets iter_levels reject_pairs r sets) ∧ getitem i = Ok c.
Proof.
  rewrite placed_sets_length. unfold placed_letters.
  destruct (accepts iter_levels reject_pairs r sets).
  - intros (j & s & Hj & _ & Hc)%elem_of_accepted.
    exists j. apply lookup_lt_Some in Hj. split; [lia | done].
  - unfold letter_at. destruct (ascii_lowercase !! length sets) as [c'|] eqn:Hc';
      [|by intros ?%elem_of_nil].
    intros ->%list_elem_of_singleton. exists (length sets).
    split; [lia | by apply getitem_Ok].
Qed.

(** A step gives [r] one letter at least. *)
Lemma placed_letters_nonempty (r : Z) (sets : list (gset Z)) :
  length (placed_sets iter_levels reject_pairs r sets) ≤ 26 →
  placed_letters iter_levels reject_pairs r sets ≠ [].
Proof.
  rewrite placed_sets_length. unfold placed_letters, accepts.
  destruct (existsb _ sets) eqn:Hacc; intros Hlen.
  - apply existsb_exists in Hacc as (s & Hs & Hc).
    apply list_elem_of_In, list_elem_of_lookup in Hs as [j Hj].
    destruct (getitem_lt j) as [c Hget].
    { apply lookup_lt_Some in Hj. lia. }
    intros Hnil. assert (c ∈ accepted iter_levels reject_pairs r 0 sets) as Hin.
    { apply elem_of_accepted. by exists j, s. }
    rewrite Hnil in Hin. by apply elem_of_nil in Hin.
  - destruct (getitem_lt (length sets)) as [c Hget]; [lia|].
    by rewrite (letter_at_getitem _ _ Hget).
Qed.

(** *** The groups are pairwise not significantly different *)

Section Pairwise.
Variable R : Z → Z → Prop.
Hypothesis R_sym : ∀ a b, R a b → R b a.
Hypothesis R_nonsig : ∀ a b, significant reject_pairs a b = false → R a b.

Lemma join_pairwise (r : Z) (s : gset Z) :
  pairwise R s → pairwise R (join iter_levels reject_pairs r s).
Proof.
  intros Hs. unfold join.
  destruct (compatible iter_levels reject_pairs r s) eqn:Hcomp; [|done].
  rewrite compatible_true in Hcomp.
  intros a b [Ha|Ha%elem_of_singleton]%elem_of_union
             [Hb|Hb%elem_of_singleton]%elem_of_union Hab; subst.
  - by apply Hs.
  - apply R_sym, R_nonsig. by apply Hcomp.
  - apply R_nonsig. by apply Hcomp.
  - done.
Qed.

Lemma placed_sets_pairwise (r : Z) (sets : list (gset Z)) :
  Forall (pairwise R) sets → Forall (pairwise R) (placed_sets iter_levels reject_pairs r sets).
Proof.
  intros Hsets. apply Forall_forall. intros s' Hs'.
  apply elem_of_placed_sets in Hs' as [(s & Hs & ->)| ->].
  - apply join_pairwise. by eapply Forall_forall in Hsets.
  - intros a b ->%elem_of_singleton ->%elem_of_singleton Hab. done.
Qed.
End Pairwise.

(** *** The invariant of the first loop *)

Lemma empty_letters_lookup (levels : list Z) (r : Z) :
  empty_letters levels !! r = if decide (r ∈ levels) then Some [] else None.
Proof.
  unfold empty_letters. induction levels as [|x l IH];
    [rewrite fmap_nil, list_to_map_nil | rewrite fmap_cons, list_to_map_cons].
  - case_decide as Hr; [by apply elem_of_nil in Hr | apply lookup_empty].
  - destruct (decide (x = r)) as [->|Hne].
    + rewrite lookup_insert_eq. by rewrite decide_True by left.
    + rewrite lookup_insert_ne, IH by done.
      destruct (decide (r ∈ l)) as [Hr|Hr].
      * by rewrite decide_True by (by right).
      * rewrite decide_False; [done|]. by intros [->|?]%elem_of_cons.
Qed.

Lemma pass1_inv_init (levels : list Z) :
  pass1_inv levels [] (State [] (empty_letters levels)).
Proof.
  split; simpl.
  - intros r. rewrite empty_letters_lookup. case_decide; [done|].
    split; [by intros [? [=]] | done].
  - lia.
  - lia.
  - by intros s r ?%elem_of_nil.
  - intros r str c. rewrite empty_letters_lookup.
    case_decide; [|done]. intros [= <-]. by intros ?%elem_of_nil.
  - by intros r ?%elem_of_nil.
Qed.

Lemma elem_of_join (r : Z) (s : gset Z) (x : Z) :
  x ∈ join iter_levels reject_pairs r s → x ∈ s ∨ x = r.
Proof. unfold join. case_match; set_solver. Qed.

(** The step keeps the invariant, as soon as it leaves 26 groups at most. *)
Lemma pass1_inv_placed (levels seen : list Z) (sets : list (gset Z))
    (lm : gmap Z (list ascii)) (r : Z) (cur : list ascii) :
  pass1_inv levels seen (State sets lm) →
  lm !! r = Some cur →
  length (placed_sets iter_levels reject_pairs r sets) ≤ 26 →
  pass1_inv levels (seen ++ [r])
    (State (placed_sets iter_levels reject_pairs r sets)
       (<[r := cur ++ placed_letters iter_levels reject_pairs r sets]> lm)).
Proof.
  intros [Hkeys Hcount Hbound Hmem Hlet Hplaced] Hr Hlen. simpl in *.
  assert (length sets ≤ length (placed_sets iter_levels reject_pairs r sets)) as Hgrow.
  { rewrite placed_sets_length. lia. }
  split; simpl.
  - intros x. rewrite <- Hkeys. destruct (decide (r = x)) as [<-|Hne].
    + by rewrite lookup_insert_eq, Hr.
    + by rewrite lookup_insert_ne.
  - rewrite placed_sets_length, length_app. simpl.
    destruct (accepts iter_levels reject_pairs r sets); lia.
  - done.
  - intros s x Hs Hx. apply elem_of_app.
    apply elem_of_placed_sets in Hs as [(s0 & Hs0 & ->)| ->].
    + apply elem_of_join in Hx as [Hx| ->].
      * left. by apply (Hmem s0).
      * right. by left.
    + right. apply elem_of_singleton in Hx as ->. by left.
  - intros x str c. destruct (decide (r = x)) as [<-|Hne].
    + rewrite lookup_insert_eq. intros [= <-] [Hc|Hc]%elem_of_app.
      * destruct (Hlet r cur c Hr Hc) as (i & Hi & Hget).
        exists i. split; [lia | done].
      * by apply placed_letters_bound.
    + rewrite lookup_insert_ne by done. intros Hx Hc.
      destruct (Hlet x str c Hx Hc) as (i & Hi & Hget).
      exists i. split; [lia | done].
  - intros x Hx. destruct (decide (r = x)) as [<-|Hne].
    + exists (cur ++ placed_letters iter_levels reject_pairs r sets). rewrite lookup_insert_eq.
      split; [done|]. intros [_ Hnil]%app_eq_nil.
      by apply (placed_letters_nonempty r sets).
    + rewrite lookup_insert_ne by done. apply Hplaced.
      apply elem_of_app in Hx as [Hx|Hx]; [done|].
      by apply list_elem_of_singleton in Hx.
Qed.

(** Every step of the first loop that returns is the closed form, and
    keeps the invariant. *)
Lemma place_inv (levels seen : list Z) (st st' : state) (r : Z) :
  pass1_inv levels seen st → r ∈ levels →
  place iter_levels reject_pairs st r = Ok st' →
  letter_sets st' = placed_sets iter_levels reject_pairs r (letter_sets st)
  ∧ pass1_inv levels (seen ++ [r]) st'.
Proof.
  destruct st as [sets lm]. intros Hinv Hr Hplace.
  destruct (proj2 (inv_keys _ _ _ Hinv r) Hr) as [cur Hcur]. simpl in Hcur.
  assert (length (placed_sets iter_levels reject_pairs r sets) ≤ 26) as Hlen.
  { eapply place_Ok_bound; [done | apply (inv_bound _ _ _ Hinv) | done]. }
  rewrite (place_eq r sets lm cur Hcur Hlen) in Hplace.
  injection Hplace as <-. split; [done|]. by apply pass1_inv_placed.
Qed.

(** With fewer than 26 levels seen, the step returns. *)
Lemma place_total (levels seen : list Z) (st : state) (r : Z) :
  pass1_inv levels seen st → r ∈ levels → length seen < 26 →
  ∃ st', place iter_levels reject_pairs st r = Ok st'
    ∧ pass1_inv levels (seen ++ [r]) st'.
Proof.
  destruct st as [sets lm]. intros Hinv Hr Hseen.
  destruct (proj2 (inv_keys _ _ _ Hinv r) Hr) as [cur Hcur]. simpl in Hcur.
  assert (length (placed_sets iter_levels reject_pairs r sets) ≤ 26) as Hlen.
  { rewrite placed_sets_length. pose proof (inv_count _ _ _ Hinv) as Hc.
    simpl in Hc. destruct (accepts iter_levels reject_pairs r sets); lia. }
  eexists. split; [by apply place_eq|]. by apply pass1_inv_placed.
Qed.

Lemma pass1_inv_run (levels l : list Z) (st : state) :
  (∀ r, r ∈ l → r ∈ levels) →
  pass1 iter_levels reject_pairs (State [] (empty_letters levels)) l = Ok st →
  pass1_inv levels l st.
Proof.
  intros Hl. apply (for_each_inv_seen _ (pass1_inv levels)).
  - intros l1 x l2 s s' -> Hs Hx. eapply place_inv; [done| |done].
    apply Hl. apply elem_of_app. right. by left.
  - apply pass1_inv_init.
Qed.

Lemma pass1_total (levels l : list Z) :
  (∀ r, r ∈ l → r ∈ levels) → length l ≤ 26 →
  ∃ st, pass1 iter_levels reject_pairs (State [] (empty_letters levels)) l = Ok st
    ∧ pass1_inv levels l st.
Proof.
  intros Hl Hlen. apply (for_each_total_seen _ (pass1_inv levels)).
  - intros l1 x l2 s -> Hs. apply place_total; [done| |].
    + apply Hl. apply elem_of_app. right. by left.
    + rewrite length_app in Hlen. simpl in Hlen. lia.
  - apply pass1_inv_init.
Qed.

Lemma pass1_pairwise (R : Z → Z → Prop) (levels l : list Z) (st : state) :
  (∀ a b, R a b → R b a) →
  (∀ a b, significant reject_pairs a b = false → R a b) →
  (∀ r, r ∈ l → r ∈ levels) →
  pass1 iter_levels reject_pairs (State [] (empty_letters levels)) l = Ok st →
  Forall (pairwise R) (letter_sets st).
Proof.
  intros Hsym Hnonsig Hl Hrun.
  enough (pass1_inv levels l st ∧ Forall (pairwise R) (letter_sets st))
    as [_ H]; [done|].
  revert Hrun.
  apply (for_each_inv_seen _
    (λ seen st, pass1_inv levels seen st ∧ Forall (pairwise R) (letter_sets st))).
  - intros l1 x l2 s s' -> [Hs Hpw] Hx.
    eapply place_inv in Hx as [Hsets Hinv]; [|done|].
    + split; [done|]. rewrite Hsets. by apply placed_sets_pairwise.
    + apply Hl. apply elem_of_app. right. by left.
  - split; [apply pass1_inv_init | constructor].
Qed.
End FirstPass.


(** ** The second pass *)

Lemma pass1_letters_inv (levels l : list Z) (st : state) :
  l ≡ₚ levels → pass1_inv levels l st →
  letters_inv levels (length (letter_sets st)) (letters_map st).
Proof.
  intros Hl [Hkeys _ _ _ Hlet Hplaced]. split; [done..|].
  intros r str Hr.
  destruct (Hplaced r) as (str' & Hstr' & Hne); [|congruence].
  rewrite Hl. apply Hkeys. by rewrite Hr.
Qed.

Section SecondPass.
Variable iter_levels : gset Z → list Z.
Variable reject_pairs : gmap (Z * Z) bool.

Lemma backfill_eq (s : gset Z) (letter : ascii) (lm : gmap Z (list ascii))
    (r : Z) (cur : list ascii) :
  lm !! r = Some cur →
  backfill iter_levels reject_pairs s letter lm r
  = Ok (if bool_decide (letter ∈ cur) then lm
        else if compatible iter_levels reject_pairs r s
             then <[r := cur ++ [letter]]> lm else lm).
Proof.
  intros Hr. unfold backfill, dict_get. rewrite Hr. simpl.
  destruct (bool_decide (letter ∈ cur)); [done|].
  destruct (compatible iter_levels reject_pairs r s); [|done].
  by apply append_letter_Ok.
Qed.

Lemma letters_inv_append (levels : list Z) (n i : nat) (lm : gmap Z (list ascii))
    (r : Z) (cur : list ascii) (letter : ascii) :
  letters_inv levels n lm → lm !! r = Some cur →
  i < n → getitem i = Ok letter →
  letters_inv levels n (<[r := cur ++ [letter]]> lm).
Proof.
  intros [Hkeys Hlet Hne] Hr Hi Hget. split.
  - intros x. rewrite <- Hkeys. destruct (decide (r = x)) as [<-|Hx].
    + by rewrite lookup_insert_eq, Hr.
    + by rewrite lookup_insert_ne.
  - intros x str c. destruct (decide (r = x)) as [<-|Hx].
    + rewrite lookup_insert_eq.
      intros [= <-] [Hc|Hc%list_elem_of_singleton]%elem_of_app.
      * by apply (Hlet r cur).
      * subst. by exists i.
    + rewrite lookup_insert_ne by done. apply Hlet.
  - intros x str. destruct (decide (r = x)) as [<-|Hx].
    + rewrite lookup_insert_eq. intros [= <-]. by intros [_ [=]]%app_eq_nil.
    + rewrite lookup_insert_ne by done. apply Hne.
Qed.

Lemma backfill_total (levels : list Z) (n i : nat) (s : gset Z)
    (letter : ascii) (lm : gmap Z (list ascii)) (r : Z) :
  letters_inv levels n lm → r ∈ levels → i < n → getitem i = Ok letter →
  ∃ lm', backfill iter_levels reject_pairs s letter lm r = Ok lm'
    ∧ letters_inv levels n lm'.
Proof.
  intros Hinv Hr Hi Hget.
  destruct (proj2 (li_keys _ _ _ Hinv r) Hr) as [cur Hcur].
  rewrite (backfill_eq _ _ _ _ _ Hcur). eexists. split; [done|].
  destruct (bool_decide (letter ∈ cur)); [done|].
  destruct (compatible iter_levels reject_pairs r s); [|done].
  by eapply letters_inv_append.
Qed.

Lemma pass2_total (levels : list Z) (n : nat) (sets : list (gset Z)) :
  ∀ (i : nat) (lm : gmap Z (list ascii)),
  letters_inv levels n lm → i + length sets ≤ n → n ≤ 26 →
  ∃ lm', pass2 iter_levels reject_pairs levels i sets lm = Ok lm'
    ∧ letters_inv levels n lm'.
Proof.
  induction sets as [|s rest IH]; intros i lm Hinv Hlen Hn; simpl.
  - by exists lm.
  - simpl in Hlen. destruct (getitem_lt i) as [letter Hget]; [lia|].
    rewrite Hget. simpl.
    destruct (for_each_total (backfill iter_levels reject_pairs s letter)
                (letters_inv levels n) levels lm) as (lm' & -> & Hinv').
    + intros lm0 r Hr Hlm0. apply (backfill_total levels n i); [done..|lia|done].
    + done.
    + simpl. apply IH; [done | lia | done].
Qed.
End SecondPass.

(** ** The final loop: [sorted(set(str), key=ascii_lowercase.index)] *)

Lemma alpha_lt_irrefl (a : ascii) : ¬ alpha_lt a a.
Proof. intros (i & j & Hi & Hj & Hlt). rewrite Hi in Hj. simplify_eq. lia. Qed.

Lemma alpha_lt_asym (a b : ascii) : alpha_lt a b → alpha_lt b a → False.
Proof.
  intros (i & j & Hi & Hj & Hlt) (j' & i' & Hj' & Hi' & Hlt').
  rewrite Hi in Hi'. rewrite Hj in Hj'. simplify_eq. lia.
Qed.

Lemma normal_NoDup (str : list ascii) : normal str → NoDup str.
Proof.
  intros [_ Hs]. induction Hs as [|a l _ IH Ha]; constructor; [|done].
  intros Hin. eapply Forall_forall in Ha; [|done]. by apply alpha_lt_irrefl in Ha.
Qed.

Lemma leb_total (k1 k2 : nat) : Nat.leb k1 k2 = true ∨ Nat.leb k2 k1 = true.
Proof. rewrite !Nat.leb_le. lia. Qed.

Lemma leb_trans (k1 k2 k3 : nat) :
  Nat.leb k1 k2 = true → Nat.leb k2 k3 = true → Nat.leb k1 k3 = true.
Proof. rewrite !Nat.leb_le. lia. Qed.

(** Sorted pairs of distinct letters with their indices are in the order
    of the alphabet. *)
Lemma sorted_pairs_alpha (kl : list (nat * ascii)) :
  Forall (λ p, index p.2 = Ok p.1) kl →
  StronglySorted (key_le Nat.leb) kl → NoDup kl.*2 →
  StronglySorted alpha_lt kl.*2.
Proof.
  intros Hidx Hs. induction Hs as [|p kl Hs IH Hp]; intros Hnd.
  - constructor.
  - rewrite fmap_cons in *. apply NoDup_cons in Hnd as [Hp2 Hnd].
    apply Forall_cons in Hidx as [Hpi Hidx].
    constructor; [by apply IH|].
    apply Forall_fmap, Forall_forall. intros q Hq. simpl.
    eapply Forall_forall in Hp; [|done]. eapply Forall_forall in Hidx; [|done].
    unfold key_le in Hp. apply Nat.leb_le in Hp.
    exists p.1, q.1. split_and!; [done..|].
    destruct (decide (p.1 = q.1)) as [Heq|]; [|lia].
    exfalso. apply Hp2. apply list_elem_of_fmap. exists q. split; [|done].
    rewrite <- Heq in Hidx. by eapply index_inj.
Qed.

Lemma with_keys_index (l : list ascii) (kl : list (nat * ascii)) :
  with_keys index l = Ok kl → Forall (λ p, index p.2 = Ok p.1) kl.
Proof.
  rewrite with_keys_Ok.
  induction 1 as [|x p l kl [Hk <-] _ IH]; constructor; done.
Qed.

Section Normalize.
Variable iter_chars : list ascii → list ascii.
Hypothesis iter_chars_ok : iterates_chars iter_chars.

Lemma normalize_perm (str out : list ascii) :
  normalize iter_chars str = Ok out → out ≡ₚ remove_dups str.
Proof.
  intros H%py_sorted_perm. by rewrite H, (iter_chars_ok str).
Qed.

Lemma normalize_normal (str out : list ascii) :
  normalize iter_chars str = Ok out → normal out.
Proof.
  intros Hn. pose proof (normalize_perm _ _ Hn) as Hperm.
  unfold normalize in Hn. apply py_sorted_Ok in Hn as (kl & Hkl & ->).
  assert (Forall (λ p, index p.2 = Ok p.1) (sort_pairs Nat.leb kl)) as Hidx.
  { rewrite sort_pairs_perm. by eapply with_keys_index. }
  split.
  - apply Forall_fmap. eapply Forall_impl; [exact Hidx|].
    intros p Hp. simpl. apply lowercase_index. by exists p.1.
  - apply sorted_pairs_alpha; [done| |].
    + apply sort_pairs_sorted; [apply leb_total | apply leb_trans].
    + rewrite Hperm. apply NoDup_remove_dups.
Qed.

Lemma normalize_total (str : list ascii) :
  Forall lowercase str → ∃ out, normalize iter_chars str = Ok out.
Proof.
  intros Hlow. apply py_sorted_total. intros x Hx. apply lowercase_index.
  eapply Forall_forall; [exact Hlow|].
  by rewrite (iter_chars_ok str), elem_of_remove_dups in Hx.
Qed.

(** A normal string is its own normal form. *)
Lemma normalize_fixed (str : list ascii) :
  normal str → normalize iter_chars str = Ok str.
Proof.
  intros Hstr. destruct (normalize_total str) as [out Hout]; [apply Hstr|].
  rewrite Hout. f_equal.
  apply (StronglySorted_unique_strong alpha_lt).
  - intros a b _ _ Hab Hba. destruct (alpha_lt_asym a b Hab Hba).
  - by eapply normalize_normal.
  - apply Hstr.
  - rewrite (normalize_perm _ _ Hout).
    apply NoDup_Permutation.
    + apply NoDup_remove_dups.
    + by apply normal_NoDup.
    + intros x. apply elem_of_remove_dups.
Qed.
End Normalize.

(** ** The whole function *)

Lemma sort_rates_perm (means_dict : gmap Z Q) (levels sorted : list Z) :
  sort_rates means_dict levels = Ok sorted → sorted ≡ₚ levels.
Proof. apply py_sorted_perm. Qed.

Lemma sort_rates_total (means_dict : gmap Z Q) (levels : list Z) :
  (∀ r, r ∈ levels → is_Some (means_dict !! r)) →
  ∃ sorted, sort_rates means_dict levels = Ok sorted.
Proof.
  intros Hm. apply py_sorted_total. intros r [q Hq]%Hm.
  exists q. unfold dict_get. by rewrite Hq.
Qed.

Section Whole.
Variable iter_levels : gset Z → list Z.
Variable iter_chars : list ascii → list ascii.
Variable reject_pairs : gmap (Z * Z) bool.
Hypothesis iter_levels_ok : iterates_levels iter_levels.
Hypothesis iter_chars_ok : iterates_chars iter_chars.

Lemma normalize_level_total (levels : list Z) (n : nat) (seen : list Z)
    (lm : gmap Z (list ascii)) (r : Z) :
  final_inv levels n seen lm → r ∈ levels →
  ∃ lm', normalize_level iter_chars lm r = Ok lm'
    ∧ final_inv levels n (seen ++ [r]) lm'.
Proof.
  intros [[Hkeys Hlet Hne] Hseen] Hr.
  destruct (proj2 (Hkeys r) Hr) as [cur Hcur].
  destruct (normalize_total iter_chars iter_chars_ok cur) as [out Hout].
  { apply Forall_forall. intros c Hc.
    destruct (Hlet r cur c Hcur Hc) as (i & _ & Hget).
    apply lowercase_index. exists i. by apply index_getitem. }
  pose proof (normalize_perm _ iter_chars_ok _ _ Hout) as Hperm.
  pose proof (normalize_normal _ iter_chars_ok _ _ Hout) as Hnormal.
  exists (<[r := out]> lm). split.
  { unfold normalize_level, dict_get. rewrite Hcur. simpl. by rewrite Hout. }
  split; [split|].
  - intros x. rewrite <- Hkeys. destruct (decide (r = x)) as [<-|Hx].
    + by rewrite lookup_insert_eq, Hcur.
    + by rewrite lookup_insert_ne.
  - intros x str c. destruct (decide (r = x)) as [<-|Hx].
    + rewrite lookup_insert_eq. intros [= <-] Hc. apply (Hlet r cur c Hcur).
      by rewrite Hperm, elem_of_remove_dups in Hc.
    + rewrite lookup_insert_ne by done. apply Hlet.
  - intros x str. destruct (decide (r = x)) as [<-|Hx].
    + rewrite lookup_insert_eq. intros [= <-] ->.
      apply Permutation_nil_l in Hperm.
      destruct cur as [|c cur]; [by apply (Hne r [])|].
      assert (c ∈ remove_dups (c :: cur)) as Hc
        by (apply elem_of_remove_dups; by left).
      rewrite <- Hperm in Hc. by apply elem_of_nil in Hc.
    + rewrite lookup_insert_ne by done. apply Hne.
  - intros x Hx. destruct (decide (r = x)) as [<-|Hne'].
    + exists out. by rewrite lookup_insert_eq.
    + rewrite lookup_insert_ne by done. apply Hseen.
      apply elem_of_app in Hx as [Hx|Hx]; [done|].
      by apply list_elem_of_singleton in Hx.
Qed.

Lemma final_total (levels : list Z) (n : nat) (lm : gmap Z (list ascii)) :
  letters_inv levels n lm →
  ∃ m, for_each (normalize_level iter_chars) lm levels = Ok m
    ∧ final_inv levels n levels m.
Proof.
  intros Hinv. apply (for_each_total_seen _ (final_inv levels n)).
  - intros l1 x l2 s -> Hs. apply normalize_level_total; [done|].
    apply elem_of_app. right. by left.
  - split; [done|]. by intros r ?%elem_of_nil.
Qed.

(** What a call that returns has gone through, and what it returns. *)
Lemma cld_from_tukey_iter_Ok (levels : list Z) (means_dict : gmap Z Q)
    (m : gmap Z (list ascii)) :
  cld_from_tukey_iter iter_levels iter_chars reject_pairs levels means_dict = Ok m →
  ∃ sorted st,
    sort_rates means_dict levels = Ok sorted
    ∧ pass1 iter_levels reject_pairs (State [] (empty_letters levels)) sorted = Ok st
    ∧ pass1_inv levels sorted st
    ∧ final_inv levels (length (letter_sets st)) levels m.
Proof.
  unfold cld_from_tukey_iter. intros H. inv_bind H.
  rename x into sorted, x0 into st, x1 into lm, Hx into Hsort,
    Hx0 into Hpass1, Hx1 into Hpass2.
  pose proof (sort_rates_perm _ _ _ Hsort) as Hperm.
  assert (pass1_inv levels sorted st) as Hinv.
  { eapply pass1_inv_run; [done| |done]. intros r. by rewrite Hperm. }
  exists sorted, st. split_and!; [done..|].
  destruct (pass2_total iter_levels reject_pairs levels
              (length (letter_sets st)) (letter_sets st) 0 (letters_map st))
    as (lm' & Hlm' & Hinv2).
  { by apply (pass1_letters_inv levels sorted). }
  { simpl. lia. }
  { apply (inv_bound _ _ _ Hinv). }
  rewrite Hpass2 in Hlm'. injection Hlm' as <-.
  destruct (final_total levels _ lm Hinv2) as (m' & Hm' & Hfin).
  rewrite H in Hm'. by injection Hm' as <-.
Qed.

(** With every mean present and 26 levels at most, the call returns. *)
Lemma cld_from_tukey_iter_total (levels : list Z) (means_dict : gmap Z Q) :
  (∀ r, r ∈ levels → is_Some (means_dict !! r)) → length levels ≤ 26 →
  ∃ m, cld_from_tukey_iter iter_levels iter_chars reject_pairs levels means_dict
       = Ok m.
Proof.
  intros Hm Hlen. unfold cld_from_tukey_iter.
  destruct (sort_rates_total _ _ Hm) as [sorted Hsort]. rewrite Hsort. simpl.
  pose proof (sort_rates_perm _ _ _ Hsort) as Hperm.
  destruct (pass1_total iter_levels reject_pairs iter_levels_ok levels sorted)
    as (st & Hst & Hinv).
  { intros r. by rewrite Hperm. }
  { by rewrite Hperm. }
  rewrite Hst. simpl.
  destruct (pass2_total iter_levels reject_pairs levels
              (length (letter_sets st)) (letter_sets st) 0 (letters_map st))
    as (lm & Hlm & Hinv2).
  { by apply (pass1_letters_inv levels sorted). }
  { simpl. lia. }
  { apply (inv_bound _ _ _ Hinv). }
  rewrite Hlm. simpl.
  destruct (final_total levels _ lm Hinv2) as (m & Hfin & _). by exists m.
Qed.
End Whole.

(** ** Independence of the iteration orders *)

Lemma bind_ext {A B : Type} (f g : A → result B) (m : result A) :
  (∀ a, f a = g a) → m ≫= f = m ≫= g.
Proof. intros Hfg. destruct m; simpl; [apply Hfg | done]. Qed.

Lemma for_each_ext {A S : Type} (body1 body2 : S → A → result S) (st : S) (l : list A) :
  (∀ s x, body1 s x = body2 s x) → for_each body1 st l = for_each body2 st l.
Proof.
  intros Hb. revert st. induction l as [|x l IH]; intros st; simpl; [done|].
  rewrite Hb. by apply bind_ext.
Qed.

Section SortedPerm.
Context {K A : Type} (leb : K → K → bool) (key : A → result K) (e0 : error).
Hypothesis leb_total : ∀ k1 k2, leb k1 k2 = true ∨ leb k2 k1 = true.
Hypothesis leb_trans : ∀ k1 k2 k3,
  leb k1 k2 = true → leb k2 k3 = true → leb k1 k3 = true.
Hypothesis leb_antisym : ∀ k1 k2, leb k1 k2 = true → leb k2 k1 = true → k1 = k2.
Hypothesis key_inj : ∀ x y k, key x = Ok k → key y = Ok k → x = y.
Hypothesis key_err : ∀ x e, key x = Err e → e = e0.

Lemma with_keys_keys (l : list A) (kl : list (K * A)) :
  with_keys key l = Ok kl → Forall (λ p, key p.2 = Ok p.1) kl.
Proof.
  rewrite with_keys_Ok.
  induction 1 as [|x p l kl [Hk <-] _ IH]; constructor; done.
Qed.

Lemma with_keys_perm (l1 l2 : list A) :
  l1 ≡ₚ l2 → ∀ kl1, with_keys key l1 = Ok kl1 →
  ∃ kl2, with_keys key l2 = Ok kl2 ∧ kl1 ≡ₚ kl2.
Proof.
  induction 1 as [|x l1 l2 _ IH|x y l|l1 l2 l3 _ IH1 _ IH2]; intros kl1 H1.
  - by exists kl1.
  - simpl in H1. simpl.
    destruct (key x) as [k|] eqn:Hk; simpl in *; [|done].
    destruct (with_keys key l1) as [kl|] eqn:Hkl; simpl in *; [|done].
    injection H1 as <-. destruct (IH kl eq_refl) as (kl2 & -> & Hperm). simpl.
    eexists. split; [done|]. by constructor.
  - simpl in H1. simpl.
    destruct (key y) as [ky|] eqn:Hy; simpl in *; [|done].
    destruct (key x) as [kx|] eqn:Hx; simpl in *; [|done].
    destruct (with_keys key l) as [kl|] eqn:Hkl; simpl in *; [|done].
    injection H1 as <-. eexists. split; [done|]. apply Permutation_swap.
  - destruct (IH1 _ H1) as (kl2 & Hkl2 & Hperm12).
    destruct (IH2 _ Hkl2) as (kl3 & Hkl3 & Hperm23).
    exists kl3. split; [done|]. by etrans.
Qed.

Lemma with_keys_Err_inv (l : list A) (e : error) :
  with_keys key l = Err e → ∃ x, x ∈ l ∧ key x = Err e.
Proof.
  induction l as [|x l IH]; simpl; [done|].
  destruct (key x) as [k|e'] eqn:Hk; simpl.
  - destruct (with_keys key l) as [kl|e'] eqn:Hkl; simpl; [done|].
    intros [= ->]. destruct IH as (y & Hy & Hey); [done|].
    exists y. split; [by right | done].
  - intros [= ->]. exists x. split; [by left | done].
Qed.

(** With keys that tell the elements apart, the sorted list does not
    depend on the order of the input. *)
Lemma py_sorted_perm_eq (l1 l2 : list A) :
  l1 ≡ₚ l2 → py_sorted leb key l1 = py_sorted leb key l2.
Proof.
  intros Hperm. unfold py_sorted.
  destruct (with_keys key l1) as [kl1|e] eqn:H1.
  - destruct (with_keys_perm _ _ Hperm _ H1) as (kl2 & -> & Hkl).
    simpl. do 2 f_equal.
    apply (StronglySorted_unique_strong (key_le leb)).
    + intros p q Hp Hq Hpq Hqp.
      pose proof (with_keys_keys _ _ H1) as Hkeys.
      rewrite sort_pairs_perm in Hp. rewrite sort_pairs_perm, <- Hkl in Hq.
      eapply Forall_forall in Hp; [|exact Hkeys].
      eapply Forall_forall in Hq; [|exact Hkeys].
      simpl in Hp, Hq. destruct p as [kp p], q as [kq q]. simpl in *.
      assert (kp = kq) as -> by by apply leb_antisym.
      f_equal. by eapply key_inj.
    + by apply sort_pairs_sorted.
    + by apply sort_pairs_sorted.
    + by rewrite !sort_pairs_perm.
  - destruct (with_keys_Err_inv _ _ H1) as (x & Hx & Hkx).
    assert (e = e0) as -> by by eapply key_err.
    rewrite Hperm in Hx.
    by rewrite (with_keys_Err key e0 l2 x key_err Hx Hkx).
Qed.
End SortedPerm.

Lemma leb_antisym (k1 k2 : nat) :
  Nat.leb k1 k2 = true → Nat.leb k2 k1 = true → k1 = k2.
Proof. rewrite !Nat.leb_le. lia. Qed.

(** The normal form of a string depends on the set of its characters
    only, neither on their order nor on the order in which [set(str)]
    yields them. *)
Lemma normalize_chars (iter1 iter2 : list ascii → list ascii) (str1 str2 : list ascii) :
  iterates_chars iter1 → iterates_chars iter2 →
  (∀ c, c ∈ str1 ↔ c ∈ str2) →
  normalize iter1 str1 = normalize iter2 str2.
Proof.
  intros H1 H2 Hchars. unfold normalize.
  apply (py_sorted_perm_eq Nat.leb index ValueError).
  - apply leb_total.
  - apply leb_trans.
  - apply leb_antisym.
  - apply index_inj.
  - apply index_Err.
  - rewrite (H1 str1), (H2 str2). apply NoDup_Permutation.
    + apply NoDup_remove_dups.
    + apply NoDup_remove_dups.
    + intros c. by rewrite !elem_of_remove_dups.
Qed.

Section IterationOrder.
Variables iter1 iter2 : gset Z → list Z.
Variables chars1 chars2 : list ascii → list ascii.
Variable reject_pairs : gmap (Z * Z) bool.
Hypothesis iter1_ok : iterates_levels iter1.
Hypothesis iter2_ok : iterates_levels iter2.
Hypothesis chars1_ok : iterates_chars chars1.
Hypothesis chars2_ok : iterates_chars chars2.

Lemma compatible_iter (r : Z) (s : gset Z) :
  compatible iter1 reject_pairs r s = compatible iter2 reject_pairs r s.
Proof.
  unfold compatible. apply ok_loop_perm. by rewrite (iter1_ok s), (iter2_ok s).
Qed.

Lemma scan_groups_iter (r : Z) (sets : list (gset Z)) :
  ∀ i lm placed,
  scan_groups iter1 reject_pairs r i sets lm placed
  = scan_groups iter2 reject_pairs r i sets lm placed.
Proof.
  induction sets as [|s rest IH]; intros i lm placed; simpl; [done|].
  rewrite compatible_iter.
  destruct (compatible iter2 reject_pairs r s).
  - apply bind_ext. intros lm'. by rewrite IH.
  - by rewrite IH.
Qed.

Lemma place_iter (st : state) (r : Z) :
  place iter1 reject_pairs st r = place iter2 reject_pairs st r.
Proof. unfold place. by rewrite scan_groups_iter. Qed.

Lemma backfill_iter (s : gset Z) (letter : ascii) (lm : gmap Z (list ascii)) (r : Z) :
  backfill iter1 reject_pairs s letter lm r
  = backfill iter2 reject_pairs s letter lm r.
Proof. unfold backfill. apply bind_ext. intros cur. by rewrite compatible_iter. Qed.

Lemma pass2_iter (levels : list Z) (sets : list (gset Z)) :
  ∀ i lm,
  pass2 iter1 reject_pairs levels i sets lm
  = pass2 iter2 reject_pairs levels i sets lm.
Proof.
  induction sets as [|s rest IH]; intros i lm; simpl; [done|].
  apply bind_ext. intros letter.
  rewrite (for_each_ext _ (backfill iter2 reject_pairs s letter))
    by apply backfill_iter.
  apply bind_ext. intros lm'. apply IH.
Qed.

Lemma normalize_level_iter (lm : gmap Z (list ascii)) (r : Z) :
  normalize_level chars1 lm r = normalize_level chars2 lm r.
Proof.
  unfold normalize_level. apply bind_ext. intros cur.
  by rewrite (normalize_chars chars1 chars2 cur cur).
Qed.

Lemma cld_from_tukey_iter_orders (levels : list Z) (means_dict : gmap Z Q) :
  cld_from_tukey_iter iter1 chars1 reject_pairs levels means_dict
  = cld_from_tukey_iter iter2 chars2 reject_pairs levels means_dict.
Proof.
  unfold cld_from_tukey_iter. apply bind_ext. intros sorted.
  unfold pass1. rewrite (for_each_ext _ (place iter2 reject_pairs)) by apply place_iter.
  apply bind_ext. intros st. rewrite pass2_iter.
  apply bind_ext. intros lm. apply for_each_ext, normalize_level_iter.
Qed.
End IterationOrder.

(** * The claims *)

(** ** C7: pairs without a recorded result *)

(** C7. When no result is recorded, under either order, for the pairs of
    [r] and the members of a group [s], the lookup answers false for each
    of these pairs, asked in either order; the check of the first pass
    accepts [r] into [s] and the check of the second pass gives [r] the
    letter of [s]; and a result recorded for such a pair under one order
    is what the lookup answers for both orders of its arguments, the same
    as had it been recorded under the other order. *)
Theorem missing_pair_is_not_significant
    (reject_pairs : gmap (Z * Z) bool) (r : Z) (s : gset Z) :
  (∀ rr, rr ∈ s → unrecorded reject_pairs r rr) →
  (∀ rr, rr ∈ s →
     significant reject_pairs r rr = false
     ∧ significant reject_pairs rr r = false)
  ∧ (∀ i c cur lm placed, getitem i = Ok c → lm !! r = Some cur →
       scan_groups elements reject_pairs r i [s] lm placed
       = Ok ([s ∪ {[r]}], <[r := cur ++ [c]]> lm, true))
  ∧ (∀ letter cur lm, lm !! r = Some cur → letter ∉ cur →
       backfill elements reject_pairs s letter lm r
       = Ok (<[r := cur ++ [letter]]> lm))
  ∧ (∀ rr v, rr ∈ s →
       significant (<[(r, rr) := v]> reject_pairs) r rr = v
       ∧ significant (<[(r, rr) := v]> reject_pairs) rr r = v
       ∧ ∀ x y, significant (<[(r, rr) := v]> reject_pairs) x y
                = significant (<[(rr, r) := v]> reject_pairs) x y).
Proof.
  intros Hun.
  assert (compatible elements reject_pairs r s = true) as Hcomp.
  { apply (compatible_true _ _ elements_iterates). intros rr Hrr.
    by apply significant_unrecorded, Hun. }
  split_and!.
  - intros rr Hrr. split; apply significant_unrecorded;
      [|apply unrecorded_sym]; by apply Hun.
  - intros i c cur lm placed Hc Hcur. simpl.
    by rewrite Hcomp, (append_letter_at_Ok _ _ _ _ _ Hcur Hc).
  - intros letter cur lm Hcur Hnotin.
    rewrite (backfill_eq _ _ _ _ _ _ _ Hcur), Hcomp.
    by rewrite bool_decide_eq_false_2.
  - intros rr v Hrr. pose proof (Hun rr Hrr) as Hu. split_and!.
    + apply significant_recorded, lookup_insert_eq.
    + rewrite (significant_insert_swap _ _ _ _ _ _ Hu).
      apply significant_recorded, lookup_insert_eq.
    + intros x y. by apply significant_insert_swap.
Qed.

Lemma missing_pair_is_not_significant_witness :
  significant ex_reject_sparse 4 6 = false
  ∧ significant ex_reject_sparse 6 4 = false.
Proof.
  apply (proj1 (missing_pair_is_not_significant ex_reject_sparse 4%Z {[6%Z]}
    ltac:(intros rr ->%elem_of_singleton; split; reflexivity)) 6%Z).
  by apply elem_of_singleton.
Defined.

(** ** C1: levels that share a letter *)

(** C1. On the example the first pass founds the groups {2, 6}, {4, 6}
    and {8}; the second pass then gives the letter "c" of the group {8}
    to 2 and to 4, each time after comparing with 8 only: in the mapping
    returned, the levels 2 and 4 share the letter "c" although the lookup
    says that they are significantly different, in either order. *)
Theorem backfill_shares_letter_of_significant_levels :
  cld_from_tukey ex_levels ex_means ex_reject = Ok ex_letters
  ∧ (sorted ← sort_rates ex_means ex_levels;
     st ← pass1 elements ex_reject (State [] (empty_letters ex_levels)) sorted;
     Ok (letter_sets st))
    = Ok [{[2; 6]}; {[4; 6]}; {[8]}]%Z
  ∧ ex_letters !! 2%Z = Some ["a"; "c"]%char
  ∧ ex_letters !! 4%Z = Some ["b"; "c"]%char
  ∧ significant ex_reject 2 4 = true
  ∧ significant ex_reject 4 2 = true.
Proof. by vm_compute. Qed.

(** ** C2: the groups a level joins in the first pass *)

(** C2 fails as stated: on the example the step of the first pass for the
    level 6 starts from two groups that hold neither 6, and leaves 6 a
    member of both, with both letters. *)
Lemma place_joins_two_groups :
  (sorted ← sort_rates ex_means ex_levels;
   pass1 elements ex_reject (State [] (empty_letters ex_levels)) (take 2 sorted))
  = Ok ex_state_2_4
  ∧ (sorted ← sort_rates ex_means ex_levels; Ok (sorted !! 2)) = Ok (Some 6%Z)
  ∧ place elements ex_reject ex_state_2_4 6
    = Ok (State [{[2; 6]}; {[4; 6]}]%Z
            (list_to_map [(2%Z, ["a"]%char); (4%Z, ["b"]%char);
                          (6%Z, ["a"; "b"]%char); (8%Z, [])])).
Proof. by vm_compute. Qed.

Lemma join_none (iter_levels : gset Z → list Z) (reject_pairs : gmap (Z * Z) bool)
    (r : Z) (sets : list (gset Z)) :
  accepts iter_levels reject_pairs r sets = false →
  join iter_levels reject_pairs r <$> sets = sets.
Proof.
  induction sets as [|s rest IH]; [done|]. intros Hacc. simpl in Hacc.
  apply orb_false_iff in Hacc as [Hs Hrest]. rewrite fmap_cons, (IH Hrest).
  unfold join. by rewrite Hs.
Qed.

(** What a scan that returns has done, whatever the number of groups. *)
Lemma scan_groups_Ok_inv (reject_pairs : gmap (Z * Z) bool) (r : Z)
    (sets : list (gset Z)) :
  ∀ (i : nat) (lm : gmap Z (list ascii)) (placed : bool)
    (sets' : list (gset Z)) (lm' : gmap Z (list ascii)) (placed' : bool),
  scan_groups elements reject_pairs r i sets lm placed = Ok (sets', lm', placed') →
  sets' = join elements reject_pairs r <$> sets
  ∧ placed' = placed || accepts elements reject_pairs r sets
  ∧ (if accepts elements reject_pairs r sets
     then ∃ cur, lm !! r = Some cur
            ∧ lm' = <[r := cur ++ accepted elements reject_pairs r i sets]> lm
     else lm' = lm).
Proof.
  induction sets as [|s rest IH]; intros i lm placed sets' lm' placed' Hscan;
    simpl in Hscan.
  - injection Hscan as <- <- <-. simpl. by rewrite orb_false_r.
  - rewrite fmap_cons. unfold join at 1.
    change (accepts elements reject_pairs r (s :: rest))
      with (compatible elements reject_pairs r s
            || accepts elements reject_pairs r rest).
    change (accepted elements reject_pairs r i (s :: rest))
      with ((if compatible elements reject_pairs r s then letter_at i else [])
            ++ accepted elements reject_pairs r (S i) rest).
    destruct (compatible elements reject_pairs r s) eqn:Hc.
    + destruct (append_letter_at lm r i) as [lm1|e] eqn:Happ;
        simpl in Hscan; [|done].
      destruct (scan_groups elements reject_pairs r (S i) rest lm1 true)
        as [[[rest' lm''] p']|e] eqn:Hrest; simpl in Hscan; [|done].
      injection Hscan as <- <- <-.
      destruct (IH _ _ _ _ _ _ Hrest) as (-> & -> & Hlm).
      unfold append_letter_at, dict_get in Happ.
      destruct (lm !! r) as [cur|] eqn:Hcur; simpl in Happ; [|done].
      destruct (getitem i) as [c|e] eqn:Hget; simpl in Happ; [|done].
      injection Happ as <-. rewrite orb_true_l.
      split_and!; [done | by rewrite orb_true_r |].
      exists cur. split; [done|]. rewrite (letter_at_getitem _ _ Hget).
      destruct (accepts elements reject_pairs r rest) eqn:Hacc.
      * destruct Hlm as (cur1 & Hcur1 & ->).
        rewrite lookup_insert_eq in Hcur1. injection Hcur1 as <-.
        by rewrite insert_insert_eq, <- app_assoc.
      * subst lm''. by rewrite (accepted_none _ _ _ _ _ Hacc), app_nil_r.
    + destruct (scan_groups elements reject_pairs r (S i) rest lm placed)
        as [[[rest' lm''] p']|e] eqn:Hrest; simpl in Hscan; [|done].
      injection Hscan as <- <- <-.
      by destruct (IH _ _ _ _ _ _ Hrest) as (-> & -> & Hlm).
Qed.

(** What a step of the first pass that returns has done. *)
Lemma place_Ok_inv (reject_pairs : gmap (Z * Z) bool) (sets : list (gset Z))
    (lm : gmap Z (list ascii)) (r : Z) (st' : state) :
  place elements reject_pairs (State sets lm) r = Ok st' →
  ∃ cur, lm !! r = Some cur
    ∧ st' = State (placed_sets elements reject_pairs r sets)
              (<[r := cur ++ placed_letters elements reject_pairs r sets]> lm).
Proof.
  unfold place. simpl. intros Hplace.
  destruct (scan_groups elements reject_pairs r 0 sets lm false)
    as [[[sets' lm'] placed']|e] eqn:Hscan; simpl in Hplace; [|done].
  destruct (scan_groups_Ok_inv _ _ _ _ _ _ _ _ _ Hscan) as (-> & -> & Hlm).
  unfold placed_sets, placed_letters. simpl in Hplace.
  destruct (accepts elements reject_pairs r sets) eqn:Hacc.
  - injection Hplace as <-. destruct Hlm as (cur & Hcur & ->).
    exists cur. by rewrite app_nil_r.
  - subst lm'. rewrite length_app, length_fmap in Hplace. simpl in Hplace.
    replace (length sets + 1 - 1) with (length sets) in Hplace by lia.
    unfold append_letter_at, dict_get in Hplace.
    destruct (lm !! r) as [cur|] eqn:Hcur; simpl in Hplace; [|done].
    destruct (getitem (length sets)) as [c|e] eqn:Hget; simpl in Hplace; [|done].
    injection Hplace as <-. exists cur.
    by rewrite (letter_at_getitem _ _ Hget).
Qed.

(** C2, amended. The step of the first pass for [r], from any groups and
    any map.  It returns when the map has the key [r] and the alphabet
    has a letter for every group the step leaves ([sets] and, when no
    group accepts [r], one more).  Whenever it returns, with 26 groups
    or more as well, the map had the key [r] and: every group is left
    with [r] added when all its members are non-significant with [r],
    and as it was otherwise, without a stop at the first group that
    accepts; when some group accepts, no group is created and [r]
    receives the letters of all the groups that accept, in creation
    order; when none does, a group holding [r] alone is appended and [r]
    receives its letter. *)
Theorem place_joins_every_accepting_group
    (reject_pairs : gmap (Z * Z) bool) (sets : list (gset Z))
    (lm : gmap Z (list ascii)) (r : Z) :
  (∀ cur, lm !! r = Some cur →
     length sets
     + (if existsb (compatible elements reject_pairs r) sets then 0 else 1) ≤ 26 →
     ∃ st', place elements reject_pairs (State sets lm) r = Ok st')
  ∧ ∀ st', place elements reject_pairs (State sets lm) r = Ok st' →
    ∃ cur, lm !! r = Some cur
    ∧ (∀ i s, sets !! i = Some s →
         letter_sets st' !! i
         = Some (if compatible elements reject_pairs r s then s ∪ {[r]} else s))
    ∧ (∀ s, compatible elements reject_pairs r s = true
            ↔ ∀ rr, rr ∈ s → significant reject_pairs r rr = false)
    ∧ (if existsb (compatible elements reject_pairs r) sets
       then length (letter_sets st') = length sets
            ∧ letters_map st'
              = <[r := cur ++ accepted elements reject_pairs r 0 sets]> lm
       else letter_sets st' = sets ++ [{[r]}]
            ∧ letters_map st' = <[r := cur ++ letter_at (length sets)]> lm)
    ∧ (∀ c, c ∈ accepted elements reject_pairs r 0 sets
            ↔ ∃ j s, sets !! j = Some s
                ∧ compatible elements reject_pairs r s = true
                ∧ getitem j = Ok c).
Proof.
  split.
  { intros cur Hcur Hlen. eexists.
    apply (place_eq _ _ _ _ _ _ Hcur). by rewrite placed_sets_length. }
  intros st' Hplace.
  destruct (place_Ok_inv _ _ _ _ _ Hplace) as (cur & Hcur & ->).
  exists cur. simpl. split_and!.
  - done.
  - intros i s Hi. unfold placed_sets. rewrite lookup_app_l.
    + by rewrite list_lookup_fmap, Hi.
    + rewrite length_fmap. by eapply lookup_lt_Some.
  - intros s. apply (compatible_true _ _ elements_iterates).
  - unfold placed_sets, placed_letters, accepts.
    destruct (existsb _ sets) eqn:Hacc.
    + by rewrite app_nil_r, length_fmap.
    + by rewrite (join_none _ _ _ _ Hacc).
  - intros c. by rewrite elem_of_accepted.
Qed.

Lemma place_joins_every_accepting_group_witness :
  ∃ st', place elements ex_reject ex_state_2_4 6 = Ok st'
    ∧ letter_sets st' !! 0 = Some {[2; 6]}%Z
    ∧ letter_sets st' !! 1 = Some {[4; 6]}%Z.
Proof.
  destruct (proj1 (place_joins_every_accepting_group ex_reject
                     (letter_sets ex_state_2_4) (letters_map ex_state_2_4) 6%Z)
              [] eq_refl)
    as (st' & Hst'); [vm_compute; lia|].
  destruct (proj2 (place_joins_every_accepting_group ex_reject
                     (letter_sets ex_state_2_4) (letters_map ex_state_2_4) 6%Z)
              st' Hst')
    as (cur & _ & Hsets & _).
  exists st'. split; [exact Hst'|]. split.
  - exact (Hsets 0 {[2%Z]} eq_refl).
  - exact (Hsets 1 {[4%Z]} eq_refl).
Defined.

(** ** C4: the groups are pairwise non-significant *)

Lemma take_sorted_levels (means_dict : gmap Z Q) (levels sorted : list Z) (n : nat) :
  sort_rates means_dict levels = Ok sorted →
  ∀ r, r ∈ take n sorted → r ∈ levels.
Proof.
  intros Hsort%sort_rates_perm r Hr. rewrite <- Hsort.
  by apply (subseteq_take n sorted).
Qed.

(** C4. After every step of the first loop (the only place where
    [letter_sets] changes), that is for the state [st] reached when the
    loop has run for the first [n] sorted levels: for every two distinct
    members of a group the lookup has answered false when the later one
    joined, so it is false in one order at least; and it is false as
    asked, in both orders, when [reject_pairs] holds no pair under both
    orders with different flags. *)
Theorem letter_groups_pairwise_nonsignificant
    (levels : list Z) (means_dict : gmap Z Q) (reject_pairs : gmap (Z * Z) bool)
    (sorted : list Z) (n : nat) (st : state) :
  sort_rates means_dict levels = Ok sorted →
  pass1 elements reject_pairs (State [] (empty_letters levels)) (take n sorted)
  = Ok st →
  ∀ s a b, s ∈ letter_sets st → a ∈ s → b ∈ s → a ≠ b →
    (significant reject_pairs a b = false ∨ significant reject_pairs b a = false)
    ∧ (consistent reject_pairs →
       significant reject_pairs a b = false
       ∧ significant reject_pairs b a = false).
Proof.
  intros Hsort Hrun s a b Hs Ha Hb Hab.
  pose proof (take_sorted_levels _ _ _ n Hsort) as Hl. split.
  - assert (Forall (pairwise (checked reject_pairs)) (letter_sets st)) as Hpw.
    { eapply (pass1_pairwise elements reject_pairs elements_iterates);
        [| |exact Hl|exact Hrun].
      - by intros x y [?|?]; [right|left].
      - intros x y Hxy. by left. }
    eapply Forall_forall in Hpw; [|exact Hs]. by apply Hpw.
  - intros Hc.
    assert (Forall (pairwise (nonsig reject_pairs)) (letter_sets st)) as Hpw.
    { eapply (pass1_pairwise elements reject_pairs elements_iterates);
        [| |exact Hl|exact Hrun].
      - intros x y Hxy. unfold nonsig. by rewrite significant_sym.
      - by intros x y Hxy. }
    eapply Forall_forall in Hpw; [|exact Hs].
    split; apply Hpw; done.
Qed.

Lemma letter_groups_pairwise_nonsignificant_witness :
  significant ex_reject 2 6 = false ∨ significant ex_reject 6 2 = false.
Proof.
  apply (letter_groups_pairwise_nonsignificant ex_levels ex_means ex_reject
           ex_levels 3
           (State [{[2; 6]}; {[4; 6]}]%Z
              (list_to_map [(2%Z, ["a"]%char); (4%Z, ["b"]%char);
                            (6%Z, ["a"; "b"]%char); (8%Z, [])]))
           eq_refl eq_refl {[2; 6]}%Z 2%Z 6%Z).
  - by left.
  - by apply elem_of_union_l, elem_of_singleton.
  - by apply elem_of_union_r, elem_of_singleton.
  - discriminate.
Defined.

(** ** C9: no level, and a level without a mean *)

Lemma dict_get_Err {K V : Type} `{Countable K} (d : gmap K V) (k : K) (e : error) :
  dict_get d k = Err e → e = KeyError.
Proof. unfold dict_get. destruct (d !! k); [done|]. by intros [= <-]. Qed.

(** C9. Without a level the function returns the empty mapping, whatever
    the means and the recorded pairs; and when the means hold no entry for
    one of the levels at least, it raises [KeyError] (the lookup
    [means_dict[r]] of the sort key), whatever the other levels. *)
Theorem empty_levels_and_missing_mean
    (levels : list Z) (means_dict : gmap Z Q) (reject_pairs : gmap (Z * Z) bool) :
  cld_from_tukey [] means_dict reject_pairs = Ok ∅
  ∧ ∀ r, r ∈ levels → means_dict !! r = None →
      cld_from_tukey levels means_dict reject_pairs = Err KeyError.
Proof.
  split; [reflexivity|]. intros r Hr Hnone.
  unfold cld_from_tukey, cld_from_tukey_iter, sort_rates, py_sorted.
  rewrite (with_keys_Err (dict_get means_dict) KeyError levels r); [done| |done|].
  - apply dict_get_Err.
  - unfold dict_get. by rewrite Hnone.
Qed.

Lemma empty_levels_and_missing_mean_witness :
  cld_from_tukey [2; 3; 4]%Z (list_to_map [(2%Z, 1%Q); (4%Z, 5%Q)]) ∅
  = Err KeyError.
Proof.
  apply (proj2 (empty_levels_and_missing_mean [2; 3; 4]%Z
                  (list_to_map [(2%Z, 1%Q); (4%Z, 5%Q)]) ∅) 3%Z).
  - apply list_elem_of_lookup. by exists 1.
  - reflexivity.
Defined.

(** ** C10: at most one group per level *)

(** C10. When the first loop has run for the first [n] sorted levels,
    there are at most [n] groups, so never more groups than levels; a
    step adds one group exactly when no group accepts its level and none
    otherwise.  Hence with every mean present and 26 levels at most, no
    index into [ascii_lowercase] is out of range: the function returns. *)
Theorem at_most_one_group_per_level
    (levels : list Z) (means_dict : gmap Z Q) (reject_pairs : gmap (Z * Z) bool) :
  (∀ sorted n st,
     sort_rates means_dict levels = Ok sorted →
     pass1 elements reject_pairs (State [] (empty_letters levels)) (take n sorted)
     = Ok st →
     length (letter_sets st) ≤ n
     ∧ length (letter_sets st) ≤ length levels
     ∧ ∀ r st', r ∈ levels → place elements reject_pairs st r = Ok st' →
         length (letter_sets st')
         = length (letter_sets st)
           + (if existsb (compatible elements reject_pairs r) (letter_sets st)
              then 0 else 1))
  ∧ ((∀ r, r ∈ levels → is_Some (means_dict !! r)) → length levels ≤ 26 →
     ∃ m, cld_from_tukey levels means_dict reject_pairs = Ok m).
Proof.
  split.
  - intros sorted n st Hsort Hrun.
    pose proof (take_sorted_levels _ _ _ n Hsort) as Hl.
    pose proof (pass1_inv_run elements reject_pairs elements_iterates
                  levels (take n sorted) st Hl Hrun) as Hinv.
    pose proof (inv_count _ _ _ Hinv) as Hcount.
    rewrite length_take in Hcount.
    rewrite (Permutation_length (sort_rates_perm _ _ _ Hsort)) in Hcount.
    split_and!; [lia..|].
    intros r st' Hr Hplace.
    eapply (place_inv elements reject_pairs elements_iterates) in Hplace
      as [-> _]; [|done..].
    apply placed_sets_length.
  - apply cld_from_tukey_iter_total;
      [apply elements_iterates | apply remove_dups_iterates].
Qed.

Lemma at_most_one_group_per_level_witness :
  ∃ m, cld_from_tukey ex_levels ex_means ex_reject = Ok m.
Proof.
  apply (proj2 (at_most_one_group_per_level ex_levels ex_means ex_reject)).
  - apply Forall_forall. by apply (bool_decide_unpack _).
  - simpl. lia.
Defined.

(** ** C3: every level receives a letter *)

(** C3 fails as stated: the levels are not empty and each has a mean, and
    the function raises [IndexError] (the twenty-seventh group asks for
    [ascii_lowercase[26]]) where the claim promises a mapping. *)
Lemma twenty_seven_groups_raise :
  many_levels ≠ []
  ∧ Forall (λ r, is_Some (many_means !! r)) many_levels
  ∧ consistent many_reject
  ∧ cld_from_tukey many_levels many_means many_reject = Err IndexError.
Proof.
  split_and!.
  - discriminate.
  - apply (bool_decide_unpack _). vm_compute. exact I.
  - apply (bool_decide_unpack _). vm_compute. exact I.
  - vm_compute. reflexivity.
Qed.

(** C3, amended. With every mean present and 26 levels at most, the
    function returns a mapping; and whenever it returns a mapping, every
    input level is a key of it, and the keys are the input levels, each
    with a string of one letter at least. *)
Theorem every_level_receives_a_letter
    (levels : list Z) (means_dict : gmap Z Q) (reject_pairs : gmap (Z * Z) bool) :
  ((∀ r, r ∈ levels → is_Some (means_dict !! r)) → length levels ≤ 26 →
   ∃ m, cld_from_tukey levels means_dict reject_pairs = Ok m)
  ∧ ∀ m, cld_from_tukey levels means_dict reject_pairs = Ok m →
      (∀ r, r ∈ levels → ∃ str, m !! r = Some str ∧ str ≠ [])
      ∧ (∀ r, is_Some (m !! r) → r ∈ levels).
Proof.
  split.
  - apply cld_from_tukey_iter_total;
      [apply elements_iterates | apply remove_dups_iterates].
  - intros m Hm.
    apply (cld_from_tukey_iter_Ok _ _ _ elements_iterates remove_dups_iterates)
      in Hm as (sorted & st & _ & _ & _ & [[Hkeys _ Hne] _]).
    split.
    + intros r [str Hstr]%Hkeys. exists str. split; [done|]. by eapply Hne.
    + intros r. by apply Hkeys.
Qed.

Lemma every_level_receives_a_letter_witness :
  ∃ m, cld_from_tukey ex_levels ex_means ex_reject = Ok m
    ∧ ∀ r, r ∈ ex_levels → ∃ str, m !! r = Some str ∧ str ≠ [].
Proof.
  destruct (every_level_receives_a_letter ex_levels ex_means ex_reject)
    as [Htotal Hkeys].
  destruct Htotal as [m Hm].
  - apply Forall_forall. by apply (bool_decide_unpack _).
  - simpl. lia.
  - exists m. split; [exact Hm|]. apply (Hkeys m Hm).
Defined.

(** ** C6: the letters of a level are distinct and in alphabet order *)

(** C6. Every string of the mapping returned holds distinct lowercase
    letters in the order of the alphabet; the final normalisation maps it
    to itself, and maps to it every string that holds the same letters,
    in whatever order and however often. *)
Theorem returned_letters_are_normal
    (levels : list Z) (means_dict : gmap Z Q) (reject_pairs : gmap (Z * Z) bool)
    (m : gmap Z (list ascii)) (r : Z) (str : list ascii) :
  cld_from_tukey levels means_dict reject_pairs = Ok m →
  m !! r = Some str →
  NoDup str
  ∧ StronglySorted alpha_lt str
  ∧ normalize remove_dups str = Ok str
  ∧ ∀ str', (∀ c, c ∈ str' ↔ c ∈ str) → normalize remove_dups str' = Ok str.
Proof.
  intros Hm Hr.
  apply (cld_from_tukey_iter_Ok _ _ _ elements_iterates remove_dups_iterates)
    in Hm as (sorted & st & _ & _ & _ & [[Hkeys _ _] Hnormal]).
  destruct (Hnormal r) as (str' & Hstr' & Hn).
  { apply Hkeys. by rewrite Hr. }
  rewrite Hr in Hstr'. injection Hstr' as <-.
  pose proof (normalize_fixed _ remove_dups_iterates _ Hn) as Hfix.
  split_and!.
  - by apply normal_NoDup.
  - apply Hn.
  - done.
  - intros str' Hstr'. rewrite <- Hfix.
    by apply normalize_chars; [apply remove_dups_iterates..|].
Qed.

Lemma returned_letters_are_normal_witness :
  normalize remove_dups ["c"; "a"; "c"]%char = Ok ["a"; "c"]%char.
Proof.
  apply (returned_letters_are_normal ex_levels ex_means ex_reject
           ex_letters 2%Z ["a"; "c"]%char eq_refl eq_refl).
  intros c. rewrite !elem_of_cons. tauto.
Defined.

(** ** C5: no significant pair at all *)

Lemma single_letter (a : ascii) (str : list ascii) :
  NoDup str → str ≠ [] → (∀ c, c ∈ str → c = a) → str = [a].
Proof.
  intros Hnd Hne Hall. destruct str as [|c [|c' str]]; [done| |].
  - f_equal. apply Hall. by left.
  - exfalso. apply NoDup_cons in Hnd as [Hc _]. apply Hc.
    rewrite (Hall c), (Hall c'); [by left | by right; left | by left].
Qed.

Lemma two_levels_middle (l1 l2 : list Z) (x rr : Z) :
  rr ∈ l1 → two_levels (l1 ++ x :: l2) x rr.
Proof.
  intros Hrr%singleton_submseteq_l. unfold two_levels.
  assert ([x; rr] ≡ₚ [rr] ++ [x]) as -> by apply Permutation_swap.
  apply (submseteq_app [rr] l1 [x] (x :: l2)); [done|].
  apply submseteq_skip, submseteq_nil_l.
Qed.

Lemma first_pass_one_group (levels sorted : list Z) (reject_pairs : gmap (Z * Z) bool) :
  (∀ a b, two_levels levels a b → significant reject_pairs a b = false) →
  sorted ≡ₚ levels →
  ∃ st, pass1 elements reject_pairs (State [] (empty_letters levels)) sorted = Ok st
    ∧ pass1_inv levels sorted st ∧ length (letter_sets st) ≤ 1.
Proof.
  intros Hnonsig Hsorted.
  apply (for_each_total_seen _
    (λ seen st, pass1_inv levels seen st ∧ length (letter_sets st) ≤ 1)).
  - intros l1 x l2 [sets lm] Heq [Hinv Hone]. simpl in Hone.
    assert (x ∈ levels) as Hx.
    { rewrite <- Hsorted, Heq. apply elem_of_app. right. by left. }
    destruct (proj2 (inv_keys _ _ _ Hinv x) Hx) as [cur Hcur]. simpl in Hcur.
    assert (length (placed_sets elements reject_pairs x sets) ≤ 1) as Hlen.
    { rewrite placed_sets_length.
      destruct (accepts elements reject_pairs x sets) eqn:Hacc; [lia|].
      destruct sets as [|s rest]; [simpl; lia|]. exfalso.
      simpl in Hacc. apply orb_false_iff in Hacc as [Hs _].
      apply not_true_iff_false in Hs. apply Hs.
      apply (compatible_true _ _ elements_iterates). intros rr Hrr.
      apply Hnonsig. unfold two_levels. rewrite <- Hsorted, Heq.
      apply two_levels_middle.
      apply (inv_members _ _ _ Hinv s); [by left | done]. }
    eexists. split; [apply (place_eq _ _ _ _ _ _ Hcur); lia|].
    split; [|exact Hlen].
    apply pass1_inv_placed; [apply elements_iterates | done | done | lia].
  - split; [apply pass1_inv_init | simpl; lia].
Qed.

(** C5. When every level has a mean and the lookup is false for every
    two of the levels, the function returns, with more than 26 levels as
    well, and the mapping gives every level the string "a"; its keys are
    the levels. *)
Theorem nonsignificant_levels_receive_a
    (levels : list Z) (means_dict : gmap Z Q) (reject_pairs : gmap (Z * Z) bool) :
  (∀ r, r ∈ levels → is_Some (means_dict !! r)) →
  (∀ a b, two_levels levels a b → significant reject_pairs a b = false) →
  ∃ m, cld_from_tukey levels means_dict reject_pairs = Ok m
    ∧ (∀ r, r ∈ levels → m !! r = Some ["a"%char])
    ∧ (∀ r, is_Some (m !! r) → r ∈ levels).
Proof.
  intros Hmeans Hnonsig. unfold cld_from_tukey, cld_from_tukey_iter.
  destruct (sort_rates_total _ _ Hmeans) as [sorted Hsort]. rewrite Hsort. simpl.
  pose proof (sort_rates_perm _ _ _ Hsort) as Hperm.
  destruct (first_pass_one_group levels sorted reject_pairs Hnonsig Hperm)
    as (st & -> & Hinv & Hone).
  simpl.
  destruct (pass2_total elements reject_pairs levels
              (length (letter_sets st)) (letter_sets st) 0 (letters_map st))
    as (lm & -> & Hinv2).
  { by apply (pass1_letters_inv levels sorted). }
  { simpl. lia. }
  { lia. }
  simpl.
  destruct (final_total remove_dups remove_dups_iterates levels _ lm Hinv2)
    as (m & -> & [[Hkeys Hlet Hne] Hnormal]).
  exists m. split_and!; [done| |by intros r ?%Hkeys].
  intros r Hr. destruct (Hnormal r Hr) as (str & Hstr & Hn).
  rewrite Hstr. f_equal. apply single_letter.
  - by apply normal_NoDup.
  - by eapply Hne.
  - intros c Hc. destruct (Hlet r str c Hstr Hc) as (i & Hi & Hget).
    assert (i = 0) as -> by lia. by injection Hget as <-.
Qed.

Lemma nonsignificant_levels_receive_a_witness :
  ∃ m, cld_from_tukey ex_levels ex_means ∅ = Ok m
    ∧ ∀ r, r ∈ ex_levels → m !! r = Some ["a"%char].
Proof.
  destruct (nonsignificant_levels_receive_a ex_levels ex_means ∅)
    as (m & Hm & Ha & _).
  - apply Forall_forall. by apply (bool_decide_unpack _).
  - intros a b _. reflexivity.
  - by exists m.
Defined.

(** ** C8: determinism *)

Lemma geb_total (k1 k2 : Q) : Qle_bool k2 k1 = true ∨ Qle_bool k1 k2 = true.
Proof.
  rewrite !Qle_bool_iff. destruct (Qlt_le_dec k1 k2) as [Hlt|Hle]; [|by left].
  right. by apply Qlt_le_weak.
Qed.

Lemma geb_trans (k1 k2 k3 : Q) :
  Qle_bool k2 k1 = true → Qle_bool k3 k2 = true → Qle_bool k3 k1 = true.
Proof. rewrite !Qle_bool_iff. intros H12 H23. by eapply Qle_trans. Qed.

Lemma sort_rates_Ok (means_dict : gmap Z Q) (levels sorted : list Z) :
  sort_rates means_dict levels = Ok sorted →
  ∃ kl, Forall (λ p, means_dict !! p.2 = Some p.1) kl
    ∧ kl.*2 = levels
    ∧ sorted = (sort_pairs (λ k1 k2, Qle_bool k2 k1) kl).*2.
Proof.
  intros (kl & Hkl & ->)%py_sorted_Ok. exists kl. split_and!; [|by eapply with_keys_snd|done].
  eapply Forall_impl; [by eapply with_keys_keys|].
  intros p. simpl. unfold dict_get. destruct (means_dict !! p.2); naive_solver.
Qed.

Lemma filter_same_mean (means_dict : gmap Z Q) (q : Q) (kl : list (Q * Z)) :
  Forall (λ p, means_dict !! p.2 = Some p.1) kl →
  filter (λ r, same_mean means_dict q r = true) kl.*2
  = (filter (λ p : Q * Z, Qeq_bool p.1 q = true) kl).*2.
Proof.
  induction 1 as [|p kl Hp _ IH]; [done|].
  rewrite fmap_cons, !filter_cons, IH.
  assert (same_mean means_dict q p.2 = Qeq_bool p.1 q) as Heq.
  { unfold same_mean. by rewrite Hp. }
  destruct (decide (same_mean means_dict q p.2 = true)),
    (decide (Qeq_bool p.1 q = true)); try done; congruence.
Qed.

Lemma sorted_mean_ge (means_dict : gmap Z Q) (kl : list (Q * Z)) :
  Forall (λ p, means_dict !! p.2 = Some p.1) kl →
  StronglySorted (key_le (λ k1 k2, Qle_bool k2 k1)) kl →
  StronglySorted (mean_ge means_dict) kl.*2.
Proof.
  intros Hkeys Hs. induction Hs as [|p kl _ IH Hp]; [constructor|].
  apply Forall_cons in Hkeys as [Hpk Hkeys]. rewrite fmap_cons.
  constructor; [by apply IH|].
  apply Forall_fmap, Forall_forall. intros p' Hp'. simpl.
  eapply Forall_forall in Hp; [|done]. eapply Forall_forall in Hkeys; [|done].
  exists p.1, p'.1. split_and!; [done..|].
  by apply Qle_bool_iff.
Qed.

(** The sorted levels: the levels, by decreasing means, those of equal
    means in their input order. *)
Lemma sort_rates_stable (means_dict : gmap Z Q) (levels sorted : list Z) :
  sort_rates means_dict levels = Ok sorted →
  sorted ≡ₚ levels
  ∧ StronglySorted (mean_ge means_dict) sorted
  ∧ ∀ q, filter (λ r, same_mean means_dict q r = true) sorted
         = filter (λ r, same_mean means_dict q r = true) levels.
Proof.
  intros Hsort. split; [by eapply sort_rates_perm|].
  apply sort_rates_Ok in Hsort as (kl & Hkeys & <- & ->).
  assert (Forall (λ p, means_dict !! p.2 = Some p.1)
            (sort_pairs (λ k1 k2, Qle_bool k2 k1) kl)) as Hkeys'.
  { by rewrite sort_pairs_perm. }
  split.
  - apply sorted_mean_ge; [done|].
    apply sort_pairs_sorted; [intros; apply geb_total | apply geb_trans].
  - intros q. rewrite !filter_same_mean by done. f_equal.
    apply (sort_pairs_stable _ (λ p, Qeq_bool p.1 q)).
    intros p p' Hp Hp'. apply Qle_bool_iff.
    apply Qeq_bool_iff in Hp, Hp'. rewrite Hp, Hp'. apply Qle_refl.
Qed.

(** C8. The mapping returned (or the exception raised) is a function of
    the levels, the means and the recorded pairs alone: it is the same
    for any two orders in which the iterations over the sets of levels
    and over the sets of characters may yield their elements, so it is
    that of [cld_from_tukey]; and the sort of the first line is fixed by
    these inputs: it yields the levels by decreasing means, those of
    equal means in their input order. *)
Theorem cld_from_tukey_is_deterministic
    (iter1 iter2 : gset Z → list Z) (chars1 chars2 : list ascii → list ascii)
    (levels : list Z) (means_dict : gmap Z Q) (reject_pairs : gmap (Z * Z) bool) :
  iterates_levels iter1 → iterates_levels iter2 →
  iterates_chars chars1 → iterates_chars chars2 →
  cld_from_tukey_iter iter1 chars1 reject_pairs levels means_dict
  = cld_from_tukey_iter iter2 chars2 reject_pairs levels means_dict
  ∧ cld_from_tukey_iter iter1 chars1 reject_pairs levels means_dict
    = cld_from_tukey levels means_dict reject_pairs
  ∧ ∀ sorted, sort_rates means_dict levels = Ok sorted →
      sorted ≡ₚ levels
      ∧ StronglySorted (mean_ge means_dict) sorted
      ∧ ∀ q, filter (λ r, same_mean means_dict q r = true) sorted
             = filter (λ r, same_mean means_dict q r = true) levels.
Proof.
  intros H1 H2 Hc1 Hc2. split_and!.
  - by apply cld_from_tukey_iter_orders.
  - apply cld_from_tukey_iter_orders;
      [done | apply elements_iterates | done | apply remove_dups_iterates].
  - apply sort_rates_stable.
Qed.

Lemma cld_from_tukey_is_deterministic_witness :
  cld_from_tukey_iter (λ s, reverse (elements s)) (λ str, reverse (remove_dups str))
    ex_reject ex_levels ex_means
  = cld_from_tukey ex_levels ex_means ex_reject.
Proof.
  apply (cld_from_tukey_is_deterministic
           (λ s, reverse (elements s)) elements
           (λ str, reverse (remove_dups str)) remove_dups
           ex_levels ex_means ex_reject).
  - intros s. apply reverse_Permutation.
  - apply elements_iterates.
  - intros str. apply reverse_Permutation.
  - apply remove_dups_iterates.
Defined.

(** * What the letters do guarantee

    The levels that share a letter need not be pairwise non-significant
    (see C1).  What holds: a level that holds the letter of a group after
    the first pass is a member of the group, and a level that holds it in
    the end is a member or was accepted by the check of the second pass,
    so it is non-significant with every member of the group. *)

Lemma getitem_inj (i j : nat) (c : ascii) :
  getitem i = Ok c → getitem j = Ok c → i = j.
Proof. rewrite <- !index_getitem. congruence. Qed.

Lemma lookup_placed_sets (reject_pairs : gmap (Z * Z) bool) (r : Z)
    (sets : list (gset Z)) (i : nat) (s' : gset Z) :
  placed_sets elements reject_pairs r sets !! i = Some s' →
  (∃ s, sets !! i = Some s ∧ s' = join elements reject_pairs r s)
  ∨ (i = length sets ∧ accepts elements reject_pairs r sets = false ∧ s' = {[r]}).
Proof.
  unfold placed_sets. intros Hi. apply lookup_app_Some in Hi as [Hi|[Hlen Hi]].
  - left. rewrite list_lookup_fmap in Hi.
    destruct (sets !! i) as [s|]; [|done]. exists s. by injection Hi as <-.
  - right. rewrite length_fmap in Hlen, Hi.
    destruct (accepts elements reject_pairs r sets); [done|].
    destruct (i - length sets) as [|n] eqn:Hn; [|done].
    injection Hi as <-. split_and!; [lia | done..].
Qed.

Lemma subseteq_join (reject_pairs : gmap (Z * Z) bool) (r x : Z) (s : gset Z) :
  x ∈ s → x ∈ join elements reject_pairs r s.
Proof. unfold join. case_match; set_solver. Qed.

Lemma members_hold_placed (reject_pairs : gmap (Z * Z) bool)
    (levels seen : list Z) (sets : list (gset Z)) (lm : gmap Z (list ascii))
    (r : Z) (cur : list ascii) :
  pass1_inv levels seen (State sets lm) → members_hold sets lm →
  lm !! r = Some cur →
  members_hold (placed_sets elements reject_pairs r sets)
    (<[r := cur ++ placed_letters elements reject_pairs r sets]> lm).
Proof.
  intros Hinv Hold Hcur i s' c x str Hi Hget Hx Hc.
  assert (∀ str', lm !! x = Some str' → c ∈ str' → x ∈ s') as Hkept.
  { intros str' Hy Hc'.
    destruct (inv_letters _ _ _ Hinv x str' c Hy Hc') as (i' & Hi' & Hget').
    simpl in Hi'. assert (i' = i) as -> by by eapply getitem_inj.
    apply lookup_placed_sets in Hi as [(s & Hs & ->)|(-> & _)]; [|lia].
    apply subseteq_join. by eapply Hold. }
  destruct (decide (r = x)) as [<-|Hne].
  - rewrite lookup_insert_eq in Hx. injection Hx as <-.
    apply elem_of_app in Hc as [Hc|Hc].
    { by eapply Hkept. }
    apply lookup_placed_sets in Hi as [(s & Hs & ->)|(-> & Hacc & ->)].
    + unfold placed_letters in Hc.
      destruct (accepts elements reject_pairs r sets) eqn:Hacc.
      * apply elem_of_accepted in Hc as (j & sj & Hj & Hcomp & Hgetj).
        simpl in Hgetj. assert (j = i) as -> by by eapply getitem_inj.
        rewrite Hs in Hj. injection Hj as <-.
        unfold join. rewrite Hcomp. set_solver.
      * apply lookup_lt_Some in Hs. exfalso. unfold letter_at in Hc.
        destruct (ascii_lowercase !! length sets) as [c'|] eqn:Hc';
          [|by apply elem_of_nil in Hc].
        apply list_elem_of_singleton in Hc as ->.
        apply getitem_Ok in Hc'.
        assert (length sets = i) by by eapply getitem_inj. lia.
    + by apply elem_of_singleton.
  - rewrite lookup_insert_ne in Hx by done.
    by eapply Hkept.
Qed.

Lemma pass1_members_hold (reject_pairs : gmap (Z * Z) bool)
    (levels l : list Z) (st : state) :
  (∀ r, r ∈ l → r ∈ levels) →
  pass1 elements reject_pairs (State [] (empty_letters levels)) l = Ok st →
  pass1_inv levels l st ∧ members_hold (letter_sets st) (letters_map st).
Proof.
  intros Hl.
  apply (for_each_inv_seen _
    (λ seen st, pass1_inv levels seen st
                ∧ members_hold (letter_sets st) (letters_map st))).
  - intros l1 x l2 [sets lm] s' -> [Hinv Hold] Hx. simpl in Hold.
    assert (x ∈ levels) as Hxl by (apply Hl, elem_of_app; right; by left).
    destruct (proj2 (inv_keys _ _ _ Hinv x) Hxl) as [cur Hcur]. simpl in Hcur.
    assert (length (placed_sets elements reject_pairs x sets) ≤ 26) as Hlen.
    { eapply (place_Ok_bound elements);
        [done | apply (inv_bound _ _ _ Hinv) | done]. }
    rewrite (place_eq _ _ _ _ _ _ Hcur Hlen) in Hx.
    injection Hx as <-. split.
    + apply pass1_inv_placed; [apply elements_iterates | done..].
    + simpl. by eapply members_hold_placed.
  - split; [apply pass1_inv_init|]. by intros i s c r str [=].
Qed.

Lemma backfill_holders (reject_pairs : gmap (Z * Z) bool) (sets : list (gset Z))
    (i : nat) (s : gset Z) (letter : ascii) (lm lm' : gmap Z (list ascii)) (r : Z) :
  sets !! i = Some s → getitem i = Ok letter →
  holders_checked reject_pairs sets lm →
  backfill elements reject_pairs s letter lm r = Ok lm' →
  holders_checked reject_pairs sets lm'.
Proof.
  intros Hs Hget Hold Hback.
  destruct (lm !! r) as [cur|] eqn:Hcur.
  2: { unfold backfill, dict_get in Hback. by rewrite Hcur in Hback. }
  rewrite (backfill_eq _ _ _ _ _ _ _ Hcur) in Hback. injection Hback as <-.
  destruct (bool_decide (letter ∈ cur)); [done|].
  destruct (compatible elements reject_pairs r s) eqn:Hcomp; [|done].
  intros i' s' c x str Hs' Hget' Hx Hc.
  destruct (decide (r = x)) as [<-|Hne].
  - rewrite lookup_insert_eq in Hx. injection Hx as <-.
    apply elem_of_app in Hc as [Hc|Hc%list_elem_of_singleton].
    + by eapply Hold.
    + subst c. assert (i' = i) as -> by by eapply getitem_inj.
      right. congruence.
  - rewrite lookup_insert_ne in Hx by done. by eapply Hold.
Qed.

Lemma pass2_holders (reject_pairs : gmap (Z * Z) bool) (levels : list Z)
    (sets rest : list (gset Z)) :
  ∀ (pre : list (gset Z)) (lm lm' : gmap Z (list ascii)),
  sets = pre ++ rest →
  holders_checked reject_pairs sets lm →
  pass2 elements reject_pairs levels (length pre) rest lm = Ok lm' →
  holders_checked reject_pairs sets lm'.
Proof.
  induction rest as [|s rest IH]; intros pre lm lm' Hsets Hold Hrun;
    simpl in Hrun.
  - by injection Hrun as <-.
  - inv_bind Hrun. rename x into letter, x0 into lm1.
    apply (IH (pre ++ [s]) lm1 lm').
    + by rewrite <- app_assoc.
    + revert Hx0. apply for_each_inv; [|done].
      intros lm0 r lm0' _ Hlm0. apply (backfill_holders _ sets (length pre)); [|done..].
      rewrite Hsets. by apply list_lookup_middle.
    + rewrite length_app. simpl.
      by replace (length pre + 1) with (S (length pre)) by lia.
Qed.

Lemma normalize_level_holders (reject_pairs : gmap (Z * Z) bool)
    (sets : list (gset Z)) (lm lm' : gmap Z (list ascii)) (r : Z) :
  holders_checked reject_pairs sets lm →
  normalize_level remove_dups lm r = Ok lm' →
  holders_checked reject_pairs sets lm'.
Proof.
  intros Hold Hn. unfold normalize_level in Hn. inv_bind Hn.
  rename x into cur, x0 into out. injection Hn as <-.
  assert (lm !! r = Some cur) as Hcur.
  { unfold dict_get in Hx. by destruct (lm !! r); simplify_eq. }
  apply (normalize_perm _ remove_dups_iterates) in Hx0.
  intros i s c x str Hs Hget Hlook Hc.
  destruct (decide (r = x)) as [<-|Hne].
  - rewrite lookup_insert_eq in Hlook. injection Hlook as <-.
    rewrite Hx0, elem_of_remove_dups in Hc. by eapply Hold.
  - rewrite lookup_insert_ne in Hlook by done. by eapply Hold.
Qed.

(** X1. After the first pass, two distinct levels that share a letter are
    members of one group: the lookup is false for them in one order at
    least, and in both when the record is consistent. *)
Theorem first_pass_letters_are_sound
    (levels : list Z) (means_dict : gmap Z Q) (reject_pairs : gmap (Z * Z) bool)
    (sorted : list Z) (st : state) (a b : Z) (stra strb : list ascii) (c : ascii) :
  sort_rates means_dict levels = Ok sorted →
  pass1 elements reject_pairs (State [] (empty_letters levels)) sorted = Ok st →
  letters_map st !! a = Some stra → letters_map st !! b = Some strb →
  c ∈ stra → c ∈ strb → a ≠ b →
  (∃ s, s ∈ letter_sets st ∧ a ∈ s ∧ b ∈ s)
  ∧ (significant reject_pairs a b = false ∨ significant reject_pairs b a = false)
  ∧ (consistent reject_pairs → significant reject_pairs a b = false).
Proof.
  intros Hsort Hrun Ha Hb Hca Hcb Hab.
  assert (∀ r, r ∈ sorted → r ∈ levels) as Hl.
  { intros r. by rewrite (sort_rates_perm _ _ _ Hsort). }
  destruct (pass1_members_hold _ _ _ _ Hl Hrun) as [Hinv Hold].
  destruct (inv_letters _ _ _ Hinv a stra c Ha Hca) as (i & Hi & Hget).
  destruct (lookup_lt_is_Some_2 _ _ Hi) as [s Hs].
  assert (a ∈ s) as Has by by eapply Hold.
  assert (b ∈ s) as Hbs by by eapply Hold.
  assert (s ∈ letter_sets st) as Hin by by eapply list_elem_of_lookup_2.
  split_and!.
  - by exists s.
  - assert (Forall (pairwise (checked reject_pairs)) (letter_sets st)) as Hpw.
    { eapply (pass1_pairwise elements reject_pairs elements_iterates);
        [| |exact Hl|exact Hrun].
      - by intros x y [?|?]; [right|left].
      - intros x y Hxy. by left. }
    eapply Forall_forall in Hpw; [|exact Hin]. by apply Hpw.
  - intros Hc.
    assert (Forall (pairwise (nonsig reject_pairs)) (letter_sets st)) as Hpw.
    { eapply (pass1_pairwise elements reject_pairs elements_iterates);
        [| |exact Hl|exact Hrun].
      - intros x y Hxy. unfold nonsig. by rewrite significant_sym.
      - by intros x y Hxy. }
    eapply Forall_forall in Hpw; [|exact Hin]. by apply Hpw.
Qed.

Lemma first_pass_letters_are_sound_witness :
  significant ex_reject 2 6 = false ∨ significant ex_reject 6 2 = false.
Proof.
  apply (first_pass_letters_are_sound ex_levels ex_means ex_reject ex_levels
           (State [{[2; 6]}; {[4; 6]}; {[8]}]%Z
              (list_to_map [(2%Z, ["a"]%char); (4%Z, ["b"]%char);
                            (6%Z, ["a"; "b"]%char); (8%Z, ["c"]%char)]))
           2%Z 6%Z ["a"]%char ["a"; "b"]%char "a"%char).
  - vm_compute. reflexivity.
  - vm_compute. reflexivity.
  - vm_compute. reflexivity.
  - vm_compute. reflexivity.
  - by left.
  - by left.
  - discriminate.
Defined.

(** X2. In the mapping returned, for a level that holds the letter of a
    group and every other member of this group as the first pass left
    it, the lookup is false in one order of its arguments at least; it is
    false with the level first when the level is not a member of the
    group (the second pass gave it the letter); and it is false in both
    orders when the record is consistent.  Nothing relates two levels
    that hold the letter without being members. *)
Theorem returned_letters_agree_with_group_members
    (levels : list Z) (means_dict : gmap Z Q) (reject_pairs : gmap (Z * Z) bool)
    (m : gmap Z (list ascii)) :
  cld_from_tukey levels means_dict reject_pairs = Ok m →
  ∃ sorted st,
    sort_rates means_dict levels = Ok sorted
    ∧ pass1 elements reject_pairs (State [] (empty_letters levels)) sorted = Ok st
    ∧ ∀ i s c r str rr,
        letter_sets st !! i = Some s → getitem i = Ok c →
        m !! r = Some str → c ∈ str → rr ∈ s → rr ≠ r →
        (significant reject_pairs r rr = false
         ∨ significant reject_pairs rr r = false)
        ∧ (r ∉ s → significant reject_pairs r rr = false)
        ∧ (consistent reject_pairs →
           significant reject_pairs r rr = false
           ∧ significant reject_pairs rr r = false).
Proof.
  intros Hm. unfold cld_from_tukey, cld_from_tukey_iter in Hm. inv_bind Hm.
  rename x into sorted, x0 into st, x1 into lm, Hx into Hsort,
    Hx0 into Hpass1, Hx1 into Hpass2.
  exists sorted, st. split_and!; [done..|].
  assert (∀ r, r ∈ sorted → r ∈ levels) as Hl.
  { intros r. by rewrite (sort_rates_perm _ _ _ Hsort). }
  destruct (pass1_members_hold _ _ _ _ Hl Hpass1) as [Hinv Hold].
  assert (holders_checked reject_pairs (letter_sets st) m) as Hhold.
  { revert Hm. apply for_each_inv.
    - intros lm0 r lm0' _. apply normalize_level_holders.
    - apply (pass2_holders _ levels _ (letter_sets st) [] (letters_map st));
        [done| |done].
      intros i s c r str Hs Hget Hr Hc. left. by eapply Hold. }
  intros i s c r str rr Hs Hget Hr Hc Hrr Hne.
  assert (s ∈ letter_sets st) as Hin by by eapply list_elem_of_lookup_2.
  destruct (Hhold i s c r str Hs Hget Hr Hc) as [Hmem|Hcomp].
  - split_and!.
    + assert (Forall (pairwise (checked reject_pairs)) (letter_sets st)) as Hpw.
      { eapply (pass1_pairwise elements reject_pairs elements_iterates);
          [| |exact Hl|exact Hpass1].
        - by intros x y [?|?]; [right|left].
        - intros x y Hxy. by left. }
      eapply Forall_forall in Hpw; [|exact Hin]. apply Hpw; done.
    + done.
    + intros Hc'.
      assert (Forall (pairwise (nonsig reject_pairs)) (letter_sets st)) as Hpw.
      { eapply (pass1_pairwise elements reject_pairs elements_iterates);
          [| |exact Hl|exact Hpass1].
        - intros x y Hxy. unfold nonsig. by rewrite significant_sym.
        - by intros x y Hxy. }
      eapply Forall_forall in Hpw; [|exact Hin]. split; apply Hpw; done.
  - pose proof (proj1 (compatible_true _ _ elements_iterates r s) Hcomp rr Hrr)
      as Hsig.
    split_and!; [by left | done |].
    intros Hc'. split; [done|]. by rewrite significant_sym.
Qed.

Lemma returned_letters_agree_with_group_members_witness :
  ∃ sorted st,
    sort_rates ex_means ex_levels = Ok sorted
    ∧ pass1 elements ex_reject (State [] (empty_letters ex_levels)) sorted = Ok st.
Proof.
  destruct (returned_letters_agree_with_group_members ex_levels ex_means
              ex_reject ex_letters eq_refl) as (sorted & st & Hsort & Hrun & _).
  by exists sorted, st.
Defined.

(** The scenario of the specification: means 10, 8, 6, 4 and only the
    pairs (2, 6), (2, 8) and (4, 8) significantly different.  The first
    pass founds {2, 4} and {6, 8}; the second pass adds nothing: 6 and 8
    are significantly different from 2, and 2 and 4 from a member of
    {6, 8}. *)
Theorem scenario_of_the_specification :
  cld_from_tukey [2; 4; 6; 8]%Z
    (list_to_map [(2%Z, 10%Q); (4%Z, 8%Q); (6%Z, 6%Q); (8%Z, 4%Q)])
    (list_to_map [((2, 6)%Z, true); ((2, 8)%Z, true); ((4, 8)%Z, true)])
  = Ok (list_to_map [(2%Z, ["a"]%char); (4%Z, ["a"]%char);
                     (6%Z, ["b"]%char); (8%Z, ["b"]%char)]).
Proof. vm_compute. reflexivity. Qed.

(** * The significance codes ([sig_code]) *)

Lemma float_le_trans (x y z : pyfloat) :
  float_le x y = true → float_le y z = true → float_le x z = true.
Proof.
  destruct x as [a| | |], y as [b| | |], z as [c| | |]; simpl; try done.
  rewrite !Qle_bool_iff. apply Qle_trans.
Qed.

Lemma lit_0_01_le_lit_0_05 : float_le lit_0_01 lit_0_05 = true.
Proof. reflexivity. Qed.

(** X3. [sig_code] returns one of the three codes, and the codes follow
    the order of the p-values: when [p <= q], a [q] coded "**" has [p]
    coded "**" and a [q] coded "**" or "*" has [p] coded so; the bounds
    0.01 and 0.05 are included; a NaN, which compares false, is coded
    "ns". *)
Theorem sig_code_follows_the_order (p q : pyfloat) :
  float_le p q = true →
  (sig_code q = ["*"; "*"]%char → sig_code p = ["*"; "*"]%char)
  ∧ (sig_code q ≠ ["n"; "s"]%char → sig_code p ≠ ["n"; "s"]%char)
  ∧ (sig_code p = ["*"; "*"]%char ∨ sig_code p = ["*"]%char
     ∨ sig_code p = ["n"; "s"]%char)
  ∧ sig_code lit_0_01 = ["*"; "*"]%char
  ∧ sig_code lit_0_05 = ["*"]%char
  ∧ sig_code NaN = ["n"; "s"]%char.
Proof.
  intros Hpq. unfold sig_code.
  destruct (float_le q lit_0_01) eqn:Hq1.
  { rewrite (float_le_trans _ _ _ Hpq Hq1). split_and!; auto; done. }
  destruct (float_le q lit_0_05) eqn:Hq5.
  { rewrite (float_le_trans _ _ _ Hpq Hq5).
    destruct (float_le p lit_0_01); split_and!; auto; done. }
  destruct (float_le p lit_0_01), (float_le p lit_0_05); split_and!; auto; done.
Qed.

Lemma sig_code_follows_the_order_witness :
  sig_code (Finite (1 # 1000)) = ["*"; "*"]%char.
Proof.
  exact (proj1 (sig_code_follows_the_order (Finite (1 # 1000)) lit_0_01 eq_refl)
           eq_refl).
Defined.

(** * The recorded pairs of [main] *)

Section RecordedPairs.
Variable groupsunique : list Z.
Hypothesis groups_NoDup : NoDup groupsunique.

(** Every recorded pair comes from a triple of the loop. *)
Lemma record_pairs_origin (triples : list (nat * nat * bool))
    (rp : gmap (Z * Z) bool) :
  for_each (record_pair groupsunique) ∅ triples = Ok rp →
  ∀ a b v, rp !! (a, b) = Some v →
    ∃ i j, (i, j, v) ∈ triples
      ∧ groupsunique !! i = Some a ∧ groupsunique !! j = Some b.
Proof.
  apply (for_each_inv_seen _ (λ seen rp, ∀ a b v, rp !! (a, b) = Some v →
    ∃ i j, (i, j, v) ∈ seen
      ∧ groupsunique !! i = Some a ∧ groupsunique !! j = Some b)).
  - intros l1 [[i j] w] l2 rp0 rp1 _ Hrp0 Hstep a b v Hab.
    unfold record_pair, group_at in Hstep. simpl in Hstep.
    destruct (groupsunique !! i) as [g1|] eqn:Hi; [|done].
    destruct (groupsunique !! j) as [g2|] eqn:Hj; [|done].
    simpl in Hstep. injection Hstep as <-.
    destruct (decide ((g1, g2) = (a, b))) as [[= -> ->]|Hne].
    + rewrite lookup_insert_eq in Hab. injection Hab as ->.
      exists i, j. split; [|done]. apply elem_of_app. right. by left.
    + rewrite lookup_insert_ne in Hab by done.
      destruct (Hrp0 a b v Hab) as (i' & j' & Hin & Hi' & Hj').
      exists i', j'. split; [|done]. apply elem_of_app. by left.
  - intros a b v. by rewrite lookup_empty.
Qed.

(** With indices in range the loop returns. *)
Lemma record_pairs_total (triples : list (nat * nat * bool)) :
  (∀ i j v, (i, j, v) ∈ triples →
     i < length groupsunique ∧ j < length groupsunique) →
  ∃ rp, for_each (record_pair groupsunique) ∅ triples = Ok rp.
Proof.
  intros Hrange.
  destruct (for_each_total (record_pair groupsunique) (λ _, True) triples ∅)
    as (rp & Hrp & _); [|done|by exists rp].
  intros rp [[i j] v] Hin _. destruct (Hrange i j v Hin) as [Hi Hj].
  apply lookup_lt_is_Some_2 in Hi as [g1 Hg1], Hj as [g2 Hg2].
  unfold record_pair, group_at. simpl. rewrite Hg1, Hg2. by eexists.
Qed.

(** When no pair of indices comes twice, every triple is recorded with
    its flag. *)
Lemma record_pairs_value (triples : list (nat * nat * bool))
    (rp : gmap (Z * Z) bool) :
  NoDup triples.*1 →
  for_each (record_pair groupsunique) ∅ triples = Ok rp →
  ∀ i j v a b, (i, j, v) ∈ triples →
    groupsunique !! i = Some a → groupsunique !! j = Some b →
    rp !! (a, b) = Some v.
Proof.
  intros Hnd.
  apply (for_each_inv_seen _ (λ seen rp, ∀ i j v a b, (i, j, v) ∈ seen →
    groupsunique !! i = Some a → groupsunique !! j = Some b →
    rp !! (a, b) = Some v)).
  - intros l1 [[i0 j0] w] l2 rp0 rp1 Heq Hrp0 Hstep i j v a b Hin Hi Hj.
    unfold record_pair, group_at in Hstep. simpl in Hstep.
    destruct (groupsunique !! i0) as [g1|] eqn:Hi0; [|done].
    destruct (groupsunique !! j0) as [g2|] eqn:Hj0; [|done].
    simpl in Hstep. injection Hstep as <-.
    apply elem_of_app in Hin as [Hin|Hin%list_elem_of_singleton].
    + rewrite lookup_insert_ne; [by eapply Hrp0|].
      intros [= -> ->].
      assert (i0 = i) as -> by exact (NoDup_lookup _ _ _ _ groups_NoDup Hi0 Hi).
      assert (j0 = j) as -> by exact (NoDup_lookup _ _ _ _ groups_NoDup Hj0 Hj).
      rewrite Heq, fmap_app, fmap_cons in Hnd. simpl in Hnd.
      apply NoDup_app in Hnd as (_ & Hnotin & _).
      apply (Hnotin (i, j)); [|by left].
      apply list_elem_of_fmap. by exists (i, j, v).
    + injection Hin as -> -> ->. simplify_eq. apply lookup_insert_eq.
  - by intros i j v a b ?%elem_of_nil.
Qed.
End RecordedPairs.

Lemma recorded_pairs_one_order
    (groupsunique : list Z) (pairindices0 pairindices1 : list nat)
    (reject : list bool) (reject_pairs : gmap (Z * Z) bool) :
  NoDup groupsunique →
  (∀ i j v, (i, j, v) ∈ zip3 pairindices0 pairindices1 reject → i < j) →
  build_reject_pairs groupsunique pairindices0 pairindices1 reject
  = Ok reject_pairs →
  ∀ a b, is_Some (reject_pairs !! (a, b)) →
    a ≠ b ∧ a ∈ groupsunique ∧ b ∈ groupsunique
    ∧ reject_pairs !! (b, a) = None.
Proof.
  intros Hnd Hlt Hbuild a b [v Hab].
  destruct (record_pairs_origin _ _ _ Hbuild a b v Hab)
    as (i & j & Hin & Hi & Hj).
  pose proof (Hlt _ _ _ Hin) as Hij. split_and!.
  - intros ->. assert (i = j) by exact (NoDup_lookup _ _ _ _ Hnd Hi Hj). lia.
  - by eapply list_elem_of_lookup_2.
  - by eapply list_elem_of_lookup_2.
  - destruct (reject_pairs !! (b, a)) as [w|] eqn:Hba; [|done].
    destruct (record_pairs_origin _ _ _ Hbuild b a w Hba)
      as (i' & j' & Hin' & Hi' & Hj').
    pose proof (Hlt _ _ _ Hin') as Hij'.
    assert (i = j') by exact (NoDup_lookup _ _ _ _ Hnd Hi Hj').
    assert (j = i') by exact (NoDup_lookup _ _ _ _ Hnd Hj Hi'). lia.
Qed.

Lemma recorded_pairs_consistent
    (groupsunique : list Z) (pairindices0 pairindices1 : list nat)
    (reject : list bool) (reject_pairs : gmap (Z * Z) bool) :
  NoDup groupsunique →
  (∀ i j v, (i, j, v) ∈ zip3 pairindices0 pairindices1 reject → i < j) →
  build_reject_pairs groupsunique pairindices0 pairindices1 reject
  = Ok reject_pairs →
  consistent reject_pairs.
Proof.
  intros Hnd Hlt Hbuild. apply one_order_consistent. intros a b Hab.
  destruct (recorded_pairs_one_order _ _ _ _ _ Hnd Hlt Hbuild a b Hab)
    as (? & _ & _ & ?). done.
Qed.

(** X4. The pairs that [main] records from the output of the Tukey test:
    when the groups are distinct and every pair of indices has its first
    index below the second (an upper triangle), each recorded pair holds
    two distinct groups and its reverse is not recorded; so the record
    is consistent and the lookup of [cld_from_tukey] does not depend on
    the order of its arguments. *)
Theorem recorded_pairs_are_consistent
    (groupsunique : list Z) (pairindices0 pairindices1 : list nat)
    (reject : list bool) (reject_pairs : gmap (Z * Z) bool) :
  NoDup groupsunique →
  (∀ i j v, (i, j, v) ∈ zip3 pairindices0 pairindices1 reject → i < j) →
  build_reject_pairs groupsunique pairindices0 pairindices1 reject
  = Ok reject_pairs →
  (∀ a b, is_Some (reject_pairs !! (a, b)) →
     a ≠ b ∧ a ∈ groupsunique ∧ b ∈ groupsunique
     ∧ reject_pairs !! (b, a) = None)
  ∧ consistent reject_pairs
  ∧ ∀ a b, significant reject_pairs a b = significant reject_pairs b a.
Proof.
  intros Hnd Hlt Hbuild.
  pose proof (recorded_pairs_consistent _ _ _ _ _ Hnd Hlt Hbuild) as Hc.
  split_and!; [by eapply recorded_pairs_one_order|done|].
  intros a b. by apply significant_sym.
Qed.

Lemma recorded_pairs_are_consistent_witness :
  significant ex_reject 2 4 = significant ex_reject 4 2.
Proof.
  refine (proj2 (proj2 (recorded_pairs_are_consistent ex_levels
           [0; 0; 0; 1; 1; 2] [1; 2; 3; 2; 3; 3]
           [true; false; false; false; false; true] ex_reject _ _ _)) 2%Z 4%Z).
  - apply (bool_decide_unpack _). vm_compute. exact I.
  - intros i j v Hin.
    assert (Forall (λ t : nat * nat * bool, t.1.1 < t.1.2)
              (zip3 [0; 0; 0; 1; 1; 2] [1; 2; 3; 2; 3; 3]
                 [true; false; false; false; false; true])) as Hall.
    { apply (bool_decide_unpack _). vm_compute. exact I. }
    exact (proj1 (Forall_forall _ _) Hall (i, j, v) Hin).
  - vm_compute. reflexivity.
Defined.

(** X5. Under the hypotheses of X4 and when no pair of indices comes
    twice, the lookup answers, for the two groups of every triple of the
    loop and in either order of its arguments, the flag of this triple:
    for the pairs that the Tukey test compared, the default of the
    lookup is never used. *)
Theorem recorded_pairs_answer_the_flags
    (groupsunique : list Z) (pairindices0 pairindices1 : list nat)
    (reject : list bool) (reject_pairs : gmap (Z * Z) bool) :
  NoDup groupsunique →
  NoDup (zip3 pairindices0 pairindices1 reject).*1 →
  (∀ i j v, (i, j, v) ∈ zip3 pairindices0 pairindices1 reject → i < j) →
  build_reject_pairs groupsunique pairindices0 pairindices1 reject
  = Ok reject_pairs →
  ∀ i j v a b, (i, j, v) ∈ zip3 pairindices0 pairindices1 reject →
    groupsunique !! i = Some a → groupsunique !! j = Some b →
    significant reject_pairs a b = v
    ∧ significant reject_pairs b a = v
    ∧ ¬ unrecorded reject_pairs a b.
Proof.
  intros Hnd Hpairs Hlt Hbuild i j v a b Hin Hi Hj.
  pose proof (record_pairs_value _ Hnd _ _ Hpairs Hbuild i j v a b Hin Hi Hj)
    as Hab.
  pose proof (recorded_pairs_consistent _ _ _ _ _ Hnd Hlt Hbuild) as Hc.
  split_and!.
  - by apply significant_recorded.
  - rewrite <- (significant_sym _ a b Hc). by apply significant_recorded.
  - intros [Hnone _]. by rewrite Hab in Hnone.
Qed.

(** * The letter rows of [main] *)

Lemma build_means_lookup (mean_of : Z → Q) (r : Z) :
  r ∈ rates → build_means mean_of !! r = Some (mean_of r).
Proof.
  intros Hr. unfold rates in Hr.
  repeat (apply elem_of_cons in Hr as [->|Hr]; [reflexivity|]).
  by apply elem_of_nil in Hr.
Qed.

Lemma for_each_Err {A S : Type} (body : S → A → result S) (e0 : error)
    (l : list A) (x : A) (st : S) :
  (∀ s y e, body s y = Err e → e = e0) →
  x ∈ l → (∀ s, body s x = Err e0) → for_each body st l = Err e0.
Proof.
  intros Hone Hx Hfail. revert st.
  induction l as [|y l IH]; intros st; [by apply elem_of_nil in Hx|]. simpl.
  destruct (body st y) as [st'|e] eqn:Hy; simpl.
  - apply elem_of_cons in Hx as [->|Hx]; [by rewrite Hfail in Hy|]. by apply IH.
  - f_equal. by eapply Hone.
Qed.

(** X6. The loop that records the pairs returns exactly when every index
    it reads is an index of [groupsunique]; an index beyond it raises
    [IndexError], whatever the other triples, and triples beyond the
    shortest of the three arrays are not read. *)
Theorem build_reject_pairs_bounds
    (groupsunique : list Z) (pairindices0 pairindices1 : list nat)
    (reject : list bool) :
  ((∀ i j v, (i, j, v) ∈ zip3 pairindices0 pairindices1 reject →
      i < length groupsunique ∧ j < length groupsunique) →
   ∃ reject_pairs,
     build_reject_pairs groupsunique pairindices0 pairindices1 reject
     = Ok reject_pairs)
  ∧ (∀ i j v, (i, j, v) ∈ zip3 pairindices0 pairindices1 reject →
       length groupsunique ≤ i ∨ length groupsunique ≤ j →
       build_reject_pairs groupsunique pairindices0 pairindices1 reject
       = Err IndexError)
  ∧ length (zip3 pairindices0 pairindices1 reject)
    = Nat.min (Nat.min (length pairindices0) (length pairindices1))
        (length reject).
Proof.
  split_and!.
  - apply record_pairs_total.
  - intros i j v Hin Hout. unfold build_reject_pairs.
    apply (for_each_Err _ IndexError _ (i, j, v)); [|done|].
    + intros s [[i' j'] v'] e. unfold record_pair, group_at. simpl.
      destruct (groupsunique !! i'); simpl; [|by intros [= <-]].
      destruct (groupsunique !! j'); simpl; [done | by intros [= <-]].
    + intros s. unfold record_pair, group_at. simpl.
      destruct Hout as [Hi|Hj].
      * by rewrite (lookup_ge_None_2 _ _ Hi).
      * rewrite (lookup_ge_None_2 _ _ Hj). by destruct (groupsunique !! i).
  - revert pairindices1 reject.
    induction pairindices0 as [|x a IH]; intros [|y b] [|z c]; simpl; try done.
    by rewrite IH.
Qed.

Lemma build_reject_pairs_bounds_witness :
  build_reject_pairs [2; 4; 6]%Z [0; 0; 1] [1; 3; 2] [true; false; true]
  = Err IndexError.
Proof.
  apply (proj1 (proj2 (build_reject_pairs_bounds [2; 4; 6]%Z
                         [0; 0; 1] [1; 3; 2] [true; false; true]))
           0 3 false).
  - apply list_elem_of_lookup. by exists 1.
  - right. simpl. lia.
Defined.

Lemma append_rows_Ok {I S : Type} (var : I) (src : S)
    (letters : gmap Z (list ascii)) (acc : list (letter_row I S))
    (a b c d : list ascii) :
  letters !! 2%Z = Some a → letters !! 4%Z = Some b →
  letters !! 6%Z = Some c → letters !! 8%Z = Some d →
  append_rows var src letters acc
  = Ok (acc ++ [LetterRow var 2 src a; LetterRow var 4 src b;
                LetterRow var 6 src c; LetterRow var 8 src d]).
Proof.
  intros Ha Hb Hc Hd. unfold append_rows, rates, dict_get. simpl.
  rewrite Ha, Hb, Hc, Hd. simpl. by rewrite <- !app_assoc.
Qed.

(** X7. With indices in range, the letters step of [main] returns, for
    any flags and any finite means, with any number of groups in
    [groupsunique]: it appends four rows to [tukey_letters], one per
    rate in the order 2, 4, 6, 8, each with the indicator and the source
    of the step and, as its letters, the string that [cld_from_tukey]
    gives to the rate, which holds one letter at least. *)
Theorem letters_step_appends_a_row_per_rate {I S : Type} (var : I) (src : S)
    (groupsunique : list Z) (pairindices0 pairindices1 : list nat)
    (reject : list bool) (mean_of : Z → Q) (acc : list (letter_row I S)) :
  (∀ i j v, (i, j, v) ∈ zip3 pairindices0 pairindices1 reject →
     i < length groupsunique ∧ j < length groupsunique) →
  ∃ reject_pairs letters rows,
    build_reject_pairs groupsunique pairindices0 pairindices1 reject
    = Ok reject_pairs
    ∧ cld_from_tukey rates (build_means mean_of) reject_pairs = Ok letters
    ∧ letters_step var src groupsunique pairindices0 pairindices1 reject
        mean_of acc
      = Ok (acc ++ rows)
    ∧ row_rate <$> rows = rates
    ∧ Forall (λ row, row_indicator row = var ∧ row_source row = src
                     ∧ letters !! row_rate row = Some (row_letter row)
                     ∧ row_letter row ≠ []) rows.
Proof.
  intros Hrange.
  destruct (record_pairs_total groupsunique _ Hrange) as [rp Hrp].
  destruct (cld_from_tukey_iter_total elements remove_dups rp
              elements_iterates remove_dups_iterates rates
              (build_means mean_of)) as [m Hm].
  { intros r Hr. by rewrite build_means_lookup. }
  { simpl. lia. }
  pose proof (cld_from_tukey_iter_Ok _ _ _ elements_iterates
                remove_dups_iterates _ _ _ Hm)
    as (sorted & st & _ & _ & _ & [[Hkeys _ Hne] _]).
  assert (∀ r, r ∈ rates → ∃ str, m !! r = Some str ∧ str ≠ []) as Hget.
  { intros r [str Hstr]%Hkeys. exists str. split; [done|]. by eapply Hne. }
  destruct (Hget 2%Z) as (a & Ha & Hna); [by left|].
  destruct (Hget 4%Z) as (b & Hb & Hnb); [by right; left|].
  destruct (Hget 6%Z) as (c & Hc & Hnc); [by right; right; left|].
  destruct (Hget 8%Z) as (d & Hd & Hnd); [by right; right; right; left|].
  exists rp, m. eexists. split_and!.
  - done.
  - done.
  - unfold letters_step. fold (build_reject_pairs groupsunique pairindices0
      pairindices1 reject). unfold build_reject_pairs. rewrite Hrp. simpl.
    unfold cld_from_tukey. rewrite Hm. simpl.
    by apply append_rows_Ok.
  - done.
  - repeat constructor; done.
Qed.

Lemma letters_step_appends_a_row_per_rate_witness :
  ∃ rows,
    letters_step 1 2 ex_levels [0; 0; 0; 1; 1; 2] [1; 2; 3; 2; 3; 3]
      [true; false; false; false; false; true] (λ r, (12 - inject_Z r)%Q) []
    = Ok ([] ++ rows)
    ∧ row_rate <$> rows = rates.
Proof.
  destruct (letters_step_appends_a_row_per_rate 1 2 ex_levels
              [0; 0; 0; 1; 1; 2] [1; 2; 3; 2; 3; 3]
              [true; false; false; false; false; true]
              (λ r, (12 - inject_Z r)%Q) [])
    as (rp & m & rows & _ & _ & Hrows & Hrates & _).
  - intros i j v Hin.
    assert (Forall (λ t : nat * nat * bool, t.1.1 < 4 ∧ t.1.2 < 4)
              (zip3 [0; 0; 0; 1; 1; 2] [1; 2; 3; 2; 3; 3]
                 [true; false; false; false; false; true])) as Hall.
    { apply (bool_decide_unpack _). vm_compute. exact I. }
    exact (proj1 (Forall_forall _ _) Hall (i, j, v) Hin).
  - by exists rows.
Defined.

Lemma recorded_pairs_answer_the_flags_witness :
  significant ex_reject 2 4 = true ∧ significant ex_reject 4 2 = true
  ∧ ¬ unrecorded ex_reject 2 4.
Proof.
  apply (recorded_pairs_answer_the_flags ex_levels
           [0; 0; 0; 1; 1; 2] [1; 2; 3; 2; 3; 3]
           [true; false; false; false; false; true] ex_reject)
    with (i := 0) (j := 1).
  - apply (bool_decide_unpack _). vm_compute. exact I.
  - apply (bool_decide_unpack _). vm_compute. exact I.
  - intros i j v Hin.
    assert (Forall (λ t : nat * nat * bool, t.1.1 < t.1.2)
              (zip3 [0; 0; 0; 1; 1; 2] [1; 2; 3; 2; 3; 3]
                 [true; false; false; false; false; true])) as Hall.
    { apply (bool_decide_unpack _). vm_compute. exact I. }
    exact (proj1 (Forall_forall _ _) Hall (i, j, v) Hin).
  - vm_compute. reflexivity.
  - by left.
  - reflexivity.
  - reflexivity.
Defined.

(** * The letters of the result, from the groups of the first pass *)

Lemma grows_refl (lm : gmap Z (list ascii)) : grows lm lm.
Proof. intros r str c Hr Hc. by exists str. Qed.

Lemma grows_trans (lm1 lm2 lm3 : gmap Z (list ascii)) :
  grows lm1 lm2 → grows lm2 lm3 → grows lm1 lm3.
Proof.
  intros H12 H23 r str c Hr Hc.
  destruct (H12 r str c Hr Hc) as (str' & Hr' & Hc'). by eapply H23.
Qed.

Lemma grows_insert (lm : gmap Z (list ascii)) (r : Z) (cur extra : list ascii) :
  lm !! r = Some cur → grows lm (<[r := cur ++ extra]> lm).
Proof.
  intros Hcur x str c Hx Hc. destruct (decide (r = x)) as [<-|Hne].
  - exists (cur ++ extra). rewrite lookup_insert_eq. split; [done|].
    apply elem_of_app. left. congruence.
  - exists str. by rewrite lookup_insert_ne.
Qed.

Lemma members_have_placed (reject_pairs : gmap (Z * Z) bool)
    (sets : list (gset Z)) (lm : gmap Z (list ascii)) (r : Z) (cur : list ascii) :
  members_have sets lm → lm !! r = Some cur →
  length (placed_sets elements reject_pairs r sets) ≤ 26 →
  members_have (placed_sets elements reject_pairs r sets)
    (<[r := cur ++ placed_letters elements reject_pairs r sets]> lm).
Proof.
  intros Hold Hcur Hlen i s' c x Hi Hget Hx.
  pose proof (grows_insert lm r cur
                (placed_letters elements reject_pairs r sets) Hcur) as Hgrow.
  assert (c ∈ placed_letters elements reject_pairs r sets →
          ∃ str, <[r := cur ++ placed_letters elements reject_pairs r sets]> lm
                   !! r = Some str ∧ c ∈ str) as Hnew.
  { intros Hc. eexists. rewrite lookup_insert_eq. split; [done|].
    apply elem_of_app. by right. }
  apply lookup_placed_sets in Hi as [(s & Hs & ->)|(-> & Hacc & ->)].
  - unfold join in Hx.
    destruct (compatible elements reject_pairs r s) eqn:Hcomp.
    + apply elem_of_union in Hx as [Hx|Hx%elem_of_singleton].
      * destruct (Hold i s c x Hs Hget Hx) as (str & Hstr & Hc).
        by eapply Hgrow.
      * subst x. apply Hnew. unfold placed_letters.
        assert (accepts elements reject_pairs r sets = true) as ->.
        { apply existsb_exists. exists s. split; [|done].
          apply list_elem_of_In. by eapply list_elem_of_lookup_2. }
        apply elem_of_accepted. by exists i, s.
    + destruct (Hold i s c x Hs Hget Hx) as (str & Hstr & Hc).
      by eapply Hgrow.
  - apply elem_of_singleton in Hx as ->. apply Hnew.
    unfold placed_letters. rewrite Hacc, (letter_at_getitem _ _ Hget).
    by apply list_elem_of_singleton.
Qed.

Lemma join_nonempty (reject_pairs : gmap (Z * Z) bool) (r : Z) (s : gset Z) :
  s ≠ ∅ → join elements reject_pairs r s ≠ ∅.
Proof. unfold join. case_match; set_solver. Qed.

Lemma founded_placed (reject_pairs : gmap (Z * Z) bool)
    (seen : list Z) (sets : list (gset Z)) (r : Z) :
  length sets ≤ length seen → founded seen sets →
  founded (seen ++ [r]) (placed_sets elements reject_pairs r sets).
Proof.
  intros Hcount [Hne Hfirst]. split.
  - apply Forall_forall. intros s' Hs'.
    apply elem_of_placed_sets in Hs' as [(s & Hs & ->)| ->].
    + apply join_nonempty. by eapply Forall_forall in Hne.
    + set_solver.
  - intros x Hx. destruct seen as [|y seen]; simpl in Hx.
    + injection Hx as ->. destruct sets; [|simpl in Hcount; lia].
      exists {[x]}. split; [done | by apply elem_of_singleton].
    + injection Hx as ->. destruct (Hfirst x eq_refl) as (s0 & Hs0 & Hxs0).
      exists (join elements reject_pairs r s0). split.
      * unfold placed_sets. rewrite lookup_app_l.
        -- by rewrite list_lookup_fmap, Hs0.
        -- rewrite length_fmap. by eapply lookup_lt_Some.
      * by apply subseteq_join.
Qed.

(** What the first pass leaves. *)
Lemma pass1_members (reject_pairs : gmap (Z * Z) bool)
    (levels l : list Z) (st : state) :
  (∀ r, r ∈ l → r ∈ levels) →
  pass1 elements reject_pairs (State [] (empty_letters levels)) l = Ok st →
  pass1_inv levels l st
  ∧ members_have (letter_sets st) (letters_map st)
  ∧ founded l (letter_sets st).
Proof.
  intros Hl.
  apply (for_each_inv_seen _
    (λ seen st, pass1_inv levels seen st
                ∧ members_have (letter_sets st) (letters_map st)
                ∧ founded seen (letter_sets st))).
  - intros l1 x l2 [sets lm] s' -> (Hinv & Hold & Hf) Hx. simpl in Hold, Hf.
    assert (x ∈ levels) as Hxl by (apply Hl, elem_of_app; right; by left).
    destruct (proj2 (inv_keys _ _ _ Hinv x) Hxl) as [cur Hcur]. simpl in Hcur.
    assert (length (placed_sets elements reject_pairs x sets) ≤ 26) as Hlen.
    { eapply (place_Ok_bound elements);
        [done | apply (inv_bound _ _ _ Hinv) | done]. }
    rewrite (place_eq _ _ _ _ _ _ Hcur Hlen) in Hx.
    injection Hx as <-. split_and!.
    + apply pass1_inv_placed; [apply elements_iterates | done..].
    + simpl. by apply members_have_placed.
    + simpl. apply founded_placed; [|done]. apply (inv_count _ _ _ Hinv).
  - split_and!; [apply pass1_inv_init | by intros i s c r [=] |].
    split; [constructor | by intros x [=]].
Qed.

Lemma backfill_loop (reject_pairs : gmap (Z * Z) bool) (s : gset Z)
    (letter : ascii) (lm lm' : gmap Z (list ascii)) (l : list Z) :
  for_each (backfill elements reject_pairs s letter) lm l = Ok lm' →
  grows lm lm'
  ∧ ∀ r, r ∈ l → compatible elements reject_pairs r s = true →
      ∃ str, lm' !! r = Some str ∧ letter ∈ str.
Proof.
  apply (for_each_inv_seen _ (λ seen lm', grows lm lm'
    ∧ ∀ r, r ∈ seen → compatible elements reject_pairs r s = true →
        ∃ str, lm' !! r = Some str ∧ letter ∈ str)).
  - intros l1 x l2 lm1 lm2 _ [Hgrow Hseen] Hstep.
    destruct (lm1 !! x) as [cur|] eqn:Hcur.
    2: { unfold backfill, dict_get in Hstep. by rewrite Hcur in Hstep. }
    rewrite (backfill_eq _ _ _ _ _ _ _ Hcur) in Hstep. injection Hstep as <-.
    assert (grows lm1
              (if bool_decide (letter ∈ cur) then lm1
               else if compatible elements reject_pairs x s
                    then <[x := cur ++ [letter]]> lm1 else lm1)) as Hstep.
    { destruct (bool_decide (letter ∈ cur)); [apply grows_refl|].
      destruct (compatible elements reject_pairs x s); [|apply grows_refl].
      by apply grows_insert. }
    split; [by eapply grows_trans|].
    intros r [Hr|Hr%list_elem_of_singleton]%elem_of_app Hcomp.
    + destruct (Hseen r Hr Hcomp) as (str & Hstr & Hin). by eapply Hstep.
    + subst r. rewrite Hcomp. case_bool_decide as Hin.
      * by exists cur.
      * exists (cur ++ [letter]). rewrite lookup_insert_eq. split; [done|].
        apply elem_of_app. right. by apply list_elem_of_singleton.
  - split; [apply grows_refl | by intros r ?%elem_of_nil].
Qed.

Lemma pass2_complete (reject_pairs : gmap (Z * Z) bool) (levels : list Z)
    (rest : list (gset Z)) :
  ∀ (i : nat) (lm lm' : gmap Z (list ascii)),
  pass2 elements reject_pairs levels i rest lm = Ok lm' →
  grows lm lm'
  ∧ ∀ j s c r, rest !! j = Some s → getitem (i + j) = Ok c → r ∈ levels →
      compatible elements reject_pairs r s = true →
      ∃ str, lm' !! r = Some str ∧ c ∈ str.
Proof.
  induction rest as [|s rest IH]; intros i lm lm' Hrun; simpl in Hrun.
  - injection Hrun as <-. split; [apply grows_refl | by intros j s c r [=]].
  - inv_bind Hrun. rename x into letter, x0 into lm1.
    destruct (backfill_loop _ _ _ _ _ _ Hx0) as [Hgrow1 Hdone].
    destruct (IH _ _ _ Hrun) as [Hgrow2 Hrest].
    split; [by eapply grows_trans|].
    intros [|j] s' c r Hj Hget Hr Hcomp; simpl in Hj.
    + injection Hj as <-. rewrite Nat.add_0_r, Hx in Hget. injection Hget as <-.
      destruct (Hdone r Hr Hcomp) as (str & Hstr & Hin). by eapply Hgrow2.
    + apply (Hrest j s' c r); [done| |done..].
      by rewrite Nat.add_succ_r in Hget.
Qed.

Lemma final_grows (lm m : gmap Z (list ascii)) (l : list Z) :
  for_each (normalize_level remove_dups) lm l = Ok m → grows lm m.
Proof.
  apply (for_each_inv _ (grows lm)); [|apply grows_refl].
  intros lm1 r lm2 _ Hgrow Hn. eapply grows_trans; [done|].
  unfold normalize_level in Hn. inv_bind Hn. injection Hn as <-.
  assert (lm1 !! r = Some x) as Hcur.
  { unfold dict_get in Hx. by destruct (lm1 !! r); simplify_eq. }
  apply (normalize_perm _ remove_dups_iterates) in Hx0.
  intros y str c Hy Hc. destruct (decide (r = y)) as [<-|Hne].
  - exists x0. rewrite lookup_insert_eq. split; [done|].
    rewrite Hx0, elem_of_remove_dups. congruence.
  - exists str. by rewrite lookup_insert_ne.
Qed.

(** The run of a call that returns, with what each part leaves. *)
Lemma cld_from_tukey_run (levels : list Z) (means_dict : gmap Z Q)
    (reject_pairs : gmap (Z * Z) bool) (m : gmap Z (list ascii)) :
  cld_from_tukey levels means_dict reject_pairs = Ok m →
  ∃ sorted st,
    sort_rates means_dict levels = Ok sorted
    ∧ pass1 elements reject_pairs (State [] (empty_letters levels)) sorted = Ok st
    ∧ pass1_inv levels sorted st
    ∧ members_hold (letter_sets st) (letters_map st)
    ∧ members_have (letter_sets st) m
    ∧ founded sorted (letter_sets st)
    ∧ holders_checked reject_pairs (letter_sets st) m
    ∧ final_inv levels (length (letter_sets st)) levels m
    ∧ ∀ i s c r, letter_sets st !! i = Some s → getitem i = Ok c →
        r ∈ levels → compatible elements reject_pairs r s = true →
        ∃ str, m !! r = Some str ∧ c ∈ str.
Proof.
  intros Hm.
  pose proof (cld_from_tukey_iter_Ok _ _ _ elements_iterates
                remove_dups_iterates _ _ _ Hm)
    as (sorted' & st' & Hsort' & Hpass1' & _ & Hfin).
  unfold cld_from_tukey, cld_from_tukey_iter in Hm. inv_bind Hm.
  rename x into sorted, x0 into st, x1 into lm, Hx into Hsort,
    Hx0 into Hpass1, Hx1 into Hpass2.
  rewrite Hsort in Hsort'. injection Hsort' as <-.
  rewrite Hpass1 in Hpass1'. injection Hpass1' as <-.
  assert (∀ r, r ∈ sorted → r ∈ levels) as Hl.
  { intros r. by rewrite (sort_rates_perm _ _ _ Hsort). }
  destruct (pass1_members_hold _ _ _ _ Hl Hpass1) as [Hinv Hhold].
  destruct (pass1_members _ _ _ _ Hl Hpass1) as (_ & Hhave & Hfounded).
  destruct (pass2_complete _ _ _ _ _ _ Hpass2) as [Hgrow2 Hcomplete].
  pose proof (final_grows _ _ _ Hm) as Hgrow3.
  exists sorted, st. split_and!; try done.
  - intros i s c r Hs Hget Hr.
    destruct (Hhave i s c r Hs Hget Hr) as (str & Hstr & Hc).
    destruct (Hgrow2 _ _ _ Hstr Hc) as (str2 & Hstr2 & Hc2).
    by eapply Hgrow3.
  - revert Hm. apply for_each_inv.
    + intros lm0 r lm0' _. apply normalize_level_holders.
    + apply (pass2_holders _ levels _ (letter_sets st) [] (letters_map st));
        [done| |done].
      intros i s c r str Hs Hget Hr Hc. left. by eapply Hhold.
  - intros i s c r Hs Hget Hr Hcomp.
    destruct (Hcomplete i s c r Hs Hget Hr Hcomp) as (str & Hstr & Hc).
    by eapply Hgrow3.
Qed.

(** X8. The letters of the result, from the groups of the first pass: a
    level of the mapping returned holds a letter exactly when this is the
    letter of a group of which the level is a member, or of a group all
    of whose members are non-significant with the level (looked up with
    the level first).  The second pass gives every letter it can. *)
Theorem letters_of_the_result
    (levels : list Z) (means_dict : gmap Z Q) (reject_pairs : gmap (Z * Z) bool)
    (m : gmap Z (list ascii)) :
  cld_from_tukey levels means_dict reject_pairs = Ok m →
  ∃ sorted st,
    sort_rates means_dict levels = Ok sorted
    ∧ pass1 elements reject_pairs (State [] (empty_letters levels)) sorted = Ok st
    ∧ ∀ r str c, m !! r = Some str →
        (c ∈ str ↔
         ∃ i s, letter_sets st !! i = Some s ∧ getitem i = Ok c
           ∧ (r ∈ s ∨ ∀ rr, rr ∈ s → significant reject_pairs r rr = false)).
Proof.
  intros Hm.
  destruct (cld_from_tukey_run _ _ _ _ Hm)
    as (sorted & st & Hsort & Hpass1 & Hinv & _ & Hhave & _ & Hhold
        & [[Hkeys Hlet _] _] & Hcomplete).
  exists sorted, st. split_and!; [done..|].
  intros r str c Hr. split.
  - intros Hc. destruct (Hlet r str c Hr Hc) as (i & Hi & Hget).
    destruct (lookup_lt_is_Some_2 _ _ Hi) as [s Hs].
    exists i, s. split_and!; [done..|].
    destruct (Hhold i s c r str Hs Hget Hr Hc) as [Hmem|Hcomp]; [by left|].
    right. by apply (compatible_true _ _ elements_iterates).
  - intros (i & s & Hs & Hget & [Hmem|Hcomp]).
    + destruct (Hhave i s c r Hs Hget Hmem) as (str' & Hstr' & Hc).
      congruence.
    + assert (r ∈ levels) as Hrl by (apply Hkeys; by rewrite Hr).
      destruct (Hcomplete i s c r Hs Hget Hrl) as (str' & Hstr' & Hc).
      { by apply (compatible_true _ _ elements_iterates). }
      congruence.
Qed.

Lemma letters_of_the_result_witness :
  ∃ sorted st,
    sort_rates ex_means ex_levels = Ok sorted
    ∧ pass1 elements ex_reject (State [] (empty_letters ex_levels)) sorted = Ok st.
Proof.
  destruct (letters_of_the_result ex_levels ex_means ex_reject ex_letters)
    as (sorted & st & Hsort & Hrun & _).
  - vm_compute. reflexivity.
  - by exists sorted, st.
Defined.

(** * Soundness when significance follows the distance of the means *)

Lemma ok_loop_false (reject_pairs : gmap (Z * Z) bool) (r : Z) (members : list Z) :
  ok_loop reject_pairs r members = false →
  ∃ rr, rr ∈ members ∧ significant reject_pairs r rr = true.
Proof.
  induction members as [|x l IH]; simpl; [done|].
  destruct (significant reject_pairs r x) eqn:Hx.
  - intros _. exists x. split; [by left | done].
  - intros (rr & Hrr & Hs)%IH. exists rr. split; [by right | done].
Qed.

Lemma compatible_false (reject_pairs : gmap (Z * Z) bool) (r : Z) (s : gset Z) :
  compatible elements reject_pairs r s = false →
  ∃ rr, rr ∈ s ∧ significant reject_pairs r rr = true.
Proof.
  unfold compatible. intros (rr & Hrr & Hs)%ok_loop_false.
  exists rr. split; [by apply elem_of_elements | done].
Qed.

Lemma before_middle (l1 l2 : list Z) (r x : Z) :
  r ∈ l1 → before (l1 ++ x :: l2) r x.
Proof.
  intros (i & Hi)%list_elem_of_lookup_1. exists i, (length l1). split_and!.
  - by eapply lookup_lt_Some.
  - by apply lookup_app_l_Some.
  - by apply list_lookup_middle.
Qed.

Lemma StronglySorted_before (R : Z → Z → Prop) (l : list Z) (a b : Z) :
  StronglySorted R l → before l a b → R a b.
Proof.
  intros Hs (i & j & Hij & Hi & Hj). revert i j Hij Hi Hj.
  induction Hs as [|x l Hs IH Hx]; intros i j Hij Hi Hj; [done|].
  destruct j as [|j]; [lia|]. simpl in Hj. destruct i as [|i]; simpl in Hi.
  - injection Hi as ->. eapply Forall_forall in Hx; [done|].
    by eapply list_elem_of_lookup_2.
  - apply (IH i j); [lia | done..].
Qed.

Lemma refused_placed (reject_pairs : gmap (Z * Z) bool)
    (l1 l2 : list Z) (x : Z) (sets : list (gset Z)) :
  refused_or_earlier reject_pairs (l1 ++ x :: l2) l1 sets →
  refused_or_earlier reject_pairs (l1 ++ x :: l2) (l1 ++ [x])
    (placed_sets elements reject_pairs x sets).
Proof.
  intros Hold s' r Hs' Hr Hnot.
  apply elem_of_placed_sets in Hs' as [(s & Hs & ->)| ->].
  - apply elem_of_app in Hr as [Hr|Hr%list_elem_of_singleton].
    + assert (r ∉ s) as Hrs.
      { intros Hrs. by apply Hnot, subseteq_join. }
      destruct (Hold s r Hs Hr Hrs) as [(rr & Hrr & Hsig)|Hearlier].
      * left. exists rr. split; [by apply subseteq_join | done].
      * right. intros rr Hrr.
        apply (elem_of_join _ _ elements_iterates) in Hrr as [Hrr| ->];
          [by apply Hearlier | by apply before_middle].
    + subst r. left. unfold join in Hnot |- *.
      destruct (compatible elements reject_pairs x s) eqn:Hcomp.
      * exfalso. apply Hnot. set_solver.
      * by apply compatible_false.
  - right. intros rr ->%elem_of_singleton.
    apply elem_of_app in Hr as [Hr|Hr%list_elem_of_singleton].
    + by apply before_middle.
    + subst r. exfalso. apply Hnot. by apply elem_of_singleton.
Qed.

Lemma pass1_refused (reject_pairs : gmap (Z * Z) bool)
    (levels sorted : list Z) (st : state) :
  (∀ r, r ∈ sorted → r ∈ levels) →
  pass1 elements reject_pairs (State [] (empty_letters levels)) sorted = Ok st →
  refused_or_earlier reject_pairs sorted sorted (letter_sets st).
Proof.
  intros Hl Hrun.
  enough (pass1_inv levels sorted st
          ∧ refused_or_earlier reject_pairs sorted sorted (letter_sets st))
    as [_ H]; [done|].
  revert Hrun.
  apply (for_each_inv_seen _
    (λ seen st, pass1_inv levels seen st
                ∧ refused_or_earlier reject_pairs sorted seen (letter_sets st))).
  - intros l1 x l2 s s' Heq [Hinv Hold] Hx.
    eapply (place_inv elements reject_pairs elements_iterates) in Hx
      as [Hsets Hinv']; [|done|].
    + split; [done|]. rewrite Hsets. rewrite Heq in Hold |- *.
      by apply refused_placed.
    + apply Hl. rewrite Heq. apply elem_of_app. right. by left.
  - split; [apply pass1_inv_init|]. by intros s r ?%elem_of_nil.
Qed.

(** Soundness from monotony: along the sorted levels, a level that is
    significantly different from a later one is so from every level
    after that one. *)
Lemma sound_when_monotone (levels : list Z) (means_dict : gmap Z Q)
    (reject_pairs : gmap (Z * Z) bool) (m : gmap Z (list ascii))
    (sorted : list Z) :
  sort_rates means_dict levels = Ok sorted →
  (∀ a b, a ∈ levels → b ∈ levels → a ≠ b →
     significant reject_pairs a b = significant reject_pairs b a) →
  (∀ a b c, before sorted a b → before sorted b c → a ≠ b → a ≠ c →
     significant reject_pairs a b = true →
     significant reject_pairs a c = true) →
  cld_from_tukey levels means_dict reject_pairs = Ok m →
  ∀ a b stra strb c, a ≠ b →
    m !! a = Some stra → m !! b = Some strb → c ∈ stra → c ∈ strb →
    significant reject_pairs a b = false.
Proof.
  intros Hsorted Hsym Hmono Hm a b stra strb c Hab Ha Hb Hca Hcb.
  destruct (cld_from_tukey_run _ _ _ _ Hm)
    as (sorted' & st & Hsort & Hpass1 & Hinv & _ & _ & [Hne _] & Hhold
        & [[Hkeys Hlet _] _] & _).
  rewrite Hsorted in Hsort. injection Hsort as <-.
  pose proof (sort_rates_perm _ _ _ Hsorted) as Hperm.
  assert (∀ r, r ∈ sorted → r ∈ levels) as Hl.
  { intros r. by rewrite Hperm. }
  pose proof (pass1_refused _ _ _ _ Hl Hpass1) as Href.
  assert (a ∈ levels) as Hal by (apply Hkeys; by rewrite Ha).
  assert (b ∈ levels) as Hbl by (apply Hkeys; by rewrite Hb).
  destruct (Hlet a stra c Ha Hca) as (i & Hi & Hget).
  destruct (lookup_lt_is_Some_2 _ _ Hi) as [s Hs].
  assert (s ∈ letter_sets st) as Hsin by (by eapply list_elem_of_lookup_2).
  assert (∀ r, r ∈ s → r ∈ levels) as Hsl.
  { intros r Hr. apply Hl. by eapply (inv_members _ _ _ Hinv). }
  assert (∀ x y, x ∈ levels → y ∈ levels → x ≠ y → y ∉ s →
            compatible elements reject_pairs y s = true →
            (x ∈ s ∨ compatible elements reject_pairs x s = true) →
            (x ∉ s → before sorted x y) →
            significant reject_pairs x y = false) as Hcase.
  { intros x y Hx Hy Hxy Hys Hcy Hxs Hbefore.
    destruct (decide (x ∈ s)) as [Hxin|Hxout].
    - rewrite (Hsym x y Hx Hy Hxy).
      by apply (proj1 (compatible_true _ _ elements_iterates y s) Hcy).
    - destruct Hxs as [?|Hcx]; [done|].
      destruct (Href s y Hsin) as [(rr & Hrr & Hsig)|Hlater]; [|done| |].
      { by rewrite <- Hperm in Hy. }
      { by rewrite (proj1 (compatible_true _ _ elements_iterates y s) Hcy rr Hrr)
          in Hsig. }
      eapply Forall_forall in Hne; [|exact Hsin].
      apply set_choose_L in Hne as [f Hf].
      destruct (significant reject_pairs x y) eqn:Hsig; [|done].
      assert (x ≠ f) as Hxf by (by intros ->).
      rewrite <- (Hmono x y f (Hbefore Hxout) (Hlater f Hf) Hxy Hxf Hsig).
      by apply (proj1 (compatible_true _ _ elements_iterates x s) Hcx). }
  pose proof (Hhold i s c a stra Hs Hget Ha Hca) as Has.
  pose proof (Hhold i s c b strb Hs Hget Hb Hcb) as Hbs.
  destruct (decide (b ∈ s)) as [Hbin|Hbout].
  - destruct (decide (a ∈ s)) as [Hain|Haout].
    + assert (Forall (pairwise (λ x y, x ∈ levels → y ∈ levels →
                significant reject_pairs x y = false
                ∧ significant reject_pairs y x = false)) (letter_sets st))
        as Hpw.
      { apply (pass1_pairwise elements reject_pairs elements_iterates _
                 levels sorted st); [| |done..].
        - intros x y Hxy Hy Hx. by destruct (Hxy Hx Hy).
        - intros x y Hxy Hx Hy. destruct (decide (x = y)) as [->|Hne'];
            [done|]. split; [done|]. by rewrite <- (Hsym x y Hx Hy Hne'). }
      eapply Forall_forall in Hpw; [|exact Hsin].
      by destruct (Hpw a b Hain Hbin Hab Hal Hbl).
    + destruct Has as [?|Hca']; [done|].
      by apply (proj1 (compatible_true _ _ elements_iterates a s) Hca').
  - destruct Hbs as [?|Hcb']; [done|].
    destruct (decide (a ∈ s)) as [Hain|Haout].
    { by apply Hcase; [..|left|]. }
    destruct Has as [?|Hca']; [done|].
    assert (a ∈ sorted) as Hasorted by (by rewrite Hperm).
    assert (b ∈ sorted) as Hbsorted by (by rewrite Hperm).
    apply list_elem_of_lookup_1 in Hasorted as [ia Hia].
    apply list_elem_of_lookup_1 in Hbsorted as [ib Hib].
    destruct (Nat.lt_total ia ib) as [Hlt|[->|Hlt]].
    + apply Hcase; [done..|by right|]. intros _. by exists ia, ib.
    + congruence.
    + rewrite (Hsym a b Hal Hbl Hab).
      apply Hcase; [done|done|done|done|done|by right|].
      intros _. by exists ib, ia.
Qed.

Lemma sort_rates_means (means_dict : gmap Z Q) (levels sorted : list Z) (x : Z) :
  sort_rates means_dict levels = Ok sorted →
  x ∈ levels → is_Some (means_dict !! x).
Proof.
  intros (kl & Hkeys & <- & _)%sort_rates_Ok
         (p & -> & Hp)%list_elem_of_fmap.
  eapply Forall_forall in Hkeys; [|done]. by rewrite Hkeys.
Qed.

(** X9. Soundness of the letters when significance follows the distance
    of the means, for means that are finite floats (the rationals of
    [means_dict]; with a NaN among the means line 46 does not sort and
    the property fails): if two distinct levels are significantly
    different exactly when their means differ, as rationals, by more
    than a common bound (the honest significant difference of a Tukey
    test with groups of equal size), then the levels that share a letter
    in the result are never significantly different, in either order of
    the lookup.  (Without such a hypothesis the second pass can give a
    letter to two levels that are significantly different.) *)
Theorem letters_are_sound_for_a_threshold
    (levels : list Z) (means_dict : gmap Z Q) (reject_pairs : gmap (Z * Z) bool)
    (m : gmap Z (list ascii)) (bound : Q) :
  (∀ a b ka kb, a ∈ levels → b ∈ levels → a ≠ b →
     means_dict !! a = Some ka → means_dict !! b = Some kb →
     (significant reject_pairs a b = true
      ↔ (bound < ka - kb ∨ bound < kb - ka)%Q)) →
  cld_from_tukey levels means_dict reject_pairs = Ok m →
  ∀ a b stra strb c, a ≠ b →
    m !! a = Some stra → m !! b = Some strb → c ∈ stra → c ∈ strb →
    significant reject_pairs a b = false
    ∧ significant reject_pairs b a = false.
Proof.
  intros Hgap Hm.
  destruct (cld_from_tukey_run _ _ _ _ Hm) as (sorted & st & Hsort & _).
  destruct (sort_rates_stable _ _ _ Hsort) as (Hperm & Hsorted & _).
  assert (∀ a b, a ∈ levels → b ∈ levels → a ≠ b →
            significant reject_pairs a b = significant reject_pairs b a)
    as Hsym.
  { intros a b Ha Hb Hab.
    destruct (sort_rates_means _ _ _ a Hsort Ha) as [ka Hka].
    destruct (sort_rates_means _ _ _ b Hsort Hb) as [kb Hkb].
    pose proof (Hgap a b ka kb Ha Hb Hab Hka Hkb) as Hab'.
    pose proof (Hgap b a kb ka Hb Ha (not_eq_sym Hab) Hkb Hka) as Hba'.
    destruct (significant reject_pairs a b), (significant reject_pairs b a);
      try done.
    - symmetry. apply Hba'. destruct (proj1 Hab' eq_refl); [by right | by left].
    - apply Hab'. destruct (proj1 Hba' eq_refl); [by right | by left]. }
  assert (∀ a b stra strb c, a ≠ b →
            m !! a = Some stra → m !! b = Some strb → c ∈ stra → c ∈ strb →
            significant reject_pairs a b = false) as Hsound.
  { apply (sound_when_monotone levels means_dict reject_pairs m sorted);
      [done..| |done].
    intros a b c Hab Hbc Hne Hac Hsig.
    destruct (StronglySorted_before _ _ _ _ Hsorted Hab)
      as (ka & kb & Hka & Hkb & Hle1).
    destruct (StronglySorted_before _ _ _ _ Hsorted Hbc)
      as (kb' & kc & Hkb' & Hkc & Hle2).
    rewrite Hkb in Hkb'. injection Hkb' as <-.
    assert (a ∈ levels ∧ b ∈ levels ∧ c ∈ levels) as (Ha & Hb & Hc).
    { destruct Hab as (i & j & _ & Hi & Hj), Hbc as (_ & k & _ & _ & Hk).
      rewrite <- Hperm.
      split_and!; by eapply list_elem_of_lookup_2. }
    apply (Hgap a c ka kc Ha Hc Hac Hka Hkc). left.
    destruct (proj1 (Hgap a b ka kb Ha Hb Hne Hka Hkb) Hsig) as [Hlt|Hlt]; lra. }
  intros a b stra strb c Hab Ha Hb Hca Hcb. split.
  - by eapply Hsound.
  - by apply (Hsound b a strb stra c).
Qed.

Lemma letters_are_sound_for_a_threshold_witness :
  significant gap_reject 2 4 = false ∧ significant gap_reject 4 2 = false.
Proof.
  apply (letters_are_sound_for_a_threshold ex_levels gap_means gap_reject
           gap_letters 3%Q) with (stra := ["a"]%char) (strb := ["a"]%char)
                                 (c := "a"%char).
  - intros a b ka kb Ha Hb Hab Hka Hkb. unfold ex_levels in Ha, Hb.
    repeat (apply elem_of_cons in Ha as [->|Ha]);
      [..|by apply elem_of_nil in Ha];
      (repeat (apply elem_of_cons in Hb as [->|Hb]);
        [..|by apply elem_of_nil in Hb]);
      try done;
      vm_compute in Hka, Hkb; injection Hka as <-; injection Hkb as <-;
      vm_compute; intuition congruence.
  - vm_compute. reflexivity.
  - done.
  - vm_compute. reflexivity.
  - vm_compute. reflexivity.
  - by left.
  - by left.
Defined.

(** * Levels that are all significantly different *)





(** * The letters in use *)

Lemma normal_head_a (str : list ascii) :
  normal str → "a"%char ∈ str → ∃ rest, str = "a"%char :: rest.
Proof.
  intros [_ Hs] Hin. destruct str as [|c rest]; [by apply elem_of_nil in Hin|].
  apply elem_of_cons in Hin as [<-|Hin]; [by eexists|]. exfalso.
  apply StronglySorted_cons in Hs as [Hall _].
  eapply Forall_forall in Hall; [|done].
  destruct Hall as (i & j & _ & Hj & Hij).
  vm_compute in Hj. injection Hj as <-. lia.
Qed.

(** X11. The letters in use are the first letters of the alphabet, with
    no gap: for a number [k] of groups, at most 26 and at most the number
    of levels (and at least one when there is a level), a letter stands
    in some string of the result exactly when it is one of the first
    [k] letters.  The first of the sorted levels has a string that
    starts with "a"; for means that are finite floats (the rationals of
    [means_dict]; a NaN among the means is not covered) its mean is at
    least that of every level. *)
Theorem letters_in_use_are_a_prefix
    (levels : list Z) (means_dict : gmap Z Q) (reject_pairs : gmap (Z * Z) bool)
    (m : gmap Z (list ascii)) :
  cld_from_tukey levels means_dict reject_pairs = Ok m →
  ∃ sorted k,
    sort_rates means_dict levels = Ok sorted
    ∧ k ≤ length levels ∧ k ≤ 26 ∧ (levels ≠ [] → 0 < k)
    ∧ (∀ c, (∃ r str, m !! r = Some str ∧ c ∈ str)
            ↔ ∃ i, i < k ∧ getitem i = Ok c)
    ∧ ∀ r, head sorted = Some r →
        (∀ r', r' ∈ levels → mean_ge means_dict r r')
        ∧ ∃ str, m !! r = Some ("a"%char :: str).
Proof.
  intros Hm.
  destruct (cld_from_tukey_run _ _ _ _ Hm)
    as (sorted & st & Hsort & Hpass1 & Hinv & _ & Hhave & [Hne Hfirst] & _
        & [[Hkeys Hlet _] Hnormal] & _).
  destruct (sort_rates_stable _ _ _ Hsort) as (Hperm & Hsorted & _).
  exists sorted, (length (letter_sets st)). split_and!.
  - done.
  - rewrite <- Hperm. apply (inv_count _ _ _ Hinv).
  - apply (inv_bound _ _ _ Hinv).
  - intros Hlevels. destruct sorted as [|x l].
    + apply Permutation_nil_l in Hperm. by subst levels.
    + destruct (Hfirst x eq_refl) as (s0 & Hs0 & _).
      by eapply lookup_lt_Some.
  - intros c. split.
    + intros (r & str & Hr & Hc). by eapply Hlet.
    + intros (i & Hi & Hget).
      destruct (lookup_lt_is_Some_2 _ _ Hi) as [s Hs].
      assert (s ≠ ∅) as Hsne.
      { eapply Forall_forall in Hne; [done|]. by eapply list_elem_of_lookup_2. }
      apply set_choose_L in Hsne as [f Hf].
      destruct (Hhave i s c f Hs Hget Hf) as (str & Hstr & Hc).
      by exists f, str.
  - intros r Hr. split.
    + intros r' Hr'. destruct sorted as [|x l]; [done|].
      simpl in Hr. injection Hr as ->.
      apply StronglySorted_cons in Hsorted as [Hall _].
      rewrite <- Hperm in Hr'. apply elem_of_cons in Hr' as [->|Hr'].
      * destruct (sort_rates_means _ _ _ r Hsort) as [k Hk].
        { rewrite <- Hperm. by left. }
        exists k, k. split_and!; [done..|apply Qle_refl].
      * by eapply Forall_forall in Hall.
    + destruct (Hfirst r Hr) as (s0 & Hs0 & Hrs0).
      destruct (Hhave 0 s0 "a"%char r Hs0 eq_refl Hrs0) as (str & Hstr & Ha).
      assert (r ∈ levels) as Hrl by (apply Hkeys; by rewrite Hstr).
      destruct (Hnormal r Hrl) as (str' & Hstr' & Hn).
      rewrite Hstr in Hstr'. injection Hstr' as <-.
      destruct (normal_head_a str Hn Ha) as [rest ->]. by exists rest.
Qed.

Lemma letters_in_use_are_a_prefix_witness :
  ∃ sorted k, sort_rates ex_means ex_levels = Ok sorted ∧ k ≤ 26.
Proof.
  destruct (letters_in_use_are_a_prefix ex_levels ex_means ex_reject ex_letters)
    as (sorted & k & Hsort & _ & Hk & _).
  - vm_compute. reflexivity.
  - by exists sorted, k.
Defined.

(** * The order in which the levels are given *)

Section SortedPermOn.
Context {K A : Type} (leb : K → K → bool) (key : A → result K) (e0 : error).
Hypothesis leb_total : ∀ k1 k2, leb k1 k2 = true ∨ leb k2 k1 = true.
Hypothesis leb_trans : ∀ k1 k2 k3,
  leb k1 k2 = true → leb k2 k3 = true → leb k1 k3 = true.
Hypothesis key_err : ∀ x e, key x = Err e → e = e0.

(** When no two elements of the list have keys that the comparison
    holds equal, the sorted list does not depend on the order of the
    input. *)
Lemma py_sorted_perm_eq_on (l1 l2 : list A) :
  (∀ x y kx ky, x ∈ l1 → y ∈ l1 → key x = Ok kx → key y = Ok ky →
     leb kx ky = true → leb ky kx = true → x = y) →
  l1 ≡ₚ l2 → py_sorted leb key l1 = py_sorted leb key l2.
Proof.
  intros Hapart Hperm. unfold py_sorted.
  destruct (with_keys key l1) as [kl1|e] eqn:H1.
  - destruct (with_keys_perm _ _ _ Hperm _ H1) as (kl2 & -> & Hkl).
    simpl. do 2 f_equal.
    pose proof (with_keys_keys _ _ _ H1) as Hkeys.
    pose proof (with_keys_snd _ _ _ H1) as Hsnd.
    apply (StronglySorted_unique_strong (key_le leb)).
    + intros p q Hp Hq Hpq Hqp.
      rewrite sort_pairs_perm in Hp. rewrite sort_pairs_perm, <- Hkl in Hq.
      assert (p.2 ∈ l1) as Hp1.
      { rewrite <- Hsnd. apply list_elem_of_fmap. by exists p. }
      assert (q.2 ∈ l1) as Hq1.
      { rewrite <- Hsnd. apply list_elem_of_fmap. by exists q. }
      eapply Forall_forall in Hp; [|exact Hkeys].
      eapply Forall_forall in Hq; [|exact Hkeys].
      simpl in Hp, Hq. destruct p as [kp p], q as [kq q]. simpl in *.
      assert (p = q) as -> by by eapply (Hapart p q kp kq).
      f_equal. congruence.
    + by apply sort_pairs_sorted.
    + by apply sort_pairs_sorted.
    + by rewrite !sort_pairs_perm.
  - destruct (with_keys_Err_inv _ _ _ H1) as (x & Hx & Hkx).
    assert (e = e0) as -> by by eapply key_err.
    rewrite Hperm in Hx.
    by rewrite (with_keys_Err key e0 l2 x key_err Hx Hkx).
Qed.
End SortedPermOn.

Lemma sort_rates_perm_eq (means_dict : gmap Z Q) (levels1 levels2 : list Z) :
  (∀ a b ka kb, a ∈ levels1 → b ∈ levels1 →
     means_dict !! a = Some ka → means_dict !! b = Some kb →
     (ka == kb)%Q → a = b) →
  levels1 ≡ₚ levels2 →
  sort_rates means_dict levels1 = sort_rates means_dict levels2.
Proof.
  intros Hapart Hperm. unfold sort_rates.
  apply (py_sorted_perm_eq_on _ _ KeyError);
    [intros; apply geb_total | apply geb_trans | | | done].
  - intros x e. unfold dict_get. destruct (means_dict !! x); naive_solver.
  - intros a b ka kb Ha Hb Hka Hkb Hab Hba. unfold dict_get in Hka, Hkb.
    destruct (means_dict !! a) as [ka'|] eqn:Ha'; [|done].
    destruct (means_dict !! b) as [kb'|] eqn:Hb'; [|done].
    injection Hka as ->. injection Hkb as ->.
    apply (Hapart a b ka kb Ha Hb Ha' Hb').
    apply Qle_bool_iff in Hab, Hba. by apply Qle_antisym.
Qed.

Lemma empty_letters_perm (levels1 levels2 : list Z) :
  levels1 ≡ₚ levels2 → empty_letters levels1 = empty_letters levels2.
Proof.
  intros Hperm. apply map_eq. intros r. rewrite !empty_letters_lookup.
  destruct (decide (r ∈ levels1)) as [H1|H1], (decide (r ∈ levels2)) as [H2|H2];
    try done; exfalso; apply H2 || apply H1; by rewrite Hperm || rewrite <- Hperm.
Qed.

(** Once the first pass has returned, the call returns. *)
Lemma cld_from_tukey_after_pass1 (levels : list Z) (means_dict : gmap Z Q)
    (reject_pairs : gmap (Z * Z) bool) (sorted : list Z) (st : state) :
  sort_rates means_dict levels = Ok sorted →
  pass1 elements reject_pairs (State [] (empty_letters levels)) sorted = Ok st →
  ∃ m, cld_from_tukey levels means_dict reject_pairs = Ok m.
Proof.
  intros Hsort Hpass1. unfold cld_from_tukey, cld_from_tukey_iter.
  rewrite Hsort. simpl. rewrite Hpass1. simpl.
  pose proof (sort_rates_perm _ _ _ Hsort) as Hperm.
  assert (pass1_inv levels sorted st) as Hinv.
  { eapply (pass1_inv_run elements reject_pairs elements_iterates);
      [|done]. intros r. by rewrite Hperm. }
  destruct (pass2_total elements reject_pairs levels
              (length (letter_sets st)) (letter_sets st) 0 (letters_map st))
    as (lm & Hlm & Hinv2).
  { by apply (pass1_letters_inv levels sorted). }
  { simpl. lia. }
  { apply (inv_bound _ _ _ Hinv). }
  rewrite Hlm. simpl.
  destruct (final_total remove_dups remove_dups_iterates levels _ lm Hinv2)
    as (m & Hfin & _).
  by exists m.
Qed.

Lemma normal_ext (str1 str2 : list ascii) :
  normal str1 → normal str2 → (∀ c, c ∈ str1 ↔ c ∈ str2) → str1 = str2.
Proof.
  intros Hn1 Hn2 Hsame.
  apply (StronglySorted_unique_strong alpha_lt).
  - intros a b _ _ Hab Hba. by destruct (alpha_lt_asym a b).
  - apply Hn1.
  - apply Hn2.
  - apply NoDup_Permutation; [by apply normal_NoDup..|done].
Qed.

(** X12. For means that are finite floats (the rationals of
    [means_dict]; with a NaN among the means the order that line 46
    yields depends on the order of the input): when no two levels have
    equal means, the result does not depend on the order in which the
    levels are given: the mapping returned is the same, and so is the
    exception raised. *)
Theorem result_does_not_depend_on_the_order_of_the_levels
    (levels1 levels2 : list Z) (means_dict : gmap Z Q)
    (reject_pairs : gmap (Z * Z) bool) :
  levels1 ≡ₚ levels2 →
  (∀ a b ka kb, a ∈ levels1 → b ∈ levels1 →
     means_dict !! a = Some ka → means_dict !! b = Some kb →
     (ka == kb)%Q → a = b) →
  cld_from_tukey levels1 means_dict reject_pairs
  = cld_from_tukey levels2 means_dict reject_pairs.
Proof.
  intros Hperm Hapart.
  pose proof (sort_rates_perm_eq _ _ _ Hapart Hperm) as Hsort.
  pose proof (empty_letters_perm _ _ Hperm) as Hempty.
  destruct (sort_rates means_dict levels1) as [sorted|e] eqn:Hsort1.
  2: { unfold cld_from_tukey, cld_from_tukey_iter.
       by rewrite <- Hsort, Hsort1. }
  destruct (pass1 elements reject_pairs (State [] (empty_letters levels1)) sorted)
    as [st|e] eqn:Hpass1.
  2: { unfold cld_from_tukey, cld_from_tukey_iter.
       rewrite <- Hsort, Hsort1. simpl. by rewrite <- Hempty, Hpass1. }
  assert (pass1 elements reject_pairs (State [] (empty_letters levels2)) sorted
          = Ok st) as Hpass2 by (by rewrite <- Hempty).
  symmetry in Hsort.
  destruct (cld_from_tukey_after_pass1 _ _ _ _ _ Hsort1 Hpass1) as [m1 Hm1].
  destruct (cld_from_tukey_after_pass1 _ _ _ _ _ Hsort Hpass2) as [m2 Hm2].
  rewrite Hm1, Hm2. f_equal.
  destruct (cld_from_tukey_run _ _ _ _ Hm1)
    as (sorted1 & st1 & Hs1 & Hp1 & _ & _ & Hhave1 & _ & Hhold1
        & [[Hkeys1 Hlet1 _] Hnormal1] & Hcomplete1).
  destruct (cld_from_tukey_run _ _ _ _ Hm2)
    as (sorted2 & st2 & Hs2 & Hp2 & _ & _ & Hhave2 & _ & Hhold2
        & [[Hkeys2 Hlet2 _] Hnormal2] & Hcomplete2).
  rewrite Hsort1 in Hs1. injection Hs1 as <-.
  rewrite Hsort in Hs2. injection Hs2 as <-.
  rewrite Hpass1 in Hp1. injection Hp1 as <-.
  rewrite Hpass2 in Hp2. injection Hp2 as <-.
  apply map_eq. intros r.
  destruct (decide (r ∈ levels1)) as [Hr1|Hr1].
  - assert (r ∈ levels2) as Hr2 by (by rewrite <- Hperm).
    destruct (Hnormal1 r Hr1) as (str1 & Hstr1 & Hn1).
    destruct (Hnormal2 r Hr2) as (str2 & Hstr2 & Hn2).
    rewrite Hstr1, Hstr2. f_equal. apply normal_ext; [done..|].
    assert (∀ (m m' : gmap Z (list ascii)) (levels : list Z)
              (str str' : list ascii) (c : ascii),
              holders_checked reject_pairs (letter_sets st) m →
              (∀ r str c, m !! r = Some str → c ∈ str →
                 ∃ i, i < length (letter_sets st) ∧ getitem i = Ok c) →
              members_have (letter_sets st) m' →
              (∀ i s c r, letter_sets st !! i = Some s → getitem i = Ok c →
                 r ∈ levels → compatible elements reject_pairs r s = true →
                 ∃ str, m' !! r = Some str ∧ c ∈ str) →
              r ∈ levels →
              m !! r = Some str → m' !! r = Some str' →
              c ∈ str → c ∈ str') as Hto.
    { intros m m' levels str str' c Hhold Hlet Hhave Hcomplete Hr Hstr Hstr' Hc.
      destruct (Hlet r str c Hstr Hc) as (i & Hi & Hget).
      destruct (lookup_lt_is_Some_2 _ _ Hi) as [s Hs].
      destruct (Hhold i s c r str Hs Hget Hstr Hc) as [Hmem|Hcomp].
      - destruct (Hhave i s c r Hs Hget Hmem) as (x & Hx & Hcx). congruence.
      - destruct (Hcomplete i s c r Hs Hget Hr Hcomp) as (x & Hx & Hcx).
        congruence. }
    intros c. split; intros Hc.
    + by eapply (Hto m1 m2 levels2).
    + by eapply (Hto m2 m1 levels1).
  - assert (r ∉ levels2) as Hr2 by (by rewrite <- Hperm).
    destruct (m1 !! r) as [str1|] eqn:Hstr1.
    { exfalso. apply Hr1, Hkeys1. by rewrite Hstr1. }
    destruct (m2 !! r) as [str2|] eqn:Hstr2; [|done].
    exfalso. apply Hr2, Hkeys2. by rewrite Hstr2.
Qed.

Lemma result_does_not_depend_on_the_order_of_the_levels_witness :
  cld_from_tukey [6; 2; 8; 4]%Z ex_means ex_reject = Ok ex_letters.
Proof.
  rewrite <- (result_does_not_depend_on_the_order_of_the_levels
                ex_levels [6; 2; 8; 4]%Z ex_means ex_reject).
  - vm_compute. reflexivity.
  - apply (bool_decide_unpack _). vm_compute. exact I.
  - intros a b ka kb Ha Hb Hka Hkb Heq. unfold ex_levels in Ha, Hb.
    repeat (apply elem_of_cons in Ha as [->|Ha]);
      [..|by apply elem_of_nil in Ha];
      (repeat (apply elem_of_cons in Hb as [->|Hb]);
        [..|by apply elem_of_nil in Hb]);
      try done;
      vm_compute in Hka, Hkb; injection Hka as <-; injection Hkb as <-;
      by vm_compute in Heq.
Defined.

(** * The exceptions of [cld_from_tukey] *)

Lemma for_each_Err_inv {A S : Type} (body : S → A → result S)
    (l : list A) (st : S) (e : error) :
  for_each body st l = Err e →
  ∃ l1 x l2 s, l = l1 ++ x :: l2 ∧ for_each body st l1 = Ok s
               ∧ body s x = Err e.
Proof.
  revert st. induction l as [|x l IH]; intros st Hrun; simpl in Hrun; [done|].
  destruct (body st x) as [st'|e'] eqn:Hx; simpl in Hrun.
  - destruct (IH st' Hrun) as (l1 & y & l2 & s & -> & Hl1 & Hy).
    exists (x :: l1), y, l2, s. split_and!; [done| |done].
    simpl. by rewrite Hx.
  - injection Hrun as ->. by exists [], x, l, st.
Qed.

Lemma getitem_Err (i : nat) (e : error) :
  getitem i = Err e → e = IndexError ∧ 26 ≤ i.
Proof.
  unfold getitem. destruct (ascii_lowercase !! i) eqn:Hi; [done|].
  intros [= <-]. split; [done|].
  apply lookup_ge_None_1 in Hi. by rewrite ascii_lowercase_length in Hi.
Qed.

(** The step of the first pass only raises for want of a letter. *)
Lemma place_Err (reject_pairs : gmap (Z * Z) bool) (sets : list (gset Z))
    (lm : gmap Z (list ascii)) (r : Z) (cur : list ascii) (e : error) :
  lm !! r = Some cur → length sets ≤ 26 →
  place elements reject_pairs (State sets lm) r = Err e →
  e = IndexError ∧ length sets = 26.
Proof.
  intros Hr Hlen. unfold place. simpl.
  rewrite (scan_groups_eq elements reject_pairs r sets 0 lm false cur Hr) by lia.
  simpl. destruct (accepts elements reject_pairs r sets); [done|].
  rewrite length_app, length_fmap. simpl.
  replace (length sets + 1 - 1) with (length sets) by lia.
  unfold append_letter_at, dict_get. rewrite lookup_insert_eq. simpl.
  destruct (getitem (length sets)) as [c|e'] eqn:Hc; [done|]. simpl.
  intros [= <-]. apply getitem_Err in Hc as [-> Hge]. split; [done | lia].
Qed.

(** X13. The exceptions of [cld_from_tukey]: a call that raises raises
    [KeyError], and then a level has no mean, or [IndexError], and then
    every level has a mean and there are more than 26 levels.  It never
    raises [ValueError]: every character that the final loop looks up in
    the alphabet is one of its letters. *)
Theorem cld_from_tukey_raises_for_a_mean_or_a_letter
    (levels : list Z) (means_dict : gmap Z Q) (reject_pairs : gmap (Z * Z) bool)
    (e : error) :
  cld_from_tukey levels means_dict reject_pairs = Err e →
  (e = KeyError ∧ ∃ r, r ∈ levels ∧ means_dict !! r = None)
  ∨ (e = IndexError ∧ 26 < length levels
     ∧ ∀ r, r ∈ levels → is_Some (means_dict !! r)).
Proof.
  intros Herr.
  destruct (decide (Forall (λ r, is_Some (means_dict !! r)) levels))
    as [Hall|Hnot].
  - right. rewrite Forall_forall in Hall.
    destruct (sort_rates_total _ _ Hall) as [sorted Hsort].
    pose proof (sort_rates_perm _ _ _ Hsort) as Hperm.
    destruct (pass1 elements reject_pairs (State [] (empty_letters levels)) sorted)
      as [st|e'] eqn:Hpass1.
    { destruct (cld_from_tukey_after_pass1 _ _ _ _ _ Hsort Hpass1) as [m Hm].
      by rewrite Hm in Herr. }
    unfold cld_from_tukey, cld_from_tukey_iter in Herr.
    rewrite Hsort in Herr. simpl in Herr. rewrite Hpass1 in Herr.
    simpl in Herr. injection Herr as ->.
    apply for_each_Err_inv in Hpass1
      as (l1 & x & l2 & [sets lm] & Heq & Hl1 & Hx).
    assert (∀ r, r ∈ l1 → r ∈ levels) as Hl.
    { intros r Hr. rewrite <- Hperm, Heq. apply elem_of_app. by left. }
    pose proof (pass1_inv_run elements reject_pairs elements_iterates
                  levels l1 _ Hl Hl1) as Hinv.
    assert (x ∈ levels) as Hxl.
    { rewrite <- Hperm, Heq. apply elem_of_app. right. by left. }
    destruct (proj2 (inv_keys _ _ _ Hinv x) Hxl) as [cur Hcur]. simpl in Hcur.
    destruct (place_Err _ _ _ _ _ _ Hcur (inv_bound _ _ _ Hinv) Hx)
      as [-> H26].
    split_and!; [done| |done].
    pose proof (inv_count _ _ _ Hinv) as Hcount. simpl in Hcount, H26.
    rewrite <- Hperm, Heq, length_app. simpl. lia.
  - left. apply not_Forall_Exists in Hnot; [|apply _].
    apply Exists_exists in Hnot as (r & Hr & Hnone).
    assert (means_dict !! r = None) as Hnone'.
    { simpl in Hnone. destruct (means_dict !! r) as [q|] eqn:Hq; [|done].
      exfalso. apply Hnone. by exists q. }
    split; [|by exists r].
    unfold cld_from_tukey, cld_from_tukey_iter, sort_rates, py_sorted in Herr.
    rewrite (with_keys_Err (dict_get means_dict) KeyError levels r) in Herr.
    + simpl in Herr. by injection Herr.
    + apply dict_get_Err.
    + done.
    + unfold dict_get. by rewrite Hnone'.
Qed.

Lemma cld_from_tukey_raises_for_a_mean_or_a_letter_witness :
  26 < length many_levels.
Proof.
  destruct (cld_from_tukey_raises_for_a_mean_or_a_letter many_levels
              many_means many_reject IndexError) as [[[=] _]|(_ & Hlen & _)].
  - vm_compute. reflexivity.
  - exact Hlen.
Defined.
